(** * Similarity ranking of the embedding search API (app.py)

    A shallow embedding of the ranking code of [app.py]: the numeric
    helpers ([cosine_similarity], [mean_pooling],
    [compare_all_embeddings_take_max]), the bounded collector
    ([add_to_heap] over [heapq]), the exhaustive rankers ([search],
    [search_similar]), the index rankers ([index_search],
    [index_search_similar]) and the clamping of [num_results] done by the
    two routes.

    Python floats and numpy's float64 are IEEE 754 binary64 numbers: they
    are modelled by Rocq's primitive floats, NaN included.  Python
    exceptions are modelled by the [result] monad below.  The SQLite
    helpers, the hnswlib indexes and [random.random] are collaborators
    that live outside [app.py]: they are parameters of the model. *)

From Stdlib Require Import ZArith Floats Lia.
From stdpp Require Import base list strings sorting gmap.

Local Open Scope Z_scope.

(** ** Exceptions *)

Inductive exn : Type :=
  | ValueError
  | TypeError
  | IndexError
  | RuntimeError.

Inductive result (A : Type) : Type :=
  | Ok (a : A)
  | Raise (e : exn).
Arguments Ok {A} a.
Arguments Raise {A} e.

Definition bind {A B : Type} (k : A -> result B) (m : result A) : result B :=
  match m with
  | Ok a => k a
  | Raise e => Raise e
  end.

#[global] Instance result_ret : MRet result := @Ok.
#[global] Instance result_bind : MBind result := @bind.

(** A list comprehension whose body may raise: the elements are evaluated
    from left to right and the first exception aborts the comprehension. *)
Fixpoint mapM {A B : Type} (f : A -> result B) (l : list A) : result (list B) :=
  match l with
  | [] => Ok []
  | x :: l' => y ← f x; ys ← mapM f l'; Ok (y :: ys)
  end.

(** ** binary64 numbers and their order *)

Module F64.

Definition notnan (x : float) : Prop := PrimFloat.is_nan x = false.

(** [float(n)] for a length [n]; exact below 2^53. *)
Definition of_nat (n : nat) : float :=
  PrimFloat.of_uint63 (Uint63.of_Z (Z.of_nat n)).

End F64.

(** ** Python list slicing [l[:n]] *)

Definition slice_to {A : Type} (l : list A) (n : Z) : list A :=
  if 0 <=? n then take (Z.to_nat n) l
  else take (length l - Z.to_nat (- n))%nat l.

(** ** The routes: clamping of [num_results]

    [request.args.get('num_results')] is [None] or the text of the
    parameter; [int] is Python's conversion, which raises [ValueError] on
    text that is not an integer literal. *)

Section Routes.

Variable py_int : string -> result Z.

Definition num_results_of (arg : option string) : result Z :=
  num_results ← match arg with
                 | None => Ok 10
                 | Some s => py_int s
                 end;
  Ok (Z.max 0 (Z.min num_results 100)).

End Routes.

(** ** numpy values and the numeric helpers

    The values that flow through the helpers are zero-dimensional
    ([np.float64]) or one-dimensional arrays of binary64 numbers. *)

Inductive ndarray : Type :=
  | scalar (x : float)
  | array1 (v : list float).

Definition ravel (a : ndarray) : list float :=
  match a with
  | scalar x => [x]
  | array1 v => v
  end.

(** Inner product of two one-dimensional arrays of the same length,
    every product and every sum rounded, accumulated from 0.0 in index
    order.  numpy hands this product to the BLAS of the installation,
    which may fuse a product with its sum or keep several accumulators:
    the value it returns can differ from this one in the last bits, and
    in nothing else. *)
Definition dot1 (u v : list float) : float :=
  fold_left (fun acc p => (acc + p.1 * p.2)%float) (zip u v) 0%float.

(** [np.dot]: a product when an operand is zero-dimensional, the inner
    product of two one-dimensional arrays, [ValueError] when their shapes
    are not aligned. *)
Definition np_dot (a b : ndarray) : result ndarray :=
  match a, b with
  | scalar x, scalar y => Ok (scalar (x * y)%float)
  | scalar x, array1 v => Ok (array1 (map (fun y => (x * y)%float) v))
  | array1 u, scalar y => Ok (array1 (map (fun x => (x * y)%float) u))
  | array1 u, array1 v =>
      if (length u =? length v)%nat then Ok (scalar (dot1 u v))
      else Raise ValueError
  end.

(** [np.linalg.norm]: [sqrt(x.dot(x))] of the flattened argument. *)
Definition np_linalg_norm (a : ndarray) : float :=
  PrimFloat.sqrt (dot1 (ravel a) (ravel a)).

(** Division of an array by a zero-dimensional value.  numpy does not
    raise on a zero divisor: the quotient is an infinity or NaN. *)
Definition np_truediv (a : ndarray) (d : float) : ndarray :=
  match a with
  | scalar x => scalar (x / d)%float
  | array1 v => array1 (map (fun x => (x / d)%float) v)
  end.

(** numpy's pairwise summation of a contiguous run of values
    ([DOUBLE_pairwise_sum]).  A run of fewer than 8 values is added to
    one accumulator that starts at -0.0.  A run of at most 128 values is
    added to eight accumulators, block of eight after block of eight; the
    accumulators are then added up as a tree, and the values left over
    after the last whole block one by one.  A longer run is cut in two,
    the first part a multiple of eight long. *)
Fixpoint add_blocks (blocks : nat) (r a : list float) : list float * list float :=
  match blocks with
  | O => (r, a)
  | S blocks' => add_blocks blocks' (zip_with PrimFloat.add r (take 8 a)) (drop 8 a)
  end.

Definition tree8 (r : list float) : float :=
  (((nth 0 r 0 + nth 1 r 0) + (nth 2 r 0 + nth 3 r 0)) +
   ((nth 4 r 0 + nth 5 r 0) + (nth 6 r 0 + nth 7 r 0)))%float.

(** The recursion halves the run: [fuel] bounds its depth, and the
    length of the run is more than enough. *)
Fixpoint pairwise_sum (fuel : nat) (a : list float) : float :=
  let n := length a in
  if (n <? 8)%nat then fold_left PrimFloat.add a PrimFloat.neg_zero
  else if (n <=? 128)%nat then
    let '(r, rest) := add_blocks (n / 8 - 1) (take 8 a) (drop 8 a) in
    fold_left PrimFloat.add rest (tree8 r)
  else
    match fuel with
    | O => fold_left PrimFloat.add a PrimFloat.neg_zero
    | S fuel' =>
        let n2 := (n / 2 - (n / 2) mod 8)%nat in
        (pairwise_sum fuel' (take n2 a) + pairwise_sum fuel' (drop n2 a))%float
    end.

Definition np_pairwise_sum (a : list float) : float := pairwise_sum (length a) a.

(** [np.sum(rows, axis=0)]: 0.0 for no row at all, [ValueError] for rows
    of different lengths (numpy 1.24 and later refuse to make an array of
    them).  Otherwise the result starts as zeros, the identity of the
    addition.  Rows of one value make one contiguous column, which is
    summed pairwise and added to the zero; rows of another length are
    added to the result one after the other, in order. *)
Definition np_sum_axis0 (rows : list (list float)) : result ndarray :=
  match rows with
  | [] => Ok (scalar 0%float)
  | r :: rest =>
      if forallb (fun r' => (length r' =? length r)%nat) rest
      then Ok (array1
                 (if (length r =? 1)%nat
                  then [(0 + np_pairwise_sum (map (fun r' => nth 0 r' 0%float) rows))%float]
                  else fold_left (zip_with PrimFloat.add) rows
                         (replicate (length r) 0%float)))
      else Raise ValueError
  end.

(** [float(x)]: defined on a zero-dimensional value and on an array of
    one element. *)
Definition py_float (a : ndarray) : result float :=
  match a with
  | scalar x => Ok x
  | array1 [x] => Ok x
  | array1 _ => Raise TypeError
  end.

(** The truth value of [a > b], as the builtin [max] asks for it.  It is
    defined when the comparison has exactly one element; otherwise the
    shapes do not broadcast or the truth value of the array is ambiguous,
    and [ValueError] is raised. *)
Definition nd_gt (a b : ndarray) : result bool :=
  match ravel a, ravel b with
  | [x], [y] => Ok (PrimFloat.ltb y x)
  | _, _ => Raise ValueError
  end.

(** The builtin [max] of a list: the first item that no later item
    exceeds; [ValueError] on the empty list. *)
Fixpoint max_from (cur : ndarray) (rest : list ndarray) : result ndarray :=
  match rest with
  | [] => Ok cur
  | item :: rest' =>
      b ← nd_gt item cur;
      max_from (if b : bool then item else cur) rest'
  end.

Definition py_max (l : list ndarray) : result ndarray :=
  match l with
  | [] => Raise ValueError
  | x :: rest => max_from x rest
  end.

Definition cosine_similarity (a b : ndarray) : result ndarray :=
  d ← np_dot a b;
  Ok (np_truediv d (np_linalg_norm a * np_linalg_norm b)%float).

Definition mean_pooling (embeddings : list (list float)) : result ndarray :=
  s ← np_sum_axis0 embeddings;
  Ok (np_truediv s (F64.of_nat (length embeddings))).

Definition compare_all_embeddings_take_max
    (embeddings : list (list float)) (query_embed : ndarray) : result ndarray :=
  similarities ← mapM (fun embedding => cosine_similarity (array1 embedding) query_embed)
                      embeddings;
  py_max similarities.

(** ** Matches and the sort by score *)

Record Match : Type := mkMatch {
  appid : Z;
  name : string;
  match_type : string;
  score : float
}.

(** [sorted(l, key=key, reverse=True)] and [l.sort(key=key, reverse=True)]:
    a stable sort into descending keys.  On keys that [<] orders totally
    (no NaN among them) a stable sort has one possible outcome, the one
    this insertion sort computes; the statements below about the order of
    the output are made for such keys.  With NaN among the keys Python's
    sort returns a permutation of its input that depends on the merges it
    makes, and which this function does not compute: of such an input the
    statements below use the fact that the output is a permutation, and
    no more. *)
Fixpoint insert_desc {A : Type} (key : A -> float) (x : A) (l : list A) : list A :=
  match l with
  | [] => [x]
  | y :: l' =>
      if PrimFloat.ltb (key x) (key y) then y :: insert_desc key x l'
      else x :: l
  end.

Definition sorted_desc {A : Type} (key : A -> float) (l : list A) : list A :=
  foldr (insert_desc key) [] l.

(** ** The collaborators

    [Conn] gathers the [sqlite_helpers] functions the rankers call on a
    connection; [Index] is an hnswlib index, whose [knn_query] returns the
    first row of labels and the first row of distances, or raises. *)

Record Conn : Type := mkConn {
  get_name_for_appid : Z -> string;
  get_description_embeddings_for_appid : Z -> list (list float);
  get_review_embeddings_for_appid : Z -> list (Z * list (list float));
  get_appids_with_review_embeds : list Z;
  get_paginated_embeddings_for_descriptions : list (list (Z * list (list float)))
}.

Record Index : Type := mkIndex {
  knn_query : ndarray -> Z -> result (list Z * list float)
}.

(** ** The index rankers *)

Section IndexRankers.

Variables description_index review_index : Index.

Definition index_search (conn : Conn) (query : ndarray)
    (query_for_type : string) (max_results : Z) : result (list Match) :=
  let matches := [] in
  matches ←
    (if String.eqb query_for_type "all" || String.eqb query_for_type "description" then
       '(appids, distances) ← knn_query description_index query max_results;
       Ok (matches ++
           map (fun '(appid, distance) =>
                  {| appid := appid;
                     name := get_name_for_appid conn appid;
                     match_type := "description";
                     score := (1 - distance)%float |})
               (zip appids distances))
     else Ok matches);
  matches ←
    (if String.eqb query_for_type "all" || String.eqb query_for_type "review" then
       '(appids, distances) ← knn_query review_index query max_results;
       Ok (matches ++
           map (fun '(appid, distance) =>
                  {| appid := appid;
                     name := get_name_for_appid conn appid;
                     match_type := "review";
                     score := (1 - distance)%float |})
               (zip appids distances))
     else Ok matches);
  let matches := sorted_desc score matches in
  Ok (slice_to matches max_results).

(** The loop of [index_search_similar]: the label of the query itself is
    passed over, every other label yields a match. *)
Definition similar_matches (conn : Conn) (query_appid : Z) (kind : string)
    (appids : list Z) (distances : list float) : list Match :=
  flat_map (fun '(appid, distance) =>
              if appid =? query_appid then []
              else [ {| appid := appid;
                        name := get_name_for_appid conn appid;
                        match_type := kind;
                        score := (1 - distance)%float |} ])
           (zip appids distances).

(** The first statement formats a debug message with the name of the
    queried game: the name is looked up in the store before any type is
    tested, and not used. *)
Definition index_search_similar (conn : Conn) (query_appid : Z)
    (query_for_type : string) (max_results : Z) : result (list Match) :=
  let matches := [] in
  let _ := get_name_for_appid conn query_appid in
  matches ←
    (if String.eqb query_for_type "all" || String.eqb query_for_type "description" then
       let all_description_embeddings :=
         get_description_embeddings_for_appid conn query_appid in
       query_embed ← mean_pooling all_description_embeddings;
       '(appids, distances) ← knn_query description_index query_embed (max_results + 1);
       Ok (matches ++ similar_matches conn query_appid "description" appids distances)
     else Ok matches);
  matches ←
    (if String.eqb query_for_type "all" || String.eqb query_for_type "review" then
       let query_review_embeddings := get_review_embeddings_for_appid conn query_appid in
       let query_flat_embeddings := concat (map snd query_review_embeddings) in
       query_embed ← mean_pooling query_flat_embeddings;
       '(appids, distances) ← knn_query review_index query_embed (max_results + 1);
       Ok (matches ++ similar_matches conn query_appid "review" appids distances)
     else Ok matches);
  let matches := sorted_desc score matches in
  Ok (slice_to matches max_results).

End IndexRankers.

(** ** heapq

    [heappush] and [heappop] of Python's [heapq] on a list, for items
    compared by [lt] (Python's [<], which may raise).  The loops of
    [_siftdown] and [_siftup] run on a fuel that their callers set to a
    bound of the number of iterations; a loop that would exhaust it
    raises [RuntimeError]. *)

Section Heapq.

Context {A : Type}.
Variable lt : A -> A -> result bool.

Definition getitem (heap : list A) (i : nat) : result A :=
  match heap !! i with
  | Some x => Ok x
  | None => Raise IndexError
  end.

Definition setitem (heap : list A) (i : nat) (x : A) : result (list A) :=
  if (i <? length heap)%nat then Ok (<[i:=x]> heap) else Raise IndexError.

Fixpoint siftdown_loop (fuel : nat) (heap : list A) (startpos pos : nat) (newitem : A)
    : result (list A * nat) :=
  if (startpos <? pos)%nat then
    match fuel with
    | O => Raise RuntimeError
    | S fuel' =>
        let parentpos := Nat.div2 (pos - 1) in
        parent ← getitem heap parentpos;
        b ← lt newitem parent;
        if b : bool then
          heap ← setitem heap pos parent;
          siftdown_loop fuel' heap startpos parentpos newitem
        else Ok (heap, pos)
    end
  else Ok (heap, pos).

Definition siftdown (heap : list A) (startpos pos : nat) : result (list A) :=
  newitem ← getitem heap pos;
  '(heap, pos) ← siftdown_loop pos heap startpos pos newitem;
  setitem heap pos newitem.

Fixpoint siftup_loop (fuel : nat) (heap : list A) (endpos pos childpos : nat)
    : result (list A * nat) :=
  if (childpos <? endpos)%nat then
    match fuel with
    | O => Raise RuntimeError
    | S fuel' =>
        let rightpos := (childpos + 1)%nat in
        childpos ←
          (if (rightpos <? endpos)%nat then
             l ← getitem heap childpos;
             r ← getitem heap rightpos;
             b ← lt l r;
             Ok (if negb b then rightpos else childpos)
           else Ok childpos);
        child ← getitem heap childpos;
        heap ← setitem heap pos child;
        siftup_loop fuel' heap endpos childpos (2 * childpos + 1)%nat
    end
  else Ok (heap, pos).

Definition siftup (heap : list A) (pos : nat) : result (list A) :=
  let endpos := length heap in
  let startpos := pos in
  newitem ← getitem heap pos;
  '(heap, pos) ← siftup_loop endpos heap endpos pos (2 * pos + 1)%nat;
  heap ← setitem heap pos newitem;
  siftdown heap startpos pos.

Definition heappush (heap : list A) (item : A) : result (list A) :=
  let heap := heap ++ [item] in
  siftdown heap 0 (length heap - 1).

(** [heappop] returns the popped item and the heap that remains. *)
Definition heappop (heap : list A) : result (A * list A) :=
  match last heap with
  | None => Raise IndexError
  | Some lastelt =>
      let heap := removelast heap in
      match heap with
      | [] => Ok (lastelt, heap)
      | returnitem :: _ =>
          heap ← setitem heap 0 lastelt;
          heap ← siftup heap 0;
          Ok (returnitem, heap)
      end
  end.

End Heapq.

(** ** The bounded collector

    A heap entry is the tuple [(score, random.random(), item)].  Tuples
    are compared at their first components that differ under [==]; two
    dicts that differ cannot be ordered, which raises [TypeError]. *)

Definition entry : Type := float * float * Match.

Definition dict_eqb (a b : Match) : bool :=
  (appid a =? appid b) && String.eqb (name a) (name b)
  && String.eqb (match_type a) (match_type b)
  && PrimFloat.eqb (score a) (score b).

Definition tuple_lt (a b : entry) : result bool :=
  let '(s1, r1, m1) := a in
  let '(s2, r2, m2) := b in
  if negb (PrimFloat.eqb s1 s2) then Ok (PrimFloat.ltb s1 s2)
  else if negb (PrimFloat.eqb r1 r2) then Ok (PrimFloat.ltb r1 r2)
  else if dict_eqb m1 m2 then Ok false
  else Raise TypeError.

Fixpoint foldM {S B : Type} (f : S -> B -> result S) (l : list B) (s : S) : result S :=
  match l with
  | [] => Ok s
  | x :: l' => s' ← f s x; foldM f l' s'
  end.

Section Exhaustive.

(** The successive values of [random.random()]. *)
Variable random : nat -> float.

(** The collector's state: the heap and the number of random values
    drawn so far. *)
Definition collector : Type := list entry * nat.

Definition add_to_heap (st : collector) (item_to_add : Match) (max_length : Z)
    : result collector :=
  let '(heap, n) := st in
  heap ← heappush tuple_lt heap (score item_to_add, random n, item_to_add);
  heap ← (if max_length <? Z.of_nat (length heap) then
            '(_, heap) ← heappop tuple_lt heap; Ok heap
          else Ok heap);
  Ok (heap, S n).

(** The end of both exhaustive rankers: sort the entries by their first
    component, keep the dicts. *)
Definition drain (matches : list entry) : list Match :=
  map (fun m => m.2) (sorted_desc (fun x : entry => x.1.1) matches).

Definition search (conn : Conn) (query_embed : ndarray)
    (query_for_type : string) (max_results : Z) : result (list Match) :=
  let matches : collector := ([], O) in
  matches ←
    (if String.eqb query_for_type "all" || String.eqb query_for_type "description" then
       foldM (fun matches current_page =>
                foldM (fun matches '(appid, embeddings) =>
                         score ← compare_all_embeddings_take_max embeddings query_embed;
                         let name := get_name_for_appid conn appid in
                         score ← py_float score;
                         add_to_heap matches
                           {| appid := appid; name := name;
                              match_type := "description"; score := score |}
                           max_results)
                      current_page matches)
             (get_paginated_embeddings_for_descriptions conn) matches
     else Ok matches);
  matches ←
    (if String.eqb query_for_type "all" || String.eqb query_for_type "review" then
       let appids_with_reviews := get_appids_with_review_embeds conn in
       foldM (fun matches appid =>
                let all_review_embeddings := get_review_embeddings_for_appid conn appid in
                let flat_embeddings := concat (map snd all_review_embeddings) in
                average_embedding ← mean_pooling flat_embeddings;
                score ← cosine_similarity average_embedding query_embed;
                let name := get_name_for_appid conn appid in
                score ← py_float score;
                add_to_heap matches
                  {| appid := appid; name := name;
                     match_type := "review"; score := score |}
                  max_results)
             appids_with_reviews matches
     else Ok matches);
  Ok (drain matches.1).

(** As [index_search_similar] does, [search_similar] first looks up the
    name of the queried game for a debug message. *)
Definition search_similar (conn : Conn) (query_appid : Z)
    (query_for_type : string) (max_results : Z) : result (list Match) :=
  let matches : collector := ([], O) in
  let _ := get_name_for_appid conn query_appid in
  matches ←
    (if String.eqb query_for_type "all" || String.eqb query_for_type "description" then
       let all_description_embeddings :=
         get_description_embeddings_for_appid conn query_appid in
       query_embed ← mean_pooling all_description_embeddings;
       foldM (fun matches current_page =>
                foldM (fun matches '(current_appid, embeddings) =>
                         if current_appid =? query_appid then Ok matches
                         else
                           score ← compare_all_embeddings_take_max embeddings query_embed;
                           let name := get_name_for_appid conn current_appid in
                           score ← py_float score;
                           add_to_heap matches
                             {| appid := current_appid; name := name;
                                match_type := "description"; score := score |}
                             max_results)
                      current_page matches)
             (get_paginated_embeddings_for_descriptions conn) matches
     else Ok matches);
  matches ←
    (if String.eqb query_for_type "all" || String.eqb query_for_type "review" then
       let query_review_embeddings := get_review_embeddings_for_appid conn query_appid in
       let query_flat_embeddings := concat (map snd query_review_embeddings) in
       query_embed ← mean_pooling query_flat_embeddings;
       let appids_with_reviews := get_appids_with_review_embeds conn in
       foldM (fun matches current_appid =>
                if current_appid =? query_appid then Ok matches
                else
                  let all_review_embeddings :=
                    get_review_embeddings_for_appid conn current_appid in
                  let flat_embeddings := concat (map snd all_review_embeddings) in
                  average_embedding ← mean_pooling flat_embeddings;
                  score ← cosine_similarity average_embedding query_embed;
                  let name := get_name_for_appid conn current_appid in
                  score ← py_float score;
                  add_to_heap matches
                    {| appid := current_appid; name := name;
                       match_type := "review"; score := score |}
                    max_results)
             appids_with_reviews matches
     else Ok matches);
  Ok (drain matches.1).

End Exhaustive.

(** * Specification vocabulary *)

(** [key_ge key a b]: [a] may stand before [b] in a list of descending keys. *)
Definition key_ge {A : Type} (key : A -> float) (a b : A) : Prop :=
  PrimFloat.leb (key b) (key a) = true.

Definition desc_sorted {A : Type} (key : A -> float) (l : list A) : Prop :=
  StronglySorted (key_ge key) l.

(** The items whose key equals [k] (under [==]). *)
Definition same_key {A : Type} (key : A -> float) (k : float) (a : A) : bool :=
  PrimFloat.eqb (key a) k.

(** [s] is the outcome of sorting [l] by descending key with a stable
    sort: the same items, keys never increasing, and the items of equal
    key in the order they have in [l]. *)
Definition stable_sort_desc_of {A : Type} (key : A -> float) (l s : list A) : Prop :=
  s ≡ₚ l /\ desc_sorted key s /\
  forall k, List.filter (same_key key k) s = List.filter (same_key key k) l.

(** What the model asks of an index: the scores [1.0 - distance] of the
    neighbours it returns are numbers, and a label is returned once. *)
Definition index_scores_ok (ix : Index) : Prop :=
  forall q k ls ds, knn_query ix q k = Ok (ls, ds) ->
    Forall (fun d => F64.notnan (1 - d)%float) ds.

Definition index_labels_distinct (ix : Index) : Prop :=
  forall q k ls ds, knn_query ix q k = Ok (ls, ds) -> NoDup ls.

(** A match type is requested by itself or by ["all"]. *)
Definition requested (query_for_type kind : string) : bool :=
  String.eqb query_for_type "all" || String.eqb query_for_type kind.

(** The result sequence of one match type on the index path, for a text
    query and for an entity query. *)
Definition text_matches (conn : Conn) (kind : string)
    (appids : list Z) (distances : list float) : list Match :=
  map (fun '(appid, distance) =>
         {| appid := appid;
            name := get_name_for_appid conn appid;
            match_type := kind;
            score := (1 - distance)%float |})
      (zip appids distances).

Definition ranked_by_text (ix : Index) (conn : Conn) (query : ndarray)
    (kind query_for_type : string) (max_results : Z) : result (list Match) :=
  if requested query_for_type kind then
    '(appids, distances) ← knn_query ix query max_results;
    Ok (text_matches conn kind appids distances)
  else Ok [].

Definition ranked_by_entity (ix : Index) (conn : Conn) (embeddings : list (list float))
    (query_appid : Z) (kind query_for_type : string) (max_results : Z)
    : result (list Match) :=
  if requested query_for_type kind then
    query_embed ← mean_pooling embeddings;
    '(appids, distances) ← knn_query ix query_embed (max_results + 1);
    Ok (similar_matches conn query_appid kind appids distances)
  else Ok [].

(** The elementwise arithmetic mean of vectors of one dimension, in the
    words of the specification: component [j] of the mean is the sum of
    the components [j], divided by the number of vectors. *)
Definition column (j : nat) (vectors : list (list float)) : list float :=
  map (fun v => nth j v 0%float) vectors.

Definition sum_of (xs : list float) : float :=
  fold_left PrimFloat.add xs 0%float.

Definition elementwise_mean (vectors : list (list float)) : list float :=
  map (fun j => (sum_of (column j vectors) / F64.of_nat (length vectors))%float)
      (seq 0 (length (hd [] vectors))).

(** [adds_up xs s]: [s] is what binary64 additions make of the numbers
    [xs], each taken once, in some order and some grouping. *)
Inductive adds_up : list float -> float -> Prop :=
  | adds_one x : adds_up [x] x
  | adds_two l1 l2 a b :
      adds_up l1 a -> adds_up l2 b -> adds_up (l1 ++ l2) (a + b)%float
  | adds_perm l l' a : l ≡ₚ l' -> adds_up l a -> adds_up l' a.

(** A vector of zero norm in the plain sense: every component is a zero. *)
Definition zero_vector (v : list float) : Prop :=
  Forall (fun x => PrimFloat.is_zero x = true) v.

(** A binary64 number that is a zero or NaN. *)
Definition zero_or_nan (x : float) : Prop :=
  (exists s, Prim2SF x = S754_zero s) \/ Prim2SF x = S754_nan.

(** The binary heap laid out in a list: the children of position [i] are
    the positions [2i+1] and [2i+2].  [le] is "not greater" for a
    decidable [ltb]. *)
Definition child (i c : nat) : Prop := c = (2 * i + 1)%nat \/ c = (2 * i + 2)%nat.

Definition heap_le {A : Type} (ltb : A -> A -> bool) (a b : A) : Prop :=
  ltb b a = false.

Definition heap_inv {A : Type} (ltb : A -> A -> bool) (h : list A) : Prop :=
  forall i c x y, child i c -> h !! i = Some x -> h !! c = Some y -> heap_le ltb x y.

(** The heap order but for the item at [pos], which may be smaller than
    its parent: every other item is not smaller than its parent, and the
    children of [pos] are not smaller than the parent of [pos]. *)
Definition up_inv {A : Type} (ltb : A -> A -> bool) (h : list A) (pos : nat) : Prop :=
  (forall i c x y, child i c -> c <> pos ->
     h !! i = Some x -> h !! c = Some y -> heap_le ltb x y) /\
  (forall g c x y, child g pos -> child pos c ->
     h !! g = Some x -> h !! c = Some y -> heap_le ltb x y).

(** The heap order around a hole at [pos], whose content does not count. *)
Definition down_inv {A : Type} (ltb : A -> A -> bool) (h : list A) (pos : nat) : Prop :=
  (forall i c x y, child i c -> i <> pos -> c <> pos ->
     h !! i = Some x -> h !! c = Some y -> heap_le ltb x y) /\
  (forall g c x y, child g pos -> child pos c ->
     h !! g = Some x -> h !! c = Some y -> heap_le ltb x y).

(** The order of heap entries when no comparison raises: by score, then
    by tiebreak. *)
Definition tuple_ltb (a b : entry) : bool :=
  let '(s1, r1, _) := a in
  let '(s2, r2, _) := b in
  if negb (PrimFloat.eqb s1 s2) then PrimFloat.ltb s1 s2
  else if negb (PrimFloat.eqb r1 r2) then PrimFloat.ltb r1 r2
  else false.

(** An entry as [add_to_heap] builds it, with a score and a tiebreak that
    are numbers. *)
Definition entry_ok (e : entry) : Prop :=
  F64.notnan e.1.1 /\ F64.notnan e.1.2 /\ e.1.1 = score e.2.

(** The entries that [add_to_heap] builds for [items], from the draw
    number [n] on. *)
Fixpoint entries_from (random : nat -> float) (n : nat) (items : list Match)
    : list entry :=
  match items with
  | [] => []
  | m :: items' => (score m, random n, m) :: entries_from random (S n) items'
  end.

(** A sequence of offers to a collector of capacity [max_length]. *)
Definition offer_all (random : nat -> float) (max_length : Z)
    (items : list Match) (st : collector) : result collector :=
  foldM (fun st item => add_to_heap random st item max_length) items st.

(** The first [n] draws are numbers, different from one another. *)
Definition draws_ok (random : nat -> float) (n : nat) : Prop :=
  forall i, (i < n)%nat -> F64.notnan (random i).

Definition distinct_draws (random : nat -> float) (n : nat) : Prop :=
  forall i j, (i < n)%nat -> (j < n)%nat -> i <> j ->
    PrimFloat.eqb (random i) (random j) = false.

(** The collector's heap holds the [max_length] entries of greatest
    order among those [seen]; [dropped] are the others. *)
Definition collector_inv (max_length : Z) (heap seen dropped : list entry) : Prop :=
  heap ++ dropped ≡ₚ seen /\
  heap_inv tuple_ltb heap /\
  (forall d h, d ∈ dropped -> h ∈ heap -> heap_le tuple_ltb d h) /\
  length heap = Nat.min (Z.to_nat max_length) (length seen).

(** No entry of the collector is about the game [query_appid]. *)
Definition excludes (query_appid : Z) (st : collector) : Prop :=
  forall e, e ∈ st.1 -> appid e.2 <> query_appid.

(** * A small catalogue

    Five games with embeddings of two dimensions.  Games 1, 2 and 5 have
    a description and reviews, game 3 has a description of two passages
    and no review, game 4 has no embedding at all. *)

Module Catalogue.

Definition conn : Conn := {|
  get_name_for_appid a :=
    if a =? 1 then "Alpha" else if a =? 2 then "Beta"
    else if a =? 3 then "Gamma" else if a =? 4 then "Delta" else "Epsilon";
  get_description_embeddings_for_appid a :=
    if a =? 1 then [[1; 0]]%float else if a =? 2 then [[0.25; 1]]%float
    else if a =? 3 then [[1; 0]; [0; 1]]%float
    else if a =? 5 then [[0.75; 0.5]]%float else [];
  get_review_embeddings_for_appid a :=
    if a =? 1 then [(10, [[1; 0]]%float); (11, [[1; 0]]%float)]
    else if a =? 2 then [(20, [[0.5; 1]]%float)]
    else if a =? 5 then [(50, [[0.75; 0.5]]%float)] else [];
  get_appids_with_review_embeds := [1; 2; 5];
  get_paginated_embeddings_for_descriptions :=
    [[(1, [[1; 0]]%float); (2, [[0.25; 1]]%float)];
     [(3, [[1; 0]; [0; 1]]%float); (5, [[0.75; 0.5]]%float)]]
|}.

(** Another store, which gives the games the same names. *)
Definition conn' : Conn := {|
  get_name_for_appid := get_name_for_appid conn;
  get_description_embeddings_for_appid a := [];
  get_review_embeddings_for_appid a := [];
  get_appids_with_review_embeds := [];
  get_paginated_embeddings_for_descriptions := []
|}.

(** An index given by the neighbours it returns, nearest first.  As
    hnswlib does, it rejects a query that is not an array of vectors and a
    [k] larger than the number of its items. *)
Definition table_index (labels : list Z) (distances : list float) : Index := {|
  knn_query q k :=
    match q with
    | scalar _ => Raise RuntimeError
    | array1 _ =>
        if k <? 0 then Raise TypeError
        else if Z.of_nat (length labels) <? k then Raise RuntimeError
        else Ok (take (Z.to_nat k) labels, take (Z.to_nat k) distances)
    end
|}.

(** The neighbours of the vector [[1; 0]], which is the description of
    game 1 and the mean of its reviews, by inner-product distance. *)
Definition description_index : Index :=
  table_index [1; 5; 3; 2] [0; 0.25; 0.5; 0.75]%float.

Definition review_index : Index :=
  table_index [1; 5; 2] [0; 0.25; 0.5]%float.

(** An index that answers alike below [k = 2] and not beyond. *)
Definition description_index' : Index := {|
  knn_query q k :=
    if k <=? 2 then knn_query description_index q k
    else Raise RuntimeError
|}.

Definition query : ndarray := array1 [1; 0]%float.

(** A store whose only description is a vector of zeros. *)
Definition conn_zero : Conn := {|
  get_name_for_appid a := "Zero";
  get_description_embeddings_for_appid a := [[0; 0]]%float;
  get_review_embeddings_for_appid a := [];
  get_appids_with_review_embeds := [];
  get_paginated_embeddings_for_descriptions := [[(9, [[0; 0]]%float)]]
|}.

(** Four offers to a collector. *)
Definition offers : list Match :=
  [mkMatch 1 "Alpha" "description" 0.5; mkMatch 2 "Beta" "description" 0.75;
   mkMatch 5 "Epsilon" "review" 0.75; mkMatch 3 "Gamma" "description" 0.25].

(** Three offers, the second with a score that is NaN. *)
Definition nan_offers : list Match :=
  [mkMatch 1 "Alpha" "description" 1; mkMatch 2 "Beta" "description" PrimFloat.nan;
   mkMatch 3 "Gamma" "description" 0].

(** A store of three descriptions, the second a vector of zeros. *)
Definition conn_nan : Conn := {|
  get_name_for_appid a :=
    if a =? 1 then "Alpha" else if a =? 2 then "Beta" else "Gamma";
  get_description_embeddings_for_appid a := [];
  get_review_embeddings_for_appid a := [];
  get_appids_with_review_embeds := [];
  get_paginated_embeddings_for_descriptions :=
    [[(1, [[1; 0]]%float); (2, [[0; 0]]%float); (3, [[0; 1]]%float)]]
|}.

(** A store with a game that has a description of no passage. *)
Definition conn_empty : Conn := {|
  get_name_for_appid a := "Game";
  get_description_embeddings_for_appid a := [];
  get_review_embeddings_for_appid a := [];
  get_appids_with_review_embeds := [];
  get_paginated_embeddings_for_descriptions :=
    [[(1, [[1; 0]]%float); (7, [])]; [(2, [[0; 1]]%float)]]
|}.

(** Values of [random.random()]: 1/2, 1/3, 1/4, ... *)
Definition random (n : nat) : float := (1 / F64.of_nat (n + 2))%float.

(** [int] on the decimal literals, signed or not, among the texts it
    converts; any other text is refused here. *)
Definition digit_of (c : Ascii.ascii) : option Z :=
  let n := Z.of_nat (Ascii.nat_of_ascii c) in
  if (48 <=? n) && (n <=? 57) then Some (n - 48) else None.

Fixpoint digits_from (acc : Z) (s : string) : result Z :=
  match s with
  | EmptyString => Ok acc
  | String c s' =>
      match digit_of c with
      | Some d => digits_from (10 * acc + d) s'
      | None => Raise ValueError
      end
  end.

Definition py_int (s : string) : result Z :=
  match s with
  | EmptyString => Raise ValueError
  | String c s' =>
      if Ascii.eqb c (Ascii.ascii_of_nat 45) then
        match s' with
        | EmptyString => Raise ValueError
        | _ => n ← digits_from 0 s'; Ok (- n)
        end
      else digits_from 0 s
  end.

End Catalogue.

(** What identifies a match in a result list: the game and the match type. *)
Definition match_key (m : Match) : Z * string := (appid m, match_type m).

(** * The exhaustive rankers, candidate by candidate *)

(** What the body of the description loop of [search] makes of one item
    of a page, and the body of its review loop of one game, before the
    match is offered to the collector. *)
Definition score_description (conn : Conn) (query_embed : ndarray)
    (candidate : Z * list (list float)) : result Match :=
  let '(appid, embeddings) := candidate in
  score ← compare_all_embeddings_take_max embeddings query_embed;
  let name := get_name_for_appid conn appid in
  score ← py_float score;
  Ok {| appid := appid; name := name; match_type := "description"; score := score |}.

Definition score_review (conn : Conn) (query_embed : ndarray) (appid : Z)
    : result Match :=
  let all_review_embeddings := get_review_embeddings_for_appid conn appid in
  let flat_embeddings := concat (map snd all_review_embeddings) in
  average_embedding ← mean_pooling flat_embeddings;
  score ← cosine_similarity average_embedding query_embed;
  let name := get_name_for_appid conn appid in
  score ← py_float score;
  Ok {| appid := appid; name := name; match_type := "review"; score := score |}.

(** The candidates of a text query, scored, in the order [search] visits
    them: the descriptions page after page, then the reviewed games. *)
Definition scored_candidates (conn : Conn) (query_embed : ndarray)
    (query_for_type : string) : result (list Match) :=
  ds ← (if requested query_for_type "description"
        then mapM (score_description conn query_embed)
                  (concat (get_paginated_embeddings_for_descriptions conn))
        else Ok []);
  rs ← (if requested query_for_type "review"
        then mapM (score_review conn query_embed) (get_appids_with_review_embeds conn)
        else Ok []);
  Ok (ds ++ rs).

(** The same for the games similar to [query_appid], which is passed
    over; the query vectors are the means of its own embeddings. *)
Definition scored_similar_candidates (conn : Conn) (query_appid : Z)
    (query_for_type : string) : result (list Match) :=
  ds ← (if requested query_for_type "description"
        then query_embed ← mean_pooling (get_description_embeddings_for_appid conn query_appid);
             mapM (score_description conn query_embed)
                  (List.filter (fun c : Z * list (list float) => negb (c.1 =? query_appid))
                     (concat (get_paginated_embeddings_for_descriptions conn)))
        else Ok []);
  rs ← (if requested query_for_type "review"
        then query_embed ← mean_pooling
               (concat (map snd (get_review_embeddings_for_appid conn query_appid)));
             mapM (score_review conn query_embed)
                  (List.filter (fun a => negb (a =? query_appid))
                     (get_appids_with_review_embeds conn))
        else Ok []);
  Ok (ds ++ rs).

(** A match of [kind] built from a neighbour that the index [ix] returned
    for the query [q] and the count [k]. *)
Definition from_index (ix : Index) (conn : Conn) (q : ndarray) (k : Z)
    (kind : string) (m : Match) : Prop :=
  exists ls ds a d,
    knn_query ix q k = Ok (ls, ds) /\ (a, d) ∈ zip ls ds /\
    m = {| appid := a; name := get_name_for_appid conn a;
           match_type := kind; score := (1 - d)%float |}.

(** A match that is the score of a stored candidate. *)
Definition from_store (conn : Conn) (qd qr : ndarray) (query_for_type : string)
    (m : Match) : Prop :=
  (requested query_for_type "description" = true /\
   exists c, c ∈ concat (get_paginated_embeddings_for_descriptions conn) /\
             score_description conn qd c = Ok m) \/
  (requested query_for_type "review" = true /\
   exists a, a ∈ get_appids_with_review_embeds conn /\
             score_review conn qr a = Ok m).

(** The scored candidates of the catalogue for the query [[1; 0]], and
    those of the games similar to game 1. *)
Definition catalogue_scored : list Match :=
  Eval vm_compute in
    match scored_candidates Catalogue.conn Catalogue.query "all" with
    | Ok items => items
    | Raise _ => []
    end.

Definition catalogue_scored_similar : list Match :=
  Eval vm_compute in
    match scored_similar_candidates Catalogue.conn 1 "all" with
    | Ok items => items
    | Raise _ => []
    end.

(** The index answers the query for the games similar to a game in full:
    the embeddings have a mean, and the index returns one neighbour more
    than asked of the ranker, each label once. *)
Definition answers_in_full (ix : Index) (embeddings : list (list float))
    (max_results : Z) : Prop :=
  exists q ls ds,
    mean_pooling embeddings = Ok q /\
    knn_query ix q (max_results + 1) = Ok (ls, ds) /\
    NoDup ls /\
    length ls = Z.to_nat (max_results + 1) /\
    length ds = Z.to_nat (max_results + 1).

(** The cosine of two vectors of one length, as [cosine_similarity]
    computes it. *)
Definition cosine1 (u v : list float) : float :=
  (dot1 u v / (PrimFloat.sqrt (dot1 u u) * PrimFloat.sqrt (dot1 v v)))%float.

(** The greater of two numbers as the builtin [max] picks it: the later
    one only when it is greater. *)
Definition pick_max (cur x : float) : float :=
  if PrimFloat.ltb cur x then x else cur.

(** * The routes

    [request.args] is a finite map from parameter names to their texts.
    A route answers with a Flask response or lets an exception escape.
    The instructor model is a collaborator: its tokenizer, its length
    limit and its embedding are parameters, which may depend on the
    model's one attribute that the routes assign, [embedding_instruction];
    [get_query_results] returns the value of that attribute after the
    request beside its outcome.  [int] and [json.dumps] are parameters
    too. *)

Record response : Type := mkResponse {
  body : string;
  status : Z;
  mimetype : string;
  access_control_allow_origin : option string
}.

Record Instructor : Type := mkInstructor {
  tokenize : string -> option string -> result (list Z);
  get_max_query_chunk_length : string -> Z;
  generate_embedding_for_query : string -> option string -> result ndarray
}.

Definition known_types : list string := ["all"; "description"; "review"].

Definition default_instruction : string :=
  "Represent a video game that has a description of:".

Section Handlers.

Variable py_int : string -> result Z.
Variable json_dumps : list Match -> string.
Variable instructor_model : Instructor.
Variables description_index review_index : Index.

(** [return text, 400] *)
Definition bad_request (text : string) : response :=
  {| body := text; status := 400; mimetype := "text/html";
     access_control_allow_origin := None |}.

(** The JSON response of both routes, with its CORS header. *)
Definition json_response (results : list Match) : response :=
  {| body := json_dumps results; status := 200; mimetype := "application/json";
     access_control_allow_origin := Some "*" |}.

Definition get_query_results (args : gmap string string) (conn : Conn)
    (embedding_instruction : string) : string * result response :=
  let query := args !! "query" in
  let type := args !! "type" in
  let type := match type with None => "all" | Some t => t end in
  if negb (existsb (String.eqb type) known_types) then
    (embedding_instruction,
     Ok (bad_request ("Invalid type, must be one of: " ++ String.concat ", " known_types)))
  else
    let instruction := args !! "instruction" in
    let instruction :=
      match instruction with None => default_instruction | Some i => i end in
    match num_results_of py_int (args !! "num_results") with
    | Raise e => (embedding_instruction, Raise e)
    | Ok num_results =>
        match tokenize instructor_model embedding_instruction query with
        | Raise e => (embedding_instruction, Raise e)
        | Ok query_tokenized =>
            let embedding_instruction := instruction in
            if get_max_query_chunk_length instructor_model embedding_instruction
               <? Z.of_nat (length query_tokenized)
            then (embedding_instruction,
                  Ok (bad_request "Query too long, shorten query or instruction"))
            else
              match generate_embedding_for_query instructor_model
                      embedding_instruction query with
              | Raise e => (embedding_instruction, Raise e)
              | Ok query_embed =>
                  match index_search description_index review_index conn
                          query_embed type num_results with
                  | Raise e => (embedding_instruction, Raise e)
                  | Ok results => (embedding_instruction, Ok (json_response results))
                  end
              end
        end
    end.

Definition get_similar_games (args : gmap string string) (conn : Conn)
    : result response :=
  appid ← match args !! "query" with
          | None => Raise TypeError
          | Some q => py_int q
          end;
  num_results ← num_results_of py_int (args !! "num_results");
  results ← index_search_similar description_index review_index conn
              appid "all" num_results;
  Ok (json_response results).

(** [get_results]: the [try] covers the conversion of the query and the
    whole of [get_similar_games]; a [ValueError] of either sends the
    request to [get_query_results]. *)
Definition get_results (args : gmap string string) (conn : Conn)
    (embedding_instruction : string) : string * result response :=
  match args !! "query" with
  | None => (embedding_instruction, Ok (bad_request "No query specified"))
  | Some query =>
      match py_int query with
      | Raise ValueError => get_query_results args conn embedding_instruction
      | Raise e => (embedding_instruction, Raise e)
      | Ok _ =>
          match get_similar_games args conn with
          | Raise ValueError => get_query_results args conn embedding_instruction
          | outcome => (embedding_instruction, outcome)
          end
      end
  end.

End Handlers.

(** An instructor model for the catalogue: a token per character, 16
    tokens at most, and the embedding [[1; 0]] for every text. *)
Definition catalogue_instructor : Instructor := {|
  tokenize instruction query :=
    match query with
    | None => Raise TypeError
    | Some q => Ok (replicate (String.length q) 0)
    end;
  get_max_query_chunk_length instruction := 16;
  generate_embedding_for_query instruction query := Ok Catalogue.query
|}.

(** [json.dumps] stood for by the names of the games it lists. *)
Definition catalogue_json (results : list Match) : string :=
  String.concat "," (map name results).

(** The parameters of a request for the games similar to game 1, of a
    text request, and of a request with a type that does not exist. *)
Definition similar_args : gmap string string :=
  <["query" := "1"]> (<["num_results" := "2"]> ∅).

Definition text_args : gmap string string :=
  <["query" := "space"]> (<["type" := "review"]> (<["num_results" := "250"]> ∅)).

Definition bad_type_args : gmap string string :=
  <["query" := "space"]> (<["type" := "reviews"]> (<["num_results" := "many"]> ∅)).

Definition bad_count_args : gmap string string :=
  <["query" := "1"]> (<["num_results" := "many"]> ∅).

(** * Facts *)

(** ** The order of binary64 numbers *)

Module F64Facts.
Import F64.

Lemma SFcompare_antisym x y :
  SFcompare x y = option_map CompOpp (SFcompare y x).
Proof.
  destruct x as [[]|[]| |[] m1 e1], y as [[]|[]| |[] m2 e2]; simpl; try reflexivity;
    rewrite (Z.compare_antisym e1 e2); destruct (e1 ?= e2)%Z; simpl; try reflexivity;
    rewrite !Pos.compare_cont_spec, (Pos.compare_antisym m1 m2); simpl;
    destruct (m1 ?= m2)%positive; reflexivity.
Qed.

Lemma SFcompare_refl x : x <> S754_nan -> SFcompare x x = Some Eq.
Proof.
  destruct x as [[]|[]| |[] m e]; simpl; intros H; try reflexivity; try congruence;
    rewrite Z.compare_refl, Pos.compare_cont_spec, Pos.compare_refl; reflexivity.
Qed.

Lemma SFcompare_nan_l y : SFcompare S754_nan y = None.
Proof. reflexivity. Qed.

Lemma SFcompare_nan_r x : SFcompare x S754_nan = None.
Proof. destruct x as [[]|[]| |[] m e]; reflexivity. Qed.

Lemma SFcompare_some x y :
  x <> S754_nan -> y <> S754_nan -> exists c, SFcompare x y = Some c.
Proof.
  destruct x as [[]|[]| |[] m1 e1], y as [[]|[]| |[] m2 e2]; simpl; intros; try congruence; eauto.
Qed.

Lemma SFleb_trans x y z :
  SFleb x y = true -> SFleb y z = true -> SFleb x z = true.
Proof.
  unfold SFleb.
  destruct x as [[]|[]| |[] m1 e1], y as [[]|[]| |[] m2 e2], z as [[]|[]| |[] m3 e3];
    simpl; try reflexivity; try discriminate;
    rewrite ?Pos.compare_cont_spec; simpl;
    destruct (Z.compare_spec e1 e2), (Z.compare_spec e2 e3), (Z.compare_spec e1 e3);
    try reflexivity; try discriminate; try lia; subst;
    destruct (Pos.compare_spec m1 m2), (Pos.compare_spec m2 m3), (Pos.compare_spec m1 m3);
    simpl; try reflexivity; try discriminate; try lia.
Qed.

Lemma notnan_spec x : notnan x <-> Prim2SF x <> S754_nan.
Proof.
  unfold notnan, PrimFloat.is_nan. rewrite FloatAxioms.eqb_spec. unfold SFeqb. split.
  - intros H E. rewrite E in H. discriminate.
  - intros H. rewrite SFcompare_refl by assumption. reflexivity.
Qed.

Lemma leb_refl x : notnan x -> PrimFloat.leb x x = true.
Proof.
  intros H%notnan_spec. rewrite FloatAxioms.leb_spec. unfold SFleb.
  rewrite SFcompare_refl by assumption. reflexivity.
Qed.

Lemma leb_trans x y z :
  PrimFloat.leb x y = true -> PrimFloat.leb y z = true -> PrimFloat.leb x z = true.
Proof. rewrite !FloatAxioms.leb_spec. apply SFleb_trans. Qed.

Lemma ltb_negb_leb x y :
  notnan x -> notnan y -> PrimFloat.ltb x y = negb (PrimFloat.leb y x).
Proof.
  intros Hx%notnan_spec Hy%notnan_spec. rewrite FloatAxioms.ltb_spec, FloatAxioms.leb_spec.
  unfold SFltb, SFleb. rewrite (SFcompare_antisym (Prim2SF y) (Prim2SF x)).
  destruct (SFcompare_some _ _ Hx Hy) as [c ->]. destruct c; reflexivity.
Qed.

Lemma leb_total x y :
  notnan x -> notnan y -> PrimFloat.leb x y = true \/ PrimFloat.leb y x = true.
Proof.
  intros Hx%notnan_spec Hy%notnan_spec. rewrite !FloatAxioms.leb_spec.
  unfold SFleb. rewrite (SFcompare_antisym (Prim2SF y) (Prim2SF x)).
  destruct (SFcompare_some _ _ Hx Hy) as [c ->]. destruct c; simpl; auto.
Qed.

Lemma eqb_leb x y :
  PrimFloat.eqb x y = PrimFloat.leb x y && PrimFloat.leb y x.
Proof.
  rewrite FloatAxioms.eqb_spec, !FloatAxioms.leb_spec. unfold SFeqb, SFleb.
  rewrite (SFcompare_antisym (Prim2SF y) (Prim2SF x)).
  destruct (SFcompare (Prim2SF x) (Prim2SF y)) as [[]|]; reflexivity.
Qed.

Lemma ltb_leb x y : PrimFloat.ltb x y = true -> PrimFloat.leb x y = true.
Proof.
  rewrite FloatAxioms.ltb_spec, FloatAxioms.leb_spec. unfold SFltb, SFleb.
  destruct (SFcompare (Prim2SF x) (Prim2SF y)) as [[]|]; congruence.
Qed.

Lemma ltb_notnan_l x y : PrimFloat.ltb x y = true -> notnan x.
Proof.
  rewrite FloatAxioms.ltb_spec. unfold SFltb. intros H. apply notnan_spec. intros E.
  rewrite E in H. discriminate.
Qed.

Lemma leb_notnan x y : PrimFloat.leb x y = true -> notnan x /\ notnan y.
Proof.
  rewrite FloatAxioms.leb_spec. unfold SFleb. intros H. split; apply notnan_spec; intros E;
    rewrite E in H; [|rewrite SFcompare_nan_r in H]; discriminate.
Qed.

End F64Facts.

(** ** The sort by descending key *)

Section SortFacts.

Context {A : Type} (key : A -> float).

Lemma insert_desc_perm x l : insert_desc key x l ≡ₚ x :: l.
Proof.
  induction l as [|y l IH]; simpl; [done|].
  destruct (PrimFloat.ltb (key x) (key y)); [|done].
  rewrite IH. apply Permutation_swap.
Qed.

Lemma sorted_desc_perm l : sorted_desc key l ≡ₚ l.
Proof.
  induction l as [|x l IH]; simpl; [done|].
  rewrite insert_desc_perm. by f_equiv.
Qed.

Lemma sorted_desc_length l : length (sorted_desc key l) = length l.
Proof. by rewrite sorted_desc_perm. Qed.

Lemma insert_desc_sorted x l :
  F64.notnan (key x) -> Forall (fun a => F64.notnan (key a)) l ->
  desc_sorted key l -> desc_sorted key (insert_desc key x l).
Proof.
  intros Hx Hl Hs. induction Hs as [|y l Hs IH Hy]; simpl.
  - repeat constructor.
  - inversion_clear Hl as [|? ? Hny Hl'].
    destruct (PrimFloat.ltb (key x) (key y)) eqn:E.
    + constructor; [by apply IH|].
      rewrite insert_desc_perm. constructor; [|done].
      by apply F64Facts.ltb_leb.
    + rewrite F64Facts.ltb_negb_leb in E by done.
      apply negb_false_iff in E.
      constructor; [by constructor|].
      constructor; [done|].
      eapply Forall_impl; [exact Hy|]. intros z Hz. unfold key_ge in *.
      by eapply F64Facts.leb_trans.
Qed.

Lemma sorted_desc_sorted l :
  Forall (fun a => F64.notnan (key a)) l -> desc_sorted key (sorted_desc key l).
Proof.
  induction 1 as [|x l Hx Hl IH]; simpl; [constructor|].
  apply insert_desc_sorted; [done| |done].
  by rewrite sorted_desc_perm.
Qed.

Lemma insert_desc_stable k x l :
  List.filter (same_key key k) (insert_desc key x l) = List.filter (same_key key k) (x :: l).
Proof.
  induction l as [|y l IH]; [done|].
  cbn [insert_desc]. destruct (PrimFloat.ltb (key x) (key y)) eqn:E; [|done].
  cbn [List.filter] in *. rewrite IH.
  destruct (same_key key k x) eqn:Ex; [|done].
  destruct (same_key key k y) eqn:Ey; [|done].
  exfalso. unfold same_key in *.
  rewrite F64Facts.eqb_leb in Ex, Ey.
  apply andb_true_iff in Ex as [Hxk Hkx], Ey as [Hyk Hky].
  pose proof (F64Facts.leb_trans _ _ _ Hyk Hkx) as Hyx.
  destruct (F64Facts.leb_notnan _ _ Hyx) as [Hy Hx].
  rewrite F64Facts.ltb_negb_leb, Hyx in E by done. discriminate.
Qed.

Lemma sorted_desc_stable k l :
  List.filter (same_key key k) (sorted_desc key l) = List.filter (same_key key k) l.
Proof.
  induction l as [|x l IH]; [done|].
  cbn [sorted_desc foldr]. rewrite insert_desc_stable.
  cbn [List.filter]. fold (sorted_desc key l). by rewrite IH.
Qed.

Lemma desc_sorted_take n l : desc_sorted key l -> desc_sorted key (take n l).
Proof.
  intros H. rewrite <- (take_drop n l) in H.
  by apply StronglySorted_app_1_l in H.
Qed.

End SortFacts.

(** ** Slices *)

Lemma slice_to_take {A} (l : list A) n : exists k, slice_to l n = take k l.
Proof. unfold slice_to. destruct (0 <=? n); eauto. Qed.

Lemma slice_to_nonneg {A} (l : list A) n : 0 <= n -> slice_to l n = take (Z.to_nat n) l.
Proof. intros H. unfold slice_to. by rewrite (proj2 (Z.leb_le 0 n)). Qed.

Lemma slice_to_length {A} (l : list A) n : 0 <= n -> Z.of_nat (length (slice_to l n)) <= n.
Proof. intros H. rewrite slice_to_nonneg, length_take by done. lia. Qed.

Lemma slice_to_subseteq {A} (l : list A) n : slice_to l n ⊆ l.
Proof.
  destruct (slice_to_take l n) as [k ->]. intros x Hx.
  rewrite <- (take_drop k l). apply elem_of_app. by left.
Qed.

Lemma sorted_desc_stable_sort {A} (key : A -> float) l :
  Forall (fun a => F64.notnan (key a)) l ->
  stable_sort_desc_of key l (sorted_desc key l).
Proof.
  intros H. split; [apply sorted_desc_perm|].
  split; [by apply sorted_desc_sorted|]. intros k. apply sorted_desc_stable.
Qed.

(** ** The index rankers *)

Section IndexFacts.

Variables description_index review_index : Index.
Variable conn : Conn.

Lemma index_search_unfold query query_for_type max_results :
  index_search description_index review_index conn query query_for_type max_results =
  (pd ← ranked_by_text description_index conn query "description" query_for_type max_results;
   pr ← ranked_by_text review_index conn query "review" query_for_type max_results;
   Ok (slice_to (sorted_desc score (pd ++ pr)) max_results)).
Proof.
  unfold index_search, ranked_by_text, requested, text_matches.
  destruct (String.eqb query_for_type "all" || String.eqb query_for_type "description"),
    (String.eqb query_for_type "all" || String.eqb query_for_type "review"); simpl;
    repeat (match goal with
            | |- context [knn_query ?i ?q ?n] =>
                destruct (knn_query i q n) as [[? ?]|?]; simpl
            end);
    rewrite ?app_nil_r; done.
Qed.

Lemma index_search_similar_unfold query_appid query_for_type max_results :
  index_search_similar description_index review_index conn query_appid
    query_for_type max_results =
  (pd ← ranked_by_entity description_index conn
          (get_description_embeddings_for_appid conn query_appid)
          query_appid "description" query_for_type max_results;
   pr ← ranked_by_entity review_index conn
          (concat (map snd (get_review_embeddings_for_appid conn query_appid)))
          query_appid "review" query_for_type max_results;
   Ok (slice_to (sorted_desc score (pd ++ pr)) max_results)).
Proof.
  unfold index_search_similar, ranked_by_entity, requested.
  destruct (String.eqb query_for_type "all" || String.eqb query_for_type "description"),
    (String.eqb query_for_type "all" || String.eqb query_for_type "review"); simpl;
    repeat (match goal with
            | |- context [mean_pooling ?l] =>
                destruct (mean_pooling l) as [?|?]; simpl
            | |- context [knn_query ?i ?q ?n] =>
                destruct (knn_query i q n) as [[? ?]|?]; simpl
            end);
    rewrite ?app_nil_r; done.
Qed.

End IndexFacts.

Lemma text_matches_scores conn kind ls ds :
  Forall (fun d => F64.notnan (1 - d)%float) ds ->
  Forall (fun m => F64.notnan (score m)) (text_matches conn kind ls ds).
Proof.
  intros H. unfold text_matches. revert ls.
  induction H as [|d ds Hd Hds IH]; intros [|a ls]; simpl; try constructor; eauto.
Qed.

Lemma similar_matches_scores conn x kind ls ds :
  Forall (fun d => F64.notnan (1 - d)%float) ds ->
  Forall (fun m => F64.notnan (score m)) (similar_matches conn x kind ls ds).
Proof.
  intros H. unfold similar_matches. revert ls.
  induction H as [|d ds Hd Hds IH]; intros [|a ls]; simpl; try constructor.
  destruct (a =? x); simpl; [apply IH|]. constructor; [done|apply IH].
Qed.

Lemma ranked_by_text_scores ix conn q kind qt n l :
  index_scores_ok ix -> ranked_by_text ix conn q kind qt n = Ok l ->
  Forall (fun m => F64.notnan (score m)) l.
Proof.
  intros Hix. unfold ranked_by_text. destruct (requested qt kind).
  - destruct (knn_query ix q n) as [[ls ds]|e] eqn:E; simpl; [|done].
    intros [= <-]. eapply text_matches_scores, Hix, E.
  - intros [= <-]. constructor.
Qed.

Lemma ranked_by_entity_scores ix conn emb x kind qt n l :
  index_scores_ok ix -> ranked_by_entity ix conn emb x kind qt n = Ok l ->
  Forall (fun m => F64.notnan (score m)) l.
Proof.
  intros Hix. unfold ranked_by_entity. destruct (requested qt kind).
  - destruct (mean_pooling emb) as [q|e]; simpl; [|done].
    destruct (knn_query ix q (n + 1)) as [[ls ds]|e] eqn:E; simpl; [|done].
    intros [= <-]. eapply similar_matches_scores, Hix, E.
  - intros [= <-]. constructor.
Qed.

Lemma merged_sorted_truncated (pd pr : list Match) n :
  0 <= n ->
  Forall (fun m => F64.notnan (score m)) pd ->
  Forall (fun m => F64.notnan (score m)) pr ->
  exists sorted,
    stable_sort_desc_of score (pd ++ pr) sorted /\
    slice_to (sorted_desc score (pd ++ pr)) n = take (Z.to_nat n) sorted /\
    Z.of_nat (length (slice_to (sorted_desc score (pd ++ pr)) n)) <= n /\
    desc_sorted score (slice_to (sorted_desc score (pd ++ pr)) n).
Proof.
  intros Hn Hd Hr.
  assert (Hall : Forall (fun m => F64.notnan (score m)) (pd ++ pr))
    by (by apply Forall_app).
  exists (sorted_desc score (pd ++ pr)).
  split; [by apply sorted_desc_stable_sort|].
  split; [by apply slice_to_nonneg|].
  split; [by apply slice_to_length|].
  rewrite slice_to_nonneg by done. apply desc_sorted_take.
  by apply sorted_desc_sorted.
Qed.

(** C4: on the index path the result sequences of the requested types are
    merged, sorted by descending score with a stable sort, and cut to
    [max_results] items; the list returned has at most [max_results] items
    and its scores never increase.  Stated for a count [max_results >= 0]
    and indexes whose scores are numbers. *)
Theorem index_path_merge_sort_truncate
    (description_index review_index : Index) (conn : Conn)
    (query_for_type : string) (max_results : Z) :
  0 <= max_results ->
  index_scores_ok description_index -> index_scores_ok review_index ->
  (forall query res,
     index_search description_index review_index conn query
       query_for_type max_results = Ok res ->
     exists pd pr sorted,
       ranked_by_text description_index conn query "description"
         query_for_type max_results = Ok pd /\
       ranked_by_text review_index conn query "review"
         query_for_type max_results = Ok pr /\
       stable_sort_desc_of score (pd ++ pr) sorted /\
       res = take (Z.to_nat max_results) sorted /\
       Z.of_nat (length res) <= max_results /\
       desc_sorted score res) /\
  (forall query_appid res,
     index_search_similar description_index review_index conn query_appid
       query_for_type max_results = Ok res ->
     exists pd pr sorted,
       ranked_by_entity description_index conn
         (get_description_embeddings_for_appid conn query_appid)
         query_appid "description" query_for_type max_results = Ok pd /\
       ranked_by_entity review_index conn
         (concat (map snd (get_review_embeddings_for_appid conn query_appid)))
         query_appid "review" query_for_type max_results = Ok pr /\
       stable_sort_desc_of score (pd ++ pr) sorted /\
       res = take (Z.to_nat max_results) sorted /\
       Z.of_nat (length res) <= max_results /\
       desc_sorted score res).
Proof.
  intros Hn Hd Hr. split.
  - intros query res. rewrite index_search_unfold.
    destruct (ranked_by_text description_index _ _ _ _ _) as [pd|e] eqn:Ed; simpl; [|done].
    destruct (ranked_by_text review_index _ _ _ _ _) as [pr|e] eqn:Er; simpl; [|done].
    intros [= <-].
    destruct (merged_sorted_truncated pd pr max_results Hn) as (s & Hs & Ht & Hl & Hsd);
      [eapply ranked_by_text_scores; [exact Hd|exact Ed]
      |eapply ranked_by_text_scores; [exact Hr|exact Er]|].
    exists pd, pr, s. eauto 10.
  - intros x res. rewrite index_search_similar_unfold.
    destruct (ranked_by_entity description_index _ _ _ _ _ _) as [pd|e] eqn:Ed; simpl; [|done].
    destruct (ranked_by_entity review_index _ _ _ _ _ _) as [pr|e] eqn:Er; simpl; [|done].
    intros [= <-].
    destruct (merged_sorted_truncated pd pr max_results Hn) as (s & Hs & Ht & Hl & Hsd);
      [eapply ranked_by_entity_scores; [exact Hd|exact Ed]
      |eapply ranked_by_entity_scores; [exact Hr|exact Er]|].
    exists pd, pr, s. eauto 10.
Qed.

(** ** The catalogue's indexes keep the contract *)

Lemma table_index_scores_ok labels distances :
  Forall (fun d => F64.notnan (1 - d)%float) distances ->
  index_scores_ok (Catalogue.table_index labels distances).
Proof.
  intros H q k ls ds. simpl. destruct q; [done|].
  destruct (k <? 0); [done|]. destruct (_ <? k); [done|].
  intros [= <- <-]. by apply Forall_take.
Qed.

Lemma table_index_labels_distinct labels distances :
  NoDup labels -> index_labels_distinct (Catalogue.table_index labels distances).
Proof.
  intros H q k ls ds. simpl. destruct q; [done|].
  destruct (k <? 0); [done|]. destruct (_ <? k); [done|].
  intros [= <- <-]. rewrite <- (take_drop (Z.to_nat k) labels) in H.
  by apply NoDup_app in H as [H _].
Qed.

Lemma catalogue_description_scores_ok : index_scores_ok Catalogue.description_index.
Proof. apply table_index_scores_ok. repeat constructor. Qed.

Lemma catalogue_review_scores_ok : index_scores_ok Catalogue.review_index.
Proof. apply table_index_scores_ok. repeat constructor. Qed.

Lemma index_path_merge_sort_truncate_witness :
  0 <= 2 /\
  index_scores_ok Catalogue.description_index /\
  index_scores_ok Catalogue.review_index /\
  Z.of_nat (length [mkMatch 1 "Alpha" "description" 1; mkMatch 1 "Alpha" "review" 1]) <= 2 /\
  desc_sorted score [mkMatch 1 "Alpha" "description" 1; mkMatch 1 "Alpha" "review" 1].
Proof.
  split; [lia|].
  split; [apply catalogue_description_scores_ok|].
  split; [apply catalogue_review_scores_ok|].
  destruct (index_path_merge_sort_truncate Catalogue.description_index
              Catalogue.review_index Catalogue.conn "all" 2) as [H _];
    [lia|apply catalogue_description_scores_ok|apply catalogue_review_scores_ok|].
  destruct (H Catalogue.query _ eq_refl) as (pd & pr & s & _ & _ & _ & _ & Hlen & Hsorted).
  split; assumption.
Defined.

(** ** No match is listed twice *)

Lemma NoDup_take {A} (l : list A) k : NoDup l -> NoDup (take k l).
Proof.
  intros H. rewrite <- (take_drop k l) in H. by apply NoDup_app in H as [H _].
Qed.

Lemma NoDup_List_filter {A} (f : A -> bool) (l : list A) :
  NoDup l -> NoDup (List.filter f l).
Proof.
  induction 1 as [|a l Ha Hl IH]; simpl; [constructor|].
  destruct (f a); [|done]. constructor; [|done].
  intros Hin. apply Ha. apply list_elem_of_In in Hin.
  apply filter_In in Hin as [Hin _]. by apply list_elem_of_In.
Qed.

Lemma NoDup_tagged (kind : string) (l : list Z) :
  NoDup l -> NoDup (map (fun a => (a, kind)) l).
Proof.
  induction 1 as [|a l Ha Hl IH]; simpl; constructor; [|done].
  intros Hin. apply list_elem_of_In, in_map_iff in Hin as (b & [= ->] & Hb).
  by apply Ha, list_elem_of_In.
Qed.

Lemma text_matches_keys conn kind ls ds :
  map match_key (text_matches conn kind ls ds) =
  map (fun a => (a, kind)) (take (length ds) ls).
Proof.
  unfold text_matches. revert ds.
  induction ls as [|a ls IH]; intros [|d ds]; simpl; try done.
  by rewrite IH.
Qed.

Lemma similar_matches_keys conn x kind ls ds :
  map match_key (similar_matches conn x kind ls ds) =
  map (fun a => (a, kind))
      (List.filter (fun a => negb (a =? x)) (take (length ds) ls)).
Proof.
  unfold similar_matches. revert ds.
  induction ls as [|a ls IH]; intros [|d ds]; simpl; try done.
  destruct (a =? x); simpl; by rewrite IH.
Qed.

Lemma ranked_by_text_keys ix conn q kind qt n l :
  index_labels_distinct ix -> ranked_by_text ix conn q kind qt n = Ok l ->
  exists ls, NoDup ls /\ map match_key l = map (fun a => (a, kind)) ls.
Proof.
  intros Hix. unfold ranked_by_text. destruct (requested qt kind).
  - destruct (knn_query ix q n) as [[ls ds]|e] eqn:E; simpl; [|done].
    intros [= <-]. exists (take (length ds) ls).
    split; [eapply NoDup_take, Hix, E|apply text_matches_keys].
  - intros [= <-]. exists []. split; [constructor|done].
Qed.

Lemma ranked_by_entity_keys ix conn emb x kind qt n l :
  index_labels_distinct ix -> ranked_by_entity ix conn emb x kind qt n = Ok l ->
  exists ls, NoDup ls /\ map match_key l = map (fun a => (a, kind)) ls.
Proof.
  intros Hix. unfold ranked_by_entity. destruct (requested qt kind).
  - destruct (mean_pooling emb) as [q|e]; simpl; [|done].
    destruct (knn_query ix q (n + 1)) as [[ls ds]|e] eqn:E; simpl; [|done].
    intros [= <-]. eexists. split; [|apply similar_matches_keys].
    apply NoDup_List_filter. eapply NoDup_take, Hix, E.
  - intros [= <-]. exists []. split; [constructor|done].
Qed.

Lemma merged_keys_distinct (pd pr : list Match) ld lr n :
  NoDup ld -> NoDup lr ->
  map match_key pd = map (fun a => (a, "description")) ld ->
  map match_key pr = map (fun a => (a, "review")) lr ->
  NoDup (map match_key (slice_to (sorted_desc score (pd ++ pr)) n)).
Proof.
  intros Hd Hr Ed Er.
  destruct (slice_to_take (sorted_desc score (pd ++ pr)) n) as [k ->].
  rewrite <- firstn_map. apply NoDup_take.
  rewrite (Permutation_map match_key (sorted_desc_perm score (pd ++ pr))).
  rewrite map_app, Ed, Er. apply NoDup_app. split; [by apply NoDup_tagged|].
  split; [|by apply NoDup_tagged].
  intros [a k1] H1 H2.
  apply list_elem_of_In, in_map_iff in H1 as (b & [= -> <-] & _).
  apply list_elem_of_In, in_map_iff in H2 as (c & [=] & _).
Qed.

(** C1, as the code has it: a result list of the index path holds each
    pair of a game and a match type at most once, whatever the requested
    type, when an index returns a label once.  The game itself is listed
    once per match type that found it. *)
Theorem index_results_distinct_per_type
    (description_index review_index : Index) (conn : Conn) :
  index_labels_distinct description_index ->
  index_labels_distinct review_index ->
  (forall query query_for_type max_results res,
     index_search description_index review_index conn query
       query_for_type max_results = Ok res ->
     NoDup (map match_key res)) /\
  (forall query_appid query_for_type max_results res,
     index_search_similar description_index review_index conn query_appid
       query_for_type max_results = Ok res ->
     NoDup (map match_key res)).
Proof.
  intros Hd Hr. split.
  - intros q qt n res. rewrite index_search_unfold.
    destruct (ranked_by_text description_index _ _ _ _ _) as [pd|e] eqn:Ed; simpl; [|done].
    destruct (ranked_by_text review_index _ _ _ _ _) as [pr|e] eqn:Er; simpl; [|done].
    intros [= <-].
    destruct (ranked_by_text_keys _ _ _ _ _ _ _ Hd Ed) as (ld & Hld & Hkd).
    destruct (ranked_by_text_keys _ _ _ _ _ _ _ Hr Er) as (lr & Hlr & Hkr).
    exact (merged_keys_distinct pd pr ld lr n Hld Hlr Hkd Hkr).
  - intros x qt n res. rewrite index_search_similar_unfold.
    destruct (ranked_by_entity description_index _ _ _ _ _ _) as [pd|e] eqn:Ed; simpl; [|done].
    destruct (ranked_by_entity review_index _ _ _ _ _ _) as [pr|e] eqn:Er; simpl; [|done].
    intros [= <-].
    destruct (ranked_by_entity_keys _ _ _ _ _ _ _ _ Hd Ed) as (ld & Hld & Hkd).
    destruct (ranked_by_entity_keys _ _ _ _ _ _ _ _ Hr Er) as (lr & Hlr & Hkr).
    exact (merged_keys_distinct pd pr ld lr n Hld Hlr Hkd Hkr).
Qed.

Lemma catalogue_description_labels_distinct :
  index_labels_distinct Catalogue.description_index.
Proof. apply table_index_labels_distinct. apply (bool_decide_unpack _). by vm_compute. Qed.

Lemma catalogue_review_labels_distinct :
  index_labels_distinct Catalogue.review_index.
Proof. apply table_index_labels_distinct. apply (bool_decide_unpack _). by vm_compute. Qed.

Lemma index_results_distinct_per_type_witness :
  index_labels_distinct Catalogue.description_index /\
  index_labels_distinct Catalogue.review_index /\
  NoDup (map match_key
           [mkMatch 5 "Epsilon" "description" 0.75; mkMatch 5 "Epsilon" "review" 0.75]).
Proof.
  split; [apply catalogue_description_labels_distinct|].
  split; [apply catalogue_review_labels_distinct|].
  destruct (index_results_distinct_per_type Catalogue.description_index
              Catalogue.review_index Catalogue.conn) as [_ H];
    [apply catalogue_description_labels_distinct
    |apply catalogue_review_labels_distinct|].
  exact (H 1 "all"%string 2 _ eq_refl).
Defined.

(** C1 fails as stated: with match type "all", game 1 is listed twice for
    the text query [[1; 0]], and game 5 twice among the games similar to
    game 1. *)
Lemma all_types_list_a_game_twice :
  index_search Catalogue.description_index Catalogue.review_index Catalogue.conn
    Catalogue.query "all" 2 =
  Ok [mkMatch 1 "Alpha" "description" 1; mkMatch 1 "Alpha" "review" 1] /\
  index_search_similar Catalogue.description_index Catalogue.review_index
    Catalogue.conn 1 "all" 2 =
  Ok [mkMatch 5 "Epsilon" "description" 0.75; mkMatch 5 "Epsilon" "review" 0.75] /\
  ~ NoDup [1; 1] /\ ~ NoDup [5; 5].
Proof.
  split; [vm_compute; reflexivity|]. split; [vm_compute; reflexivity|].
  split; intros H; inversion_clear H as [|? ? Hin _]; apply Hin; left.
Qed.

(** ** A type without stored vectors *)

Lemma mean_pooling_nil : mean_pooling [] = Ok (scalar PrimFloat.nan).
Proof. reflexivity. Qed.

Lemma ranked_by_entity_nil ix conn x kind qt n :
  requested qt kind = true ->
  ranked_by_entity ix conn [] x kind qt n =
  ('(ls, ds) ← knn_query ix (scalar PrimFloat.nan) (n + 1);
   Ok (similar_matches conn x kind ls ds)).
Proof. intros H. unfold ranked_by_entity. by rewrite H. Qed.

(** C7, as the code has it: a requested type for which the source game
    has no stored vector is not passed over.  Its index is asked for the
    neighbours of the NaN scalar that [mean_pooling] makes of no vector;
    an error of that query is the error of the whole request, and an
    answer is merged like any other. *)
Theorem missing_type_is_queried_with_nan
    (description_index review_index : Index) (conn : Conn)
    (query_appid : Z) (max_results : Z) :
  (get_description_embeddings_for_appid conn query_appid = [] ->
   (forall query_for_type e,
      requested query_for_type "description" = true ->
      knn_query description_index (scalar PrimFloat.nan) (max_results + 1) = Raise e ->
      index_search_similar description_index review_index conn query_appid
        query_for_type max_results = Raise e) /\
   (forall ls ds,
      knn_query description_index (scalar PrimFloat.nan) (max_results + 1) = Ok (ls, ds) ->
      index_search_similar description_index review_index conn query_appid
        "description" max_results =
      Ok (slice_to (sorted_desc score
                      (similar_matches conn query_appid "description" ls ds))
                   max_results))) /\
  (concat (map snd (get_review_embeddings_for_appid conn query_appid)) = [] ->
   (forall query_for_type e,
      requested query_for_type "review" = true ->
      knn_query review_index (scalar PrimFloat.nan) (max_results + 1) = Raise e ->
      exists e',
        index_search_similar description_index review_index conn query_appid
          query_for_type max_results = Raise e') /\
   (forall ls ds,
      knn_query review_index (scalar PrimFloat.nan) (max_results + 1) = Ok (ls, ds) ->
      index_search_similar description_index review_index conn query_appid
        "review" max_results =
      Ok (slice_to (sorted_desc score
                      (similar_matches conn query_appid "review" ls ds))
                   max_results))).
Proof.
  split; intros Hnone; split.
  - intros qt e Hreq Hq. rewrite index_search_similar_unfold, Hnone.
    rewrite ranked_by_entity_nil by done. by rewrite Hq.
  - intros ls ds Hq. rewrite index_search_similar_unfold, Hnone.
    rewrite ranked_by_entity_nil by done. rewrite Hq. simpl.
    by rewrite app_nil_r.
  - intros qt e Hreq Hq. rewrite index_search_similar_unfold, Hnone.
    destruct (ranked_by_entity description_index _ _ _ _ _ _) as [pd|e']; simpl; [|eauto].
    rewrite ranked_by_entity_nil by done. rewrite Hq. simpl. eauto.
  - intros ls ds Hq. rewrite index_search_similar_unfold, Hnone.
    rewrite ranked_by_entity_nil by done. by rewrite Hq.
Qed.

Lemma missing_type_is_queried_with_nan_witness :
  index_search_similar Catalogue.description_index Catalogue.review_index
    Catalogue.conn 4 "all" 2 = Raise RuntimeError /\
  exists e',
    index_search_similar Catalogue.description_index Catalogue.review_index
      Catalogue.conn 3 "review" 2 = Raise e'.
Proof.
  destruct (missing_type_is_queried_with_nan Catalogue.description_index
              Catalogue.review_index Catalogue.conn 4 2) as [Hd _].
  destruct (missing_type_is_queried_with_nan Catalogue.description_index
              Catalogue.review_index Catalogue.conn 3 2) as [_ Hr].
  split.
  - apply (proj1 (Hd eq_refl)); reflexivity.
  - apply (proj1 (Hr eq_refl) "review"%string RuntimeError); reflexivity.
Defined.

(** C7 fails as stated: game 3 has a description and no review, game 4
    has no embedding at all; the request for the games similar to game 3
    by their reviews and the request for the games similar to game 4 end
    in the index's error, not in an empty list. *)
Lemma missing_type_raises :
  get_review_embeddings_for_appid Catalogue.conn 3 = [] /\
  index_search_similar Catalogue.description_index Catalogue.review_index
    Catalogue.conn 3 "review" 2 = Raise RuntimeError /\
  get_description_embeddings_for_appid Catalogue.conn 4 = [] /\
  get_review_embeddings_for_appid Catalogue.conn 4 = [] /\
  index_search_similar Catalogue.description_index Catalogue.review_index
    Catalogue.conn 4 "all" 2 = Raise RuntimeError /\
  index_search_similar Catalogue.description_index Catalogue.review_index
    Catalogue.conn 4 "all" 2 <> Ok [].
Proof. repeat split; try reflexivity. discriminate. Qed.

(** ** The index path is a function of the index answers *)

(** C9: [index_search] is deterministic in its inputs.  Its result is
    fixed by the arguments, the answers of the two indexes to this query
    and the names of the games; two runs that agree on these return the
    same list in the same order, ties included. *)
Theorem index_search_deterministic
    (description_index review_index description_index' review_index' : Index)
    (conn conn' : Conn) (query : ndarray) (query_for_type : string) (max_results : Z) :
  knn_query description_index query max_results =
    knn_query description_index' query max_results ->
  knn_query review_index query max_results =
    knn_query review_index' query max_results ->
  (forall a, get_name_for_appid conn a = get_name_for_appid conn' a) ->
  index_search description_index review_index conn query query_for_type max_results =
  index_search description_index' review_index' conn' query query_for_type max_results.
Proof.
  intros Hd Hr Hname. unfold index_search. rewrite Hd, Hr.
  assert (Hf : forall kind (l : list (Z * float)),
             map (fun '(appid, distance) =>
                    {| appid := appid; name := get_name_for_appid conn appid;
                       match_type := kind; score := (1 - distance)%float |}) l =
             map (fun '(appid, distance) =>
                    {| appid := appid; name := get_name_for_appid conn' appid;
                       match_type := kind; score := (1 - distance)%float |}) l).
  { intros kind l. apply map_ext. intros [a d]. by rewrite Hname. }
  destruct (_ || _), (_ || _); simpl;
    repeat (match goal with
            | |- context [knn_query ?i ?q ?n] =>
                destruct (knn_query i q n) as [[? ?]|?]; simpl
            end);
    rewrite ?Hf; done.
Qed.

Lemma index_search_deterministic_witness :
  index_search Catalogue.description_index Catalogue.review_index Catalogue.conn
    Catalogue.query "all" 2 =
  index_search Catalogue.description_index' Catalogue.review_index Catalogue.conn'
    Catalogue.query "all" 2.
Proof.
  apply (index_search_deterministic Catalogue.description_index Catalogue.review_index
           Catalogue.description_index' Catalogue.review_index
           Catalogue.conn Catalogue.conn' Catalogue.query "all" 2);
    reflexivity.
Defined.

(** ** The clamp of the routes *)



(** ** Mean pooling *)

Lemma nth_zip_with_add (a b : list float) j :
  length a = length b -> (j < length a)%nat ->
  nth j (zip_with PrimFloat.add a b) 0%float =
  (nth j a 0 + nth j b 0)%float.
Proof.
  revert b j. induction a as [|x a IH]; intros [|y b] j Hlen Hj; simpl in *; try lia.
  destruct j as [|j]; [done|]. apply IH; lia.
Qed.

Lemma map_nth_seq (l : list float) :
  map (fun j => nth j l 0%float) (seq 0 (length l)) = l.
Proof.
  apply (nth_ext _ _ 0%float 0%float).
  - by rewrite length_map, length_seq.
  - intros n Hn. rewrite length_map, length_seq in Hn.
    rewrite (nth_indep _ _ (nth 0 l 0%float))
      by (by rewrite length_map, length_seq).
    by rewrite (map_nth (fun j => nth j l 0%float)), seq_nth.
Qed.

Lemma sum_rows_columns (rows : list (list float)) (acc : list float) :
  Forall (fun r => length r = length acc) rows ->
  fold_left (zip_with PrimFloat.add) rows acc =
  map (fun j => fold_left PrimFloat.add (column j rows) (nth j acc 0%float))
      (seq 0 (length acc)).
Proof.
  revert acc. induction rows as [|r rows IH]; intros acc Hrows; simpl.
  - symmetry. apply map_nth_seq.
  - inversion_clear Hrows as [|? ? Hr Hrest].
    assert (Hlen : length (zip_with PrimFloat.add acc r) = length acc)
      by (rewrite length_zip_with; lia).
    rewrite IH by (by rewrite Hlen). rewrite Hlen.
    apply map_ext_in. intros j Hj%in_seq.
    rewrite nth_zip_with_add by lia. done.
Qed.

Lemma nth_replicate_same (j n : nat) (x : float) : nth j (replicate n x) x = x.
Proof. revert j. induction n as [|n IH]; intros [|j]; simpl; auto. Qed.

(** The sum of rows that the code makes from a row of zeros is, column
    by column, the sum of the specification. *)
Lemma sum_rows_from_zeros (rows : list (list float)) (d : nat) :
  Forall (fun r => length r = d) rows ->
  fold_left (zip_with PrimFloat.add) rows (replicate d 0%float) =
  map (fun j => sum_of (column j rows)) (seq 0 d).
Proof.
  intros Hrows. rewrite sum_rows_columns by (by rewrite length_replicate).
  rewrite length_replicate. apply map_ext. intros j.
  by rewrite nth_replicate_same.
Qed.

(** -0.0 is neutral on the left of an addition, whatever the other
    number. *)
Lemma neg_zero_add_l (x : float) : (PrimFloat.neg_zero + x)%float = x.
Proof.
  apply Prim2SF_inj. rewrite add_spec.
  change (Prim2SF PrimFloat.neg_zero) with (S754_zero true).
  unfold SF64add, SFadd.
  destruct (Prim2SF x) as [[]|[]| |sx mx ex]; reflexivity.
Qed.

Lemma adds_up_fold (xs l : list float) (s : float) :
  adds_up l s -> adds_up (l ++ xs) (fold_left PrimFloat.add xs s).
Proof.
  revert l s. induction xs as [|x xs IH]; intros l s H; simpl.
  - by rewrite app_nil_r.
  - replace (l ++ x :: xs) with ((l ++ [x]) ++ xs) by (by rewrite <- app_assoc).
    apply IH. apply adds_two; [done|constructor].
Qed.

Lemma sum_of_adds_up (xs : list float) : adds_up (0%float :: xs) (sum_of xs).
Proof. apply (adds_up_fold xs [0%float]). constructor. Qed.

Lemma small_sum_adds_up (a : list float) :
  a <> [] -> adds_up a (fold_left PrimFloat.add a PrimFloat.neg_zero).
Proof.
  destruct a as [|x a]; [done|]. intros _. simpl. rewrite neg_zero_add_l.
  apply (adds_up_fold a [x]). constructor.
Qed.

(** The eight accumulators: each is the sum of the values it was given. *)
Lemma zip_add_sums (ls : list (list float)) (r b : list float) :
  Forall2 adds_up ls r -> length b = length r ->
  Forall2 adds_up (zip_with (fun l x => l ++ [x]) ls b) (zip_with PrimFloat.add r b) /\
  concat (zip_with (fun l x => l ++ [x]) ls b) ≡ₚ concat ls ++ b.
Proof.
  intros H. revert b. induction H as [|l x ls r Hx Hrest IH]; intros b Hlen.
  - destruct b; [|done]. simpl. split; [constructor|done].
  - destruct b as [|y b]; [done|]. simpl in Hlen.
    destruct (IH b) as [Hsums Hperm]; [lia|]. simpl. split.
    + constructor; [|done]. apply adds_two; [done|constructor].
    + rewrite Hperm. rewrite <- !app_assoc. apply Permutation_app_head.
      simpl. by rewrite Permutation_middle.
Qed.

Lemma add_blocks_sums (blocks : nat) (ls : list (list float)) (r a : list float) :
  Forall2 adds_up ls r -> length r = 8%nat -> (8 * blocks <= length a)%nat ->
  exists ls',
    Forall2 adds_up ls' (add_blocks blocks r a).1 /\
    length (add_blocks blocks r a).1 = 8%nat /\
    concat ls' ++ (add_blocks blocks r a).2 ≡ₚ concat ls ++ a.
Proof.
  revert ls r a. induction blocks as [|blocks IH]; intros ls r a Hsums Hr Ha; simpl.
  - by exists ls.
  - assert (Hb : length (take 8 a) = length r) by (rewrite length_take; lia).
    destruct (zip_add_sums ls r (take 8 a) Hsums Hb) as [Hsums' Hperm].
    destruct (IH _ _ (drop 8 a) Hsums') as (ls' & H1 & H2 & H3).
    + rewrite length_zip_with. lia.
    + rewrite length_drop. lia.
    + exists ls'. split; [done|]. split; [done|].
      rewrite H3, Hperm, <- app_assoc. by rewrite take_drop.
Qed.

Lemma tree8_sums (ls : list (list float)) (r : list float) :
  Forall2 adds_up ls r -> length r = 8%nat -> adds_up (concat ls) (tree8 r).
Proof.
  intros H Hr.
  do 8 (destruct r as [|? r]; [done|]). destruct r; [|done].
  repeat match goal with
         | H : Forall2 _ _ (_ :: _) |- _ =>
             apply Forall2_cons_inv_r in H as (? & ? & ? & H & ->)
         | H : Forall2 _ _ [] |- _ => apply Forall2_nil_inv_r in H as ->
         end.
  unfold tree8. simpl. rewrite app_nil_r.
  eapply adds_perm; [|repeat apply adds_two; eassumption].
  by rewrite <- !app_assoc.
Qed.

Lemma block_sum_adds_up (a : list float) :
  (8 <= length a)%nat ->
  adds_up a (let '(r, rest) := add_blocks (length a / 8 - 1) (take 8 a) (drop 8 a) in
             fold_left PrimFloat.add rest (tree8 r)).
Proof.
  intros Ha.
  destruct (add_blocks_sums (length a / 8 - 1) (map (fun x => [x]) (take 8 a))
              (take 8 a) (drop 8 a)) as (ls' & Hsums & Hr & Hperm).
  - apply Forall2_fmap_l, Forall_Forall2_diag, Forall_forall. intros x _. constructor.
  - rewrite length_take. lia.
  - rewrite length_drop.
    pose proof (Nat.div_mod_eq (length a) 8). lia.
  - destruct (add_blocks _ _ _) as [r rest]. simpl in *.
    eapply adds_perm; [|apply adds_up_fold, tree8_sums; eassumption].
    rewrite Hperm. clear.
    assert (Hc : forall l : list float, concat (map (fun x => [x]) l) = l).
    { induction l as [|x l IH]; simpl; by rewrite ?IH. }
    by rewrite Hc, take_drop.
Qed.

(** Whatever the fuel, the pairwise sum of a run adds up its values. *)
Lemma pairwise_sum_adds_up (fuel : nat) (a : list float) :
  a <> [] -> adds_up a (pairwise_sum fuel a).
Proof.
  revert a. induction fuel as [|fuel IH]; intros a Ha; cbn [pairwise_sum];
    destruct (Nat.ltb_spec (length a) 8) as [Hsmall|Hbig];
    try (by apply small_sum_adds_up);
    destruct (Nat.leb_spec (length a) 128) as [Hblock|Hlong];
    try (by apply block_sum_adds_up);
    try (by apply small_sum_adds_up).
  set (n2 := (length a / 2 - (length a / 2) mod 8)%nat).
  assert (Hn2 : (0 < n2 < length a)%nat).
  { subst n2. pose proof (Nat.div_mod_eq (length a) 2).
    pose proof (Nat.mod_upper_bound (length a) 2).
    pose proof (Nat.mod_upper_bound (length a / 2) 8). lia. }
  rewrite <- (take_drop n2 a) at 1. apply adds_two; apply IH.
  - intros H. apply (f_equal length) in H. rewrite length_take in H. simpl in H. lia.
  - intros H. apply (f_equal length) in H. rewrite length_drop in H. simpl in H. lia.
Qed.

(** The length of the run is fuel enough: more fuel changes nothing. *)
Lemma pairwise_sum_fuel (f1 f2 : nat) (a : list float) :
  (length a <= f1)%nat -> (length a <= f2)%nat ->
  pairwise_sum f1 a = pairwise_sum f2 a.
Proof.
  revert f2 a. induction f1 as [|f1 IH]; intros [|f2] a H1 H2; cbn [pairwise_sum];
    destruct (Nat.ltb_spec (length a) 8) as [Hsmall|Hbig]; try done;
    destruct (Nat.leb_spec (length a) 128) as [Hblock|Hlong]; try done; try lia.
  set (n2 := (length a / 2 - (length a / 2) mod 8)%nat).
  assert (Hn2 : (0 < n2 < length a)%nat).
  { subst n2. pose proof (Nat.div_mod_eq (length a) 2).
    pose proof (Nat.mod_upper_bound (length a) 2).
    pose proof (Nat.mod_upper_bound (length a / 2) 8). lia. }
  f_equal; apply IH; rewrite ?length_take, ?length_drop; lia.
Qed.

Lemma elementwise_mean_lookup (vectors : list (list float)) (j : nat) :
  (j < length (hd [] vectors))%nat ->
  elementwise_mean vectors !! j =
  Some (sum_of (column j vectors) / F64.of_nat (length vectors))%float.
Proof.
  intros Hj. unfold elementwise_mean. rewrite list_lookup_fmap.
  by rewrite lookup_seq_lt.
Qed.

(** C6, as the code has it: [mean_pooling] of vectors of one dimension,
    at least one of them, is a vector of that dimension; each of its
    components is a sum of the components of that place, added up from
    0.0 as binary64 numbers, divided by the number of vectors.  For a
    dimension other than 1 the vectors are added one after the other, and
    the result is the elementwise mean of the specification to the last
    bit.  Of no vector the mean is NaN, returned as a value: nothing is
    raised. *)
Theorem mean_pooling_mean :
  (forall v vectors,
     Forall (fun w => length w = length v) vectors ->
     exists mean,
       mean_pooling (v :: vectors) = Ok (array1 mean) /\
       length mean = length v /\
       (forall j, (j < length v)%nat ->
          exists s,
            adds_up (0%float :: column j (v :: vectors)) s /\
            mean !! j = Some (s / F64.of_nat (length (v :: vectors)))%float) /\
       (length v <> 1%nat -> mean = elementwise_mean (v :: vectors))) /\
  mean_pooling [] = Ok (scalar PrimFloat.nan).
Proof.
  split; [|reflexivity].
  intros v vectors Hdim. unfold mean_pooling, np_sum_axis0.
  assert (Hb : forallb (fun r' => (length r' =? length v)%nat) vectors = true).
  { apply forallb_forall. intros w Hw. apply Nat.eqb_eq.
    rewrite Forall_forall in Hdim. by apply Hdim, list_elem_of_In. }
  rewrite Hb. destruct (Nat.eqb_spec (length v) 1) as [Hone|Hmore].
  - eexists. split; [reflexivity|]. split; [simpl; lia|]. split; [|done].
    intros j Hj. assert (j = 0%nat) as -> by lia. eexists. split; [|reflexivity].
    apply (adds_two [0%float]); [constructor|].
    by apply pairwise_sum_adds_up.
  - assert (Hmean : map (fun x => (x / F64.of_nat (length (v :: vectors)))%float)
                      (fold_left (zip_with PrimFloat.add) (v :: vectors)
                         (replicate (length v) 0%float)) =
                    elementwise_mean (v :: vectors)).
    { rewrite sum_rows_from_zeros by (by constructor).
      unfold elementwise_mean. by rewrite map_map. }
    exists (elementwise_mean (v :: vectors)). split; [simpl; by rewrite <- Hmean|].
    split; [unfold elementwise_mean; by rewrite length_map, length_seq|].
    split; [|done]. intros j Hj. eexists. split; [apply sum_of_adds_up|].
    by apply elementwise_mean_lookup.
Qed.

Lemma mean_pooling_mean_witness :
  exists mean,
    mean_pooling [[1; 2]; [3; 5]]%float = Ok (array1 mean) /\
    length mean = 2%nat /\
    (forall j, (j < 2)%nat ->
       exists s,
         adds_up (0%float :: column j [[1; 2]; [3; 5]]%float) s /\
         mean !! j = Some (s / F64.of_nat 2)%float) /\
    (2%nat <> 1%nat -> mean = elementwise_mean [[1; 2]; [3; 5]]%float).
Proof.
  apply (proj1 mean_pooling_mean [1; 2]%float [[3; 5]]%float).
  repeat constructor.
Defined.

Example mean_pooling_of_two_vectors :
  mean_pooling [[1; 2]; [3; 5]]%float = Ok (array1 [2; 3.5]%float).
Proof. reflexivity. Qed.

(** Eight vectors of one component are summed pairwise: the seven 1.0
    that a sum taken in order loses against 2^53 are added among
    themselves first, and six of them count. *)
Example mean_pooling_sums_a_column_pairwise :
  mean_pooling [[9007199254740992]; [1]; [1]; [1]; [1]; [1]; [1]; [1]]%float =
    Ok (array1 [1125899906842624.75]%float) /\
  elementwise_mean [[9007199254740992]; [1]; [1]; [1]; [1]; [1]; [1]; [1]]%float =
    [1125899906842624]%float.
Proof. split; reflexivity. Qed.

(** C6 fails as stated: the mean of no vector is a value, not a failure. *)
Lemma mean_pooling_of_nothing_returns :
  mean_pooling [] = Ok (scalar PrimFloat.nan) /\
  (forall e, mean_pooling [] <> Raise e).
Proof. split; [reflexivity|]. intros e. discriminate. Qed.

(** ** Cosine similarity *)

Module ZeroFacts.

Lemma is_zero_spec x : PrimFloat.is_zero x = true -> exists s, Prim2SF x = S754_zero s.
Proof.
  unfold PrimFloat.is_zero. rewrite FloatAxioms.eqb_spec.
  change (Prim2SF PrimFloat.zero) with (S754_zero false). unfold SFeqb.
  destruct (Prim2SF x) as [s|[]| |[] m e]; simpl; try discriminate. eauto.
Qed.

Lemma zero_zn : zero_or_nan 0%float.
Proof. left. by exists false. Qed.

Lemma is_zero_zn x : PrimFloat.is_zero x = true -> zero_or_nan x.
Proof. intros H. left. by apply is_zero_spec. Qed.

Lemma mul_zn_l x y : zero_or_nan x -> zero_or_nan (x * y)%float.
Proof.
  unfold zero_or_nan. rewrite mul_spec. unfold SF64mul.
  intros [[s ->]| ->]; destruct (Prim2SF y) as [s'|s'| |s' m e]; simpl; eauto.
Qed.

Lemma mul_zn_r x y : zero_or_nan y -> zero_or_nan (x * y)%float.
Proof.
  unfold zero_or_nan. rewrite mul_spec. unfold SF64mul.
  intros [[s ->]| ->]; destruct (Prim2SF x) as [s'|s'| |s' m e]; simpl; eauto.
Qed.

Lemma add_zn x y : zero_or_nan x -> zero_or_nan y -> zero_or_nan (x + y)%float.
Proof.
  unfold zero_or_nan. rewrite add_spec. unfold SF64add.
  intros [[s ->]| ->] [[s' ->]| ->]; simpl; eauto.
  destruct s, s'; eauto.
Qed.

Lemma sqrt_zn x : zero_or_nan x -> zero_or_nan (PrimFloat.sqrt x).
Proof.
  unfold zero_or_nan. rewrite sqrt_spec. unfold SF64sqrt.
  intros [[s ->]| ->]; simpl; eauto.
Qed.

Lemma div_zn x y : zero_or_nan x -> zero_or_nan y -> (x / y)%float = PrimFloat.nan.
Proof.
  intros Hx Hy. apply Prim2SF_inj. rewrite div_spec. unfold SF64div.
  change (Prim2SF PrimFloat.nan) with S754_nan.
  destruct Hx as [[s ->]| ->], Hy as [[s' ->]| ->]; reflexivity.
Qed.

Lemma fold_dot_zn (ps : list (float * float)) acc :
  zero_or_nan acc ->
  Forall (fun p => zero_or_nan (p.1 * p.2)%float) ps ->
  zero_or_nan (fold_left (fun acc p => (acc + p.1 * p.2)%float) ps acc).
Proof.
  intros Hacc Hps. revert acc Hacc.
  induction Hps as [|p ps Hp Hps IH]; intros acc Hacc; simpl; [done|].
  apply IH. by apply add_zn.
Qed.

Lemma dot1_zn_l u v : zero_vector u -> zero_or_nan (dot1 u v).
Proof.
  intros Hu. unfold dot1. apply fold_dot_zn; [apply zero_zn|].
  revert v. induction Hu as [|x u Hx Hu IH]; intros [|y v]; simpl; constructor.
  - simpl. by apply mul_zn_l, is_zero_zn.
  - apply IH.
Qed.

Lemma dot1_zn_r u v : zero_vector v -> zero_or_nan (dot1 u v).
Proof.
  intros Hv. unfold dot1. apply fold_dot_zn; [apply zero_zn|].
  revert u. induction Hv as [|y v Hy Hv IH]; intros [|x u]; simpl; constructor.
  - simpl. by apply mul_zn_r, is_zero_zn.
  - apply IH.
Qed.

End ZeroFacts.

(** C5, as the code has it: on vectors of one length [cosine_similarity]
    is [dot(a,b) / (norm(a) * norm(b))]; when an operand is a vector of
    zeros the quotient is NaN and is returned as a value, nothing is
    raised, and NaN is the score that the exhaustive ranker computes for a
    candidate whose embedding is such a vector. *)
Theorem cosine_similarity_of_zero_vector (u v : list float) :
  length u = length v ->
  cosine_similarity (array1 u) (array1 v) =
    Ok (scalar (dot1 u v / (PrimFloat.sqrt (dot1 u u) * PrimFloat.sqrt (dot1 v v)))%float) /\
  (zero_vector u \/ zero_vector v ->
   cosine_similarity (array1 u) (array1 v) = Ok (scalar PrimFloat.nan)) /\
  (zero_vector u ->
   (score ← compare_all_embeddings_take_max [u] (array1 v); py_float score) =
   Ok PrimFloat.nan).
Proof.
  intros Hlen.
  assert (E : cosine_similarity (array1 u) (array1 v) =
    Ok (scalar (dot1 u v / (PrimFloat.sqrt (dot1 u u) * PrimFloat.sqrt (dot1 v v)))%float)).
  { unfold cosine_similarity, np_dot. rewrite Hlen, Nat.eqb_refl. reflexivity. }
  assert (Hnan : zero_vector u \/ zero_vector v ->
            cosine_similarity (array1 u) (array1 v) = Ok (scalar PrimFloat.nan)).
  { intros Hz. rewrite E. do 2 f_equal. destruct Hz as [Hu|Hv].
    - apply ZeroFacts.div_zn; [by apply ZeroFacts.dot1_zn_l|].
      by apply ZeroFacts.mul_zn_l, ZeroFacts.sqrt_zn, ZeroFacts.dot1_zn_l.
    - apply ZeroFacts.div_zn; [by apply ZeroFacts.dot1_zn_r|].
      by apply ZeroFacts.mul_zn_r, ZeroFacts.sqrt_zn, ZeroFacts.dot1_zn_r. }
  split; [exact E|]. split; [exact Hnan|].
  intros Hu. unfold compare_all_embeddings_take_max. cbn [mapM].
  rewrite Hnan by (by left). reflexivity.
Qed.

Lemma cosine_similarity_of_zero_vector_witness :
  cosine_similarity (array1 [0; 0]%float) (array1 [1; 0]%float) = Ok (scalar PrimFloat.nan).
Proof.
  apply (cosine_similarity_of_zero_vector [0; 0]%float [1; 0]%float eq_refl).
  left. repeat constructor.
Defined.

(** C5 fails as stated: the cosine of a vector of zeros is NaN, returned
    without an error, and the exhaustive ranker lists the game whose
    description is that vector, with the score NaN. *)
Lemma zero_norm_is_scored_nan :
  cosine_similarity (array1 [0; 0]%float) (array1 [1; 0]%float) =
    Ok (scalar PrimFloat.nan) /\
  search Catalogue.random Catalogue.conn_zero Catalogue.query "description" 10 =
    Ok [mkMatch 9 "Zero" "description" PrimFloat.nan].
Proof. split; vm_compute; reflexivity. Qed.

(** ** heapq keeps the items *)

Lemma bind_Ok {A B} (a : A) (f : A -> result B) : (Ok a ≫= f) = f a.
Proof. reflexivity. Qed.

Lemma insert_swap_perm {A} (l : list A) i j a b :
  i <> j -> l !! i = Some a -> l !! j = Some b ->
  <[i:=b]> (<[j:=a]> l) ≡ₚ l.
Proof.
  intros Hij Hi Hj.
  assert (Hj' : (j < length l)%nat) by (by eapply lookup_lt_Some).
  assert (Hi' : (i < length l)%nat) by (by eapply lookup_lt_Some).
  set (l1 := <[j:=a]> l).
  assert (Hl1i : l1 !! i = Some a).
  { unfold l1. by rewrite list_lookup_insert_ne. }
  assert (Hl1j : l1 !! j = Some a).
  { unfold l1. by rewrite list_lookup_insert_eq. }
  pose proof (delete_Permutation l j b Hj) as P1.
  pose proof (delete_Permutation l1 j a Hl1j) as P2.
  assert (Hd : delete j l1 = delete j l).
  { unfold l1. apply list_eq. intros k.
    destruct (decide (k < j)%nat).
    - rewrite !list_lookup_delete_lt by done. apply list_lookup_insert_ne. lia.
    - rewrite !list_lookup_delete_ge by lia. apply list_lookup_insert_ne. lia. }
  rewrite Hd in P2.
  pose proof (delete_Permutation l1 i a Hl1i) as P3.
  assert (Hl2i : <[i:=b]> l1 !! i = Some b).
  { apply list_lookup_insert_eq. unfold l1. by rewrite length_insert. }
  pose proof (delete_Permutation (<[i:=b]> l1) i b Hl2i) as P4.
  assert (Hd' : delete i (<[i:=b]> l1) = delete i l1).
  { apply list_eq. intros k.
    destruct (decide (k < i)%nat).
    - rewrite !list_lookup_delete_lt by done. apply list_lookup_insert_ne. lia.
    - rewrite !list_lookup_delete_ge by lia. apply list_lookup_insert_ne. lia. }
  rewrite Hd' in P4.
  assert (P5 : delete i l1 ≡ₚ delete j l).
  { apply (Permutation_cons_inv (a:=a)). by rewrite <- P3, <- P2. }
  by rewrite P4, P5, <- P1.
Qed.

Section HeapqItems.

Context {A : Type}.
Variable lt : A -> A -> result bool.

Lemma getitem_Ok (heap : list A) i x : getitem heap i = Ok x <-> heap !! i = Some x.
Proof. unfold getitem. destruct (heap !! i); split; congruence. Qed.

Lemma setitem_Ok (heap heap' : list A) i x :
  setitem heap i x = Ok heap' <-> (i < length heap)%nat /\ heap' = <[i:=x]> heap.
Proof.
  unfold setitem. destruct (Nat.ltb_spec i (length heap)); split.
  - intros [= <-]. done.
  - by intros [_ ->].
  - done.
  - lia.
Qed.

Lemma setitem_lt (heap : list A) i x :
  (i < length heap)%nat -> setitem heap i x = Ok (<[i:=x]> heap).
Proof. intros H. by apply setitem_Ok. Qed.

(** The fuel is a device of the model: with the fuel their callers give
    them, the loops never run out of it, whatever the comparisons answer. *)
Lemma siftdown_loop_fuel f1 f2 (heap : list A) startpos pos newitem :
  (pos <= f1)%nat -> (pos <= f2)%nat ->
  siftdown_loop lt f1 heap startpos pos newitem =
  siftdown_loop lt f2 heap startpos pos newitem.
Proof.
  revert f2 heap pos. induction f1 as [|f1 IH]; intros [|f2] heap pos H1 H2;
    cbn [siftdown_loop]; destruct (Nat.ltb_spec startpos pos) as [Hlt|Hge];
    try done; try lia.
  destruct (getitem heap _) as [parent|]; [|done]. rewrite !bind_Ok.
  destruct (lt newitem parent) as [[]|]; [|done..]. rewrite !bind_Ok.
  destruct (setitem heap pos parent) as [heap1|]; [|done]. rewrite !bind_Ok.
  assert (Nat.div2 (pos - 1) < pos)%nat
    by (rewrite Nat.div2_div; apply Nat.Div0.div_lt_upper_bound; lia).
  apply IH; lia.
Qed.

Lemma siftup_loop_fuel f1 f2 (heap : list A) pos childpos :
  (pos < childpos)%nat ->
  (length heap <= f1 + childpos)%nat -> (length heap <= f2 + childpos)%nat ->
  siftup_loop lt f1 heap (length heap) pos childpos =
  siftup_loop lt f2 heap (length heap) pos childpos.
Proof.
  revert f2 heap pos childpos.
  induction f1 as [|f1 IH]; intros [|f2] heap pos childpos Hpc H1 H2;
    cbn [siftup_loop]; destruct (Nat.ltb_spec childpos (length heap)) as [Hlt|Hge];
    try done; try lia.
  set (choice := if (childpos + 1 <? length heap)%nat then _ else _).
  assert (Hc : forall c, choice = Ok c -> (childpos <= c)%nat).
  { intros c. subst choice. destruct (childpos + 1 <? length heap)%nat.
    - destruct (getitem heap childpos); [|done]. rewrite bind_Ok.
      destruct (getitem heap (childpos + 1)); [|done]. rewrite bind_Ok.
      destruct (lt _ _) as [[]|]; [| |done]; rewrite bind_Ok; intros [= <-]; simpl; lia.
    - intros [= <-]. lia. }
  destruct choice as [c|]; [|done]. specialize (Hc c eq_refl). rewrite !bind_Ok.
  destruct (getitem heap c) as [child|]; [|done]. rewrite !bind_Ok.
  destruct (setitem heap pos child) as [heap1|] eqn:Hset; [|done]. rewrite !bind_Ok.
  apply setitem_Ok in Hset as [_ ->].
  rewrite <- (length_insert heap pos child).
  apply IH; rewrite ?length_insert; lia.
Qed.

(** The list with the moving item put back into the hole keeps its items
    through the loop of [_siftdown]. *)
Lemma siftdown_loop_perm fuel (heap : list A) startpos pos newitem heap' pos' :
  siftdown_loop lt fuel heap startpos pos newitem = Ok (heap', pos') ->
  (pos < length heap)%nat ->
  (pos' < length heap')%nat /\ <[pos':=newitem]> heap' ≡ₚ <[pos:=newitem]> heap.
Proof.
  revert heap pos. induction fuel as [|fuel IH]; intros heap pos; simpl.
  - destruct (startpos <? pos)%nat; [done|]. by intros [= <- <-].
  - destruct (startpos <? pos)%nat eqn:Hsp; [|by intros [= <- <-]].
    apply Nat.ltb_lt in Hsp.
    destruct (getitem heap (Nat.div2 (pos - 1))) as [parent|] eqn:Hp; simpl; [|done].
    destruct (lt newitem parent) as [[]|]; simpl; [|by intros [= <- <-]|done].
    intros Hrun Hpos. rewrite setitem_lt in Hrun by done. simpl in Hrun.
    apply getitem_Ok in Hp.
    assert (Hpp : (Nat.div2 (pos - 1) < pos)%nat)
      by (rewrite Nat.div2_div; apply Nat.Div0.div_lt_upper_bound; lia).
    apply IH in Hrun as [Hlen Hperm]; [|rewrite length_insert; lia].
    split; [done|]. rewrite Hperm.
    rewrite <- (list_insert_insert_eq heap pos parent newitem).
    apply insert_swap_perm; [lia| |].
    + rewrite list_lookup_insert_ne by lia. done.
    + by apply list_lookup_insert_eq.
Qed.

Lemma siftdown_perm (heap : list A) startpos pos heap' :
  siftdown lt heap startpos pos = Ok heap' -> heap' ≡ₚ heap.
Proof.
  unfold siftdown.
  destruct (getitem heap pos) as [newitem|] eqn:Hg; simpl; [|done].
  apply getitem_Ok in Hg.
  destruct (siftdown_loop _ _ _ _ _ _) as [[heap1 pos1]|] eqn:Hrun; simpl; [|done].
  apply siftdown_loop_perm in Hrun as [Hlen Hperm]; [|by eapply lookup_lt_Some].
  intros [_ ->]%setitem_Ok. rewrite Hperm. by rewrite list_insert_id.
Qed.

Lemma siftup_loop_perm fuel (heap : list A) endpos pos childpos heap' pos' :
  siftup_loop lt fuel heap endpos pos childpos = Ok (heap', pos') ->
  (pos < length heap)%nat -> (pos < childpos)%nat ->
  (pos' < length heap')%nat /\
  forall x, <[pos':=x]> heap' ≡ₚ <[pos:=x]> heap.
Proof.
  revert heap pos childpos. induction fuel as [|fuel IH]; intros heap pos childpos; simpl.
  - destruct (childpos <? endpos)%nat; [done|]. by intros [= <- <-].
  - destruct (childpos <? endpos)%nat; [|by intros [= <- <-]].
    set (choice := if (childpos + 1 <? endpos)%nat then _ else _).
    destruct choice as [c|] eqn:Hc; simpl; [|done].
    assert (Hcc : (pos < childpos -> pos < c)%nat).
    { subst choice. destruct (childpos + 1 <? endpos)%nat; [|injection Hc as <-; lia].
      destruct (getitem heap childpos); simpl in Hc; [|done].
      destruct (getitem heap (childpos + 1)); simpl in Hc; [|done].
      destruct (lt _ _) as [[]|]; simpl in Hc; [| |done]; injection Hc as <-; lia. }
    clear Hc choice.
    destruct (getitem heap c) as [child|] eqn:Hg; simpl; [|done].
    apply getitem_Ok in Hg.
    intros Hrun Hpos Hlt. rewrite setitem_lt in Hrun by done. simpl in Hrun.
    apply IH in Hrun as [Hlen Hperm]; [|rewrite length_insert; by eapply lookup_lt_Some|lia].
    split; [done|]. intros x. rewrite Hperm.
    rewrite <- (list_insert_insert_eq heap pos child x).
    apply insert_swap_perm; [specialize (Hcc Hlt); lia| |].
    + rewrite list_lookup_insert_ne by (specialize (Hcc Hlt); lia). done.
    + by apply list_lookup_insert_eq.
Qed.

Lemma siftup_perm (heap : list A) pos heap' :
  siftup lt heap pos = Ok heap' -> heap' ≡ₚ heap.
Proof.
  unfold siftup.
  destruct (getitem heap pos) as [newitem|] eqn:Hg; simpl; [|done].
  apply getitem_Ok in Hg.
  destruct (siftup_loop _ _ _ _ _ _) as [[heap1 pos1]|] eqn:Hrun; simpl; [|done].
  apply siftup_loop_perm in Hrun as [Hlen Hperm]; [|by eapply lookup_lt_Some|lia].
  rewrite setitem_lt by done. simpl.
  intros ->%siftdown_perm. rewrite Hperm. by rewrite list_insert_id.
Qed.

Lemma heappush_perm (heap : list A) item heap' :
  heappush lt heap item = Ok heap' -> heap' ≡ₚ item :: heap.
Proof.
  unfold heappush. intros ->%siftdown_perm.
  by rewrite Permutation_app_comm.
Qed.

Lemma heappop_perm (heap : list A) item heap' :
  heappop lt heap = Ok (item, heap') -> heap ≡ₚ item :: heap'.
Proof.
  unfold heappop. destruct (last heap) as [lastelt|] eqn:Hl; [|done].
  apply last_Some in Hl as [front ->]. rewrite removelast_last.
  destruct front as [|returnitem front]; [by intros [= <- <-]|].
  rewrite setitem_lt by (simpl; lia). simpl.
  destruct (siftup _ _ _) as [heap1|] eqn:Hs; simpl; [|done].
  intros [= <- <-]. apply siftup_perm in Hs. rewrite Hs.
  simpl. constructor. apply Permutation_app_comm.
Qed.

End HeapqItems.

(** ** The source of a similarity query is never listed *)

Lemma foldM_invariant {S B} (P : S -> Prop) (f : S -> B -> result S) l s s' :
  (forall s x s', x ∈ l -> f s x = Ok s' -> P s -> P s') ->
  foldM f l s = Ok s' -> P s -> P s'.
Proof.
  revert s. induction l as [|x l IH]; intros s Hf; simpl.
  - by intros [= <-].
  - destruct (f s x) as [s1|] eqn:E; simpl; [|done].
    intros Hrun Hs. eapply IH; [|exact Hrun|].
    + intros s2 y s3 Hy. apply Hf. by right.
    + eapply Hf; [by left|exact E|exact Hs].
Qed.

Lemma add_to_heap_items random st item max_length st' :
  add_to_heap random st item max_length = Ok st' ->
  st'.1 ⊆ (score item, random st.2, item) :: st.1.
Proof.
  destruct st as [heap n]. unfold add_to_heap.
  destruct (heappush _ _ _) as [h1|] eqn:Hpush; simpl; [|done].
  apply heappush_perm in Hpush.
  destruct (max_length <? _).
  - destruct (heappop _ _) as [[m h2]|] eqn:Hpop; simpl; [|done].
    apply heappop_perm in Hpop. intros [= <-]. simpl.
    intros e He. rewrite <- Hpush, Hpop. by right.
  - simpl. intros [= <-]. simpl. intros e He. by rewrite <- Hpush.
Qed.

Lemma drain_items heap m : m ∈ drain heap -> exists e, e ∈ heap /\ m = e.2.
Proof.
  unfold drain. intros (e & <- & He)%list_elem_of_In%in_map_iff.
  exists e. split; [|done].
  apply list_elem_of_In in He. by rewrite sorted_desc_perm in He.
Qed.

Lemma similar_matches_exclude conn x kind ls ds m :
  m ∈ similar_matches conn x kind ls ds -> appid m <> x.
Proof.
  unfold similar_matches.
  intros ([a d] & _ & Hm)%list_elem_of_In%in_flat_map.
  destruct (a =? x) eqn:E; simpl in Hm; [done|].
  destruct Hm as [<-|[]]. simpl. by apply Z.eqb_neq.
Qed.

Lemma ranked_by_entity_exclude ix conn emb x kind qt n l m :
  ranked_by_entity ix conn emb x kind qt n = Ok l -> m ∈ l -> appid m <> x.
Proof.
  unfold ranked_by_entity. destruct (requested qt kind).
  - destruct (mean_pooling emb) as [q|]; simpl; [|done].
    destruct (knn_query ix q (n + 1)) as [[ls ds]|]; simpl; [|done].
    intros [= <-]. apply similar_matches_exclude.
  - intros [= <-] H. by apply elem_of_nil in H.
Qed.

Section ExhaustiveExclusion.

Variable random : nat -> float.
Variable query_appid : Z.

Lemma add_to_heap_excludes st item max_length st' :
  add_to_heap random st item max_length = Ok st' ->
  appid item <> query_appid -> excludes query_appid st -> excludes query_appid st'.
Proof.
  intros Hadd Hitem Hst e He.
  apply (add_to_heap_items _ _ _ _ _ Hadd) in He.
  apply elem_of_cons in He as [->|He]; [done|by apply Hst].
Qed.

Lemma search_similar_excludes conn query_for_type max_results res m :
  search_similar random conn query_appid query_for_type max_results = Ok res ->
  m ∈ res -> appid m <> query_appid.
Proof.
  unfold search_similar.
  assert (H0 : excludes query_appid ([], O)) by (intros e He; by apply elem_of_nil in He).
  revert H0. generalize (([], O) : collector). intros st0 H0.
  match goal with
  | |- (?stage1 ≫= _) = _ -> _ =>
      assert (H1 : forall st1, stage1 = Ok st1 -> excludes query_appid st1);
      [|destruct stage1 as [st1|]; simpl; [specialize (H1 _ eq_refl)|done]]
  end.
  { intros st1. destruct (_ || _); [|by intros [= <-]].
    destruct (mean_pooling _) as [q|]; simpl; [|done].
    intros E1. revert E1 H0. apply foldM_invariant. intros s page s' _.
    apply foldM_invariant. intros s2 [a emb] s3 _.
    destruct (Z.eqb_spec a query_appid); [by intros [= <-]|].
    destruct (compare_all_embeddings_take_max _ _); simpl; [|done].
    destruct (py_float _); simpl; [|done].
    intros Hadd. by apply (add_to_heap_excludes _ _ _ _ Hadd). }
  match goal with
  | |- (?stage2 ≫= _) = _ -> _ =>
      assert (H2 : forall st2, stage2 = Ok st2 -> excludes query_appid st2);
      [|destruct stage2 as [st2|]; simpl; [specialize (H2 _ eq_refl)|done]]
  end.
  { intros st2. destruct (_ || _); [|by intros [= <-]].
    destruct (mean_pooling _) as [q|]; simpl; [|done].
    intros E2. revert E2 H1. apply foldM_invariant. intros s a s' _.
    destruct (Z.eqb_spec a query_appid); [by intros [= <-]|].
    destruct (mean_pooling _); simpl; [|done].
    destruct (cosine_similarity _ _); simpl; [|done].
    destruct (py_float _); simpl; [|done].
    intros Hadd. by apply (add_to_heap_excludes _ _ _ _ Hadd). }
  intros [= <-] (e & He & ->)%drain_items. by apply H2.
Qed.

End ExhaustiveExclusion.

(** C3: neither [index_search_similar] nor [search_similar] lists the
    game the query is about, whatever its embeddings. *)
Theorem similar_never_lists_the_source :
  (forall description_index review_index conn query_appid query_for_type max_results res,
     index_search_similar description_index review_index conn query_appid
       query_for_type max_results = Ok res ->
     forall m, m ∈ res -> appid m <> query_appid) /\
  (forall random conn query_appid query_for_type max_results res,
     search_similar random conn query_appid query_for_type max_results = Ok res ->
     forall m, m ∈ res -> appid m <> query_appid).
Proof.
  split.
  - intros di ri conn x qt n res. rewrite index_search_similar_unfold.
    destruct (ranked_by_entity di _ _ _ _ _ _) as [pd|] eqn:Ed; simpl; [|done].
    destruct (ranked_by_entity ri _ _ _ _ _ _) as [pr|] eqn:Er; simpl; [|done].
    intros [= <-] m Hm. apply slice_to_subseteq in Hm.
    rewrite sorted_desc_perm in Hm. apply elem_of_app in Hm as [Hm|Hm].
    + eapply ranked_by_entity_exclude; [exact Ed|exact Hm].
    + eapply ranked_by_entity_exclude; [exact Er|exact Hm].
  - intros random conn x qt n res Hres m Hm.
    eapply search_similar_excludes; [exact Hres|exact Hm].
Qed.

Lemma similar_never_lists_the_source_witness :
  (exists res,
     index_search_similar Catalogue.description_index Catalogue.review_index
       Catalogue.conn 1 "all" 2 = Ok res /\
     map appid res = [5; 5] /\ forall m, m ∈ res -> appid m <> 1) /\
  (exists res,
     search_similar Catalogue.random Catalogue.conn 1 "all" 2 = Ok res /\
     map appid res = [3; 5] /\ forall m, m ∈ res -> appid m <> 1).
Proof.
  split; eexists; (split; [vm_compute; reflexivity|]); (split; [reflexivity|]).
  - eapply (proj1 similar_never_lists_the_source
              Catalogue.description_index Catalogue.review_index Catalogue.conn
              1 "all"%string 2). vm_compute. reflexivity.
  - eapply (proj2 similar_never_lists_the_source
              Catalogue.random Catalogue.conn 1 "all"%string 2).
    vm_compute. reflexivity.
Defined.

Example max_over_passages :
  compare_all_embeddings_take_max [[1; 0]; [0; 1]]%float (array1 [1; 0]%float) =
  Ok (scalar 1%float).
Proof. reflexivity. Qed.

(** ** heapq keeps the heap order *)

Lemma child_parent pos : (0 < pos)%nat -> child (Nat.div2 (pos - 1)) pos.
Proof.
  intros H. unfold child. rewrite Nat.div2_div.
  pose proof (Nat.div_mod_eq (pos - 1) 2).
  pose proof (Nat.mod_upper_bound (pos - 1) 2). lia.
Qed.

Lemma child_lt i c : child i c -> (i < c)%nat.
Proof. unfold child. lia. Qed.

Lemma child_inj i j c : child i c -> child j c -> i = j.
Proof. unfold child. lia. Qed.

Section HeapqOrder.

Context {A : Type}.
Variable lt : A -> A -> result bool.
Variable ltb : A -> A -> bool.
Variable U : A -> Prop.

Hypothesis lt_ltb : forall a b, U a -> U b -> lt a b = Ok (ltb a b).
Hypothesis ltb_asym : forall a b, U a -> U b -> ltb a b = true -> ltb b a = false.
Hypothesis le_trans : forall a b c, U a -> U b -> U c ->
  heap_le ltb a b -> heap_le ltb b c -> heap_le ltb a c.

Local Abbreviation le := (heap_le ltb).

Lemma le_refl a : U a -> le a a.
Proof.
  intros Ha. unfold heap_le. destruct (ltb a a) eqn:E; [|done].
  by rewrite (ltb_asym a a Ha Ha E) in E.
Qed.

Lemma U_lookup (h : list A) i x : Forall U h -> h !! i = Some x -> U x.
Proof. intros Hh Hi. eapply Forall_lookup_1; eauto. Qed.

Lemma siftdown_loop_order fuel (heap : list A) pos newitem :
  (pos <= fuel)%nat -> (pos < length heap)%nat ->
  Forall U (<[pos:=newitem]> heap) ->
  up_inv ltb (<[pos:=newitem]> heap) pos ->
  exists heap' pos',
    siftdown_loop lt fuel heap 0 pos newitem = Ok (heap', pos') /\
    heap_inv ltb (<[pos':=newitem]> heap').
Proof.
  revert heap pos. induction fuel as [|fuel IH]; intros heap pos Hfuel Hpos HU [Hup1 Hup2].
  - assert (pos = 0)%nat as -> by lia. simpl. eexists _, _. split; [done|].
    intros i c x y Hc. apply Hup1; [done|]. apply child_lt in Hc. lia.
  - simpl. destruct (Nat.ltb_spec 0 pos) as [Hpos0|Hpos0].
    2: { eexists _, _. split; [done|]. assert (pos = 0)%nat as -> by lia.
         intros i c x y Hc. apply Hup1; [done|]. apply child_lt in Hc. lia. }
    set (p := Nat.div2 (pos - 1)).
    pose proof (child_parent pos Hpos0) as Hchild. fold p in Hchild.
    pose proof (child_lt _ _ Hchild) as Hp.
    destruct (lookup_lt_is_Some_2 heap p) as [parent Hparent]; [lia|].
    rewrite (proj2 (getitem_Ok heap p parent) Hparent). simpl.
    set (hv := <[pos:=newitem]> heap) in *.
    assert (Hhvp : hv !! p = Some parent)
      by (unfold hv; rewrite list_lookup_insert_ne by lia; done).
    assert (Hhvpos : hv !! pos = Some newitem)
      by (unfold hv; by apply list_lookup_insert_eq).
    assert (Un : U newitem) by (by eapply U_lookup).
    assert (Up : U parent) by (by eapply U_lookup).
    rewrite lt_ltb by done. simpl.
    destruct (ltb newitem parent) eqn:Hlt.
    + rewrite setitem_lt by done. simpl.
      set (heap1 := <[pos:=parent]> heap).
      assert (Hhv1 : <[p:=newitem]> heap1 = <[p:=newitem]> (<[pos:=parent]> hv)).
      { unfold heap1, hv. by rewrite list_insert_insert_eq. }
      assert (Hperm : <[p:=newitem]> heap1 ≡ₚ hv).
      { rewrite Hhv1. apply insert_swap_perm; [lia|done|done]. }
      assert (Hl1 : forall k, <[p:=newitem]> heap1 !! k =
                      if decide (k = p) then Some newitem
                      else if decide (k = pos) then Some parent else hv !! k).
      { intros k. rewrite Hhv1. destruct (decide (k = p)) as [->|Hkp].
        - apply list_lookup_insert_eq. rewrite length_insert.
          by eapply lookup_lt_Some.
        - rewrite list_lookup_insert_ne by done.
          destruct (decide (k = pos)) as [->|Hkpos].
          + apply list_lookup_insert_eq. by eapply lookup_lt_Some.
          + by rewrite list_lookup_insert_ne. }
      apply IH.
      * lia.
      * unfold heap1. rewrite length_insert. lia.
      * by rewrite Hperm.
      * assert (Hnp : le newitem parent) by (by apply ltb_asym).
        split.
        -- intros i c x y Hc Hcp. rewrite !Hl1.
           destruct (decide (c = p)) as [|_]; [done|].
           destruct (decide (c = pos)) as [->|Hcpos].
           ++ rewrite (child_inj _ _ _ Hc Hchild).
              destruct (decide (p = p)); [|done]. by intros [= <-] [= <-].
           ++ destruct (decide (i = p)) as [->|Hip].
              ** intros [= <-] Hy.
                 eapply (le_trans _ parent); eauto using U_lookup.
              ** destruct (decide (i = pos)) as [->|Hipos].
                 --- intros [= <-] Hy. by eapply Hup2.
                 --- intros Hx Hy. by eapply Hup1.
        -- intros g c x y Hg Hc. rewrite !Hl1.
           pose proof (child_lt _ _ Hg). pose proof (child_lt _ _ Hc).
           destruct (decide (g = p)) as [|_]; [lia|].
           destruct (decide (g = pos)) as [|_]; [lia|].
           destruct (decide (c = p)) as [|_]; [lia|].
           intros Hx.
           assert (Hgp : le x parent) by (eapply (Hup1 g p); eauto; lia).
           destruct (decide (c = pos)) as [->|Hcpos].
           ++ by intros [= <-].
           ++ intros Hy. eapply (le_trans _ parent); eauto using U_lookup.
    + eexists _, _. split; [done|]. fold hv.
      intros i c x y Hc Hx Hy. destruct (decide (c = pos)) as [->|Hcpos].
      * rewrite (child_inj _ _ _ Hc Hchild) in Hx.
        rewrite Hhvp in Hx. rewrite Hhvpos in Hy.
        injection Hx as <-. injection Hy as <-. done.
      * by eapply Hup1.
Qed.

Lemma siftdown_order (heap : list A) pos :
  (pos < length heap)%nat -> Forall U heap -> up_inv ltb heap pos ->
  exists heap', siftdown lt heap 0 pos = Ok heap' /\ heap_inv ltb heap'.
Proof.
  intros Hpos HU Hup. unfold siftdown.
  destruct (lookup_lt_is_Some_2 heap pos Hpos) as [newitem Hn].
  rewrite (proj2 (getitem_Ok heap pos newitem) Hn). simpl.
  destruct (siftdown_loop_order pos heap pos newitem) as (heap1 & pos1 & Hrun & Hinv);
    [lia|done|by rewrite list_insert_id|by rewrite list_insert_id|].
  rewrite Hrun. simpl.
  apply siftdown_loop_perm in Hrun as [Hlen _]; [|done].
  rewrite setitem_lt by done. eauto.
Qed.

Lemma siftup_loop_order fuel (heap : list A) pos childpos :
  childpos = (2 * pos + 1)%nat -> (length heap <= fuel + childpos)%nat ->
  (pos < length heap)%nat -> Forall U heap ->
  down_inv ltb heap pos ->
  exists heap' pos',
    siftup_loop lt fuel heap (length heap) pos childpos = Ok (heap', pos') /\
    length heap' = length heap /\
    (length heap' <= 2 * pos' + 1)%nat /\
    down_inv ltb heap' pos'.
Proof.
  revert heap pos childpos.
  induction fuel as [|fuel IH]; intros heap pos childpos -> Hfuel Hpos HU [Hd1 Hd2].
  - cbn [siftup_loop]. destruct (Nat.ltb_spec (2 * pos + 1) (length heap)); [lia|].
    eexists _, _. split; [done|]. split; [done|]. split; [lia|]. by split.
  - cbn [siftup_loop].
    destruct (Nat.ltb_spec (2 * pos + 1) (length heap)) as [Hin|Hout].
    2: { eexists _, _. split; [done|]. split; [done|]. split; [lia|]. by split. }
    destruct (lookup_lt_is_Some_2 heap (2 * pos + 1)) as [l Hl]; [lia|].
    assert (Hchoice : exists c v,
      (if (2 * pos + 1 + 1 <? length heap)%nat
       then l ← getitem heap (2 * pos + 1);
            r ← getitem heap (2 * pos + 1 + 1);
            b ← lt l r;
            Ok (if negb b then (2 * pos + 1 + 1)%nat else (2 * pos + 1)%nat)
       else Ok (2 * pos + 1)%nat) = Ok c /\
      child pos c /\ heap !! c = Some v /\
      forall s y, child pos s -> heap !! s = Some y -> le v y).
    { destruct (Nat.ltb_spec (2 * pos + 1 + 1) (length heap)) as [Hr|Hr].
      - destruct (lookup_lt_is_Some_2 heap (2 * pos + 1 + 1)) as [r Hrr]; [lia|].
        rewrite (proj2 (getitem_Ok heap _ l) Hl), bind_Ok. cbn beta.
        rewrite (proj2 (getitem_Ok heap _ r) Hrr), bind_Ok. cbn beta.
        assert (Ul : U l) by (by eapply U_lookup).
        assert (Ur : U r) by (by eapply U_lookup).
        rewrite lt_ltb, bind_Ok by done. cbn beta.
        destruct (ltb l r) eqn:Hlr; cbn [negb].
        + exists (2 * pos + 1)%nat, l. split; [done|]. split; [left; lia|].
          split; [done|]. intros s y [->| ->] Hy.
          * rewrite Hl in Hy. injection Hy as <-. by apply le_refl.
          * replace (2 * pos + 2)%nat with (2 * pos + 1 + 1)%nat in Hy by lia.
            rewrite Hrr in Hy. injection Hy as <-. by apply ltb_asym.
        + exists (2 * pos + 1 + 1)%nat, r. split; [done|]. split; [right; lia|].
          split; [done|]. intros s y [->| ->] Hy.
          * rewrite Hl in Hy. injection Hy as <-. done.
          * replace (2 * pos + 2)%nat with (2 * pos + 1 + 1)%nat in Hy by lia.
            rewrite Hrr in Hy. injection Hy as <-. by apply le_refl.
      - exists (2 * pos + 1)%nat, l. split; [done|]. split; [left; lia|].
        split; [done|]. intros s y [->| ->] Hy.
        + rewrite Hl in Hy. injection Hy as <-. apply le_refl. by eapply U_lookup.
        + apply lookup_lt_Some in Hy. lia. }
    destruct Hchoice as (c & v & -> & Hc & Hv & Hmin). rewrite bind_Ok. cbn beta.
    rewrite (proj2 (getitem_Ok heap c v) Hv), bind_Ok. cbn beta.
    rewrite setitem_lt, bind_Ok by done. cbn beta.
    pose proof (child_lt _ _ Hc) as Hposc.
    pose proof (lookup_lt_Some _ _ _ Hv) as Hclen.
    set (heap1 := <[pos:=v]> heap).
    assert (Hlen1 : length heap1 = length heap) by apply length_insert.
    assert (Hl1 : forall k, heap1 !! k = if decide (k = pos) then Some v else heap !! k).
    { intros k. unfold heap1. destruct (decide (k = pos)) as [->|].
      - by apply list_lookup_insert_eq.
      - by rewrite list_lookup_insert_ne. }
    destruct (IH heap1 c (2 * c + 1)%nat) as (heap' & pos' & Hrun & Hlen & Hleaf & Hinv).
    + done.
    + rewrite Hlen1. unfold child in Hc. lia.
    + lia.
    + unfold heap1. apply Forall_insert; [done|]. by eapply U_lookup.
    + split.
      * intros i k x y Hk Hic Hkc. rewrite !Hl1.
        destruct (decide (i = pos)) as [->|Hipos].
        -- destruct (decide (k = pos)) as [->|_]; [apply child_lt in Hk; lia|].
           intros [= <-] Hy. by eapply Hmin.
        -- destruct (decide (k = pos)) as [->|Hkpos].
           ++ intros Hx [= <-]. by eapply Hd2.
           ++ intros Hx Hy. by eapply Hd1.
      * intros g k x y Hg Hk. rewrite !Hl1.
        rewrite (child_inj _ _ _ Hg Hc).
        destruct (decide (pos = pos)); [|done].
        pose proof (child_lt _ _ Hk).
        destruct (decide (k = pos)); [lia|].
        intros [= <-] Hy. eapply (Hd1 c k); eauto; lia.
    + rewrite Hlen1 in Hrun. rewrite Hrun. eexists _, _. split; [done|].
      split; [lia|]. split; [done|]. done.
Qed.

Lemma siftup_order (heap : list A) :
  (0 < length heap)%nat -> Forall U heap -> down_inv ltb heap 0 ->
  exists heap', siftup lt heap 0 = Ok heap' /\ heap_inv ltb heap'.
Proof.
  intros Hlen HU Hdown. unfold siftup.
  destruct (lookup_lt_is_Some_2 heap 0 Hlen) as [newitem Hn].
  rewrite (proj2 (getitem_Ok heap 0 newitem) Hn). simpl.
  destruct (siftup_loop_order (length heap) heap 0 1) as
    (heap1 & pos1 & Hrun & Hlen1 & Hleaf & [Hd1 Hd2]); [done|lia|done|done|done|].
  change (2 * 0 + 1)%nat with 1%nat. rewrite Hrun. simpl.
  pose proof (siftup_loop_perm _ _ _ _ _ _ _ _ Hrun Hlen ltac:(lia)) as [Hpos1 Hperm].
  rewrite setitem_lt by done. simpl.
  apply siftdown_order.
  - by rewrite length_insert.
  - rewrite Hperm. by rewrite list_insert_id.
  - split.
    + intros i c x y Hc Hcp Hx Hy.
      assert (i <> pos1).
      { intros ->. apply lookup_lt_Some in Hy. rewrite length_insert in Hy.
        unfold child in Hc. lia. }
      rewrite list_lookup_insert_ne in Hx, Hy by done. by eapply Hd1.
    + intros g c x y _ Hc _ Hy.
      apply lookup_lt_Some in Hy. rewrite length_insert in Hy.
      unfold child in Hc. lia.
Qed.

Lemma heap_inv_app (h : list A) x : heap_inv ltb (h ++ [x]) -> heap_inv ltb h.
Proof.
  intros Hinv i c a b Hc Ha Hb.
  eapply Hinv; [exact Hc| |]; by apply lookup_app_l_Some.
Qed.

Lemma heappush_order (heap : list A) item :
  Forall U (item :: heap) -> heap_inv ltb heap ->
  exists heap', heappush lt heap item = Ok heap' /\ heap_inv ltb heap'.
Proof.
  intros HU Hinv. unfold heappush.
  apply siftdown_order.
  - rewrite length_app. simpl. lia.
  - rewrite Forall_app. inversion_clear HU. by repeat constructor.
  - rewrite length_app. simpl. replace (length heap + 1 - 1)%nat with (length heap) by lia.
    split.
    + intros i c x y Hc Hcl Hx Hy.
      pose proof (child_lt _ _ Hc).
      assert (c < length heap)%nat.
      { apply lookup_lt_Some in Hy. rewrite length_app in Hy. simpl in Hy. lia. }
      rewrite lookup_app_l in Hx, Hy by lia. by eapply Hinv.
    + intros g c x y _ Hc _ Hy.
      apply lookup_lt_Some in Hy. rewrite length_app in Hy. simpl in Hy.
      unfold child in Hc. lia.
Qed.

Lemma heap_root_min (h : list A) m :
  Forall U h -> heap_inv ltb h -> h !! 0%nat = Some m ->
  forall x, x ∈ h -> le m x.
Proof.
  intros HU Hinv Hm x (i & Hi)%list_elem_of_lookup.
  revert x Hi. induction i as [i IH] using lt_wf_ind. intros x Hi.
  destruct (decide (i = 0)%nat) as [->|Hi0].
  - rewrite Hm in Hi. injection Hi as <-. apply le_refl. by eapply U_lookup.
  - pose proof (child_parent i ltac:(lia)) as Hc.
    pose proof (child_lt _ _ Hc) as Hp.
    destruct (lookup_lt_is_Some_2 h (Nat.div2 (i - 1))) as [y Hy].
    { apply lookup_lt_Some in Hi. lia. }
    eapply (le_trans _ y); eauto using U_lookup.
Qed.

Lemma heappop_order (heap : list A) :
  heap <> [] -> Forall U heap -> heap_inv ltb heap ->
  exists m heap',
    heappop lt heap = Ok (m, heap') /\ heap_inv ltb heap' /\
    forall x, x ∈ heap -> le m x.
Proof.
  intros Hne HU Hinv. unfold heappop.
  destruct (last heap) as [lastelt|] eqn:Hl.
  2: { apply last_None in Hl. done. }
  apply last_Some in Hl as [front ->]. rewrite removelast_last.
  destruct front as [|returnitem front].
  - exists lastelt, []. split; [done|]. split.
    + intros i c x y _ Hx. by rewrite lookup_nil in Hx.
    + intros x ->%list_elem_of_singleton. apply le_refl. by inversion_clear HU.
  - rewrite setitem_lt by (simpl; lia). simpl.
    pose proof (heap_root_min _ returnitem HU Hinv eq_refl) as Hmin.
    apply heap_inv_app in Hinv.
    apply Forall_app in HU as [HUf HUl]. inversion_clear HUl as [|? ? Ulast _].
    inversion_clear HUf as [|? ? Ur Uf].
    destruct (siftup_order (lastelt :: front)) as (heap1 & Hs & Hinv1).
    + simpl. lia.
    + by constructor.
    + split.
      * intros i c x y Hc Hi0 Hc0 Hx Hy.
        destruct i as [|i]; [done|]. destruct c as [|c]; [done|].
        eapply (Hinv (S i) (S c)); eauto.
      * intros g c x y Hg. apply child_lt in Hg. lia.
    + rewrite Hs. simpl. eauto.
Qed.

End HeapqOrder.

(** ** The order of the heap entries *)

Lemma eqb_refl_notnan x : F64.notnan x -> PrimFloat.eqb x x = true.
Proof. unfold F64.notnan, PrimFloat.is_nan. by intros ->%negb_false_iff. Qed.

Lemma tuple_le_iff (a b : entry) :
  entry_ok a -> entry_ok b ->
  heap_le tuple_ltb a b <->
  PrimFloat.leb a.1.1 b.1.1 = true /\
  (PrimFloat.leb b.1.1 a.1.1 = true -> PrimFloat.leb a.1.2 b.1.2 = true).
Proof.
  destruct a as [[s1 r1] m1], b as [[s2 r2] m2]. simpl.
  intros (Hs1 & Hr1 & _) (Hs2 & Hr2 & _). simpl in *.
  unfold heap_le, tuple_ltb.
  rewrite !F64Facts.eqb_leb, !F64Facts.ltb_negb_leb by done.
  destruct (F64Facts.leb_total s1 s2 Hs1 Hs2) as [H|H],
    (F64Facts.leb_total r1 r2 Hr1 Hr2) as [H'|H']; rewrite ?H, ?H';
    destruct (PrimFloat.leb s1 s2), (PrimFloat.leb s2 s1),
      (PrimFloat.leb r1 r2), (PrimFloat.leb r2 r1); simpl; intuition congruence.
Qed.

Section EntryOrder.

Variable E : list entry.
Hypothesis E_ok : forall e, e ∈ E -> entry_ok e.
Hypothesis E_distinct : forall a b, a ∈ E -> b ∈ E ->
  PrimFloat.eqb a.1.2 b.1.2 = true -> a = b.

Lemma tuple_lt_ltb a b : a ∈ E -> b ∈ E -> tuple_lt a b = Ok (tuple_ltb a b).
Proof.
  intros Ha Hb. pose proof (E_distinct a b Ha Hb) as Hd.
  pose proof (E_ok a Ha) as (Hs & _ & Hsc).
  destruct a as [[s1 r1] m1], b as [[s2 r2] m2]. simpl in *.
  destruct (PrimFloat.eqb s1 s2); simpl; [|done].
  destruct (PrimFloat.eqb r1 r2); simpl; [|done].
  injection (Hd eq_refl) as _ _ <-.
  unfold dict_eqb. rewrite Z.eqb_refl, !String.eqb_refl, eqb_refl_notnan; [done|].
  by rewrite <- Hsc.
Qed.

Lemma tuple_ltb_asym a b :
  a ∈ E -> b ∈ E -> tuple_ltb a b = true -> tuple_ltb b a = false.
Proof.
  intros (Hs1 & Hr1 & _)%E_ok (Hs2 & Hr2 & _)%E_ok.
  destruct a as [[s1 r1] m1], b as [[s2 r2] m2]. simpl in *.
  unfold tuple_ltb.
  rewrite !F64Facts.eqb_leb, !F64Facts.ltb_negb_leb by done.
  destruct (F64Facts.leb_total s1 s2 Hs1 Hs2) as [H|H],
    (F64Facts.leb_total r1 r2 Hr1 Hr2) as [H'|H']; rewrite ?H, ?H';
    destruct (PrimFloat.leb s1 s2), (PrimFloat.leb s2 s1),
      (PrimFloat.leb r1 r2), (PrimFloat.leb r2 r1); simpl; congruence.
Qed.

Lemma tuple_le_trans a b c :
  a ∈ E -> b ∈ E -> c ∈ E ->
  heap_le tuple_ltb a b -> heap_le tuple_ltb b c -> heap_le tuple_ltb a c.
Proof.
  intros Ha%E_ok Hb%E_ok Hc%E_ok.
  rewrite (tuple_le_iff a b), (tuple_le_iff b c), (tuple_le_iff a c) by done.
  intros [Hab Hab'] [Hbc Hbc']. split.
  - by eapply F64Facts.leb_trans.
  - intros Hca. eapply F64Facts.leb_trans.
    + apply Hab'. by eapply F64Facts.leb_trans.
    + apply Hbc'. by eapply F64Facts.leb_trans.
Qed.

End EntryOrder.

(** ** The bounded collector *)

Section Collector.

Variable random : nat -> float.
Variable max_length : Z.
Hypothesis max_length_nonneg : 0 <= max_length.

Variable E : list entry.
Hypothesis E_ok : forall e, e ∈ E -> entry_ok e.
Hypothesis E_distinct : forall a b, a ∈ E -> b ∈ E ->
  PrimFloat.eqb a.1.2 b.1.2 = true -> a = b.

Local Abbreviation U := (fun e : entry => e ∈ E).

Lemma add_to_heap_inv heap n item seen dropped :
  collector_inv max_length heap seen dropped ->
  (forall e, e ∈ (score item, random n, item) :: seen -> e ∈ E) ->
  exists heap' dropped',
    add_to_heap random (heap, n) item max_length = Ok (heap', S n) /\
    collector_inv max_length heap' (seen ++ [(score item, random n, item)]) dropped'.
Proof.
  intros (Hperm & Hinv & Hdrop & Hlen) HE.
  set (e := (score item, random n, item)) in *.
  assert (Hheap : forall x, x ∈ heap -> x ∈ seen).
  { intros x Hx. rewrite <- Hperm. apply elem_of_app. by left. }
  assert (Hdropped : forall x, x ∈ dropped -> x ∈ seen).
  { intros x Hx. rewrite <- Hperm. apply elem_of_app. by right. }
  assert (HU : Forall U (e :: heap)).
  { apply Forall_forall. intros x [->|Hx]%elem_of_cons; apply HE; [by left|].
    right. by apply Hheap. }
  destruct (heappush_order tuple_lt tuple_ltb U (tuple_lt_ltb E E_ok E_distinct)
              (tuple_ltb_asym E E_ok) (tuple_le_trans E E_ok) heap e HU Hinv)
    as (h1 & Hpush & Hinv1).
  pose proof (heappush_perm _ _ _ _ Hpush) as Hperm1.
  assert (Hlen1 : length h1 = S (length heap)) by (by rewrite Hperm1).
  unfold add_to_heap. fold e. rewrite Hpush, bind_Ok. cbn beta.
  destruct (Z.ltb_spec max_length (Z.of_nat (length h1))) as [Hfull|Hroom].
  - destruct (heappop_order tuple_lt tuple_ltb U (tuple_lt_ltb E E_ok E_distinct)
                (tuple_ltb_asym E E_ok) (tuple_le_trans E E_ok) h1)
      as (m0 & h2 & Hpop & Hinv2 & Hmin).
    { intros ->. simpl in Hlen1. lia. }
    { by rewrite Hperm1. }
    { done. }
    pose proof (heappop_perm _ _ _ _ Hpop) as Hperm2.
    rewrite Hpop. simpl. exists h2, (m0 :: dropped). split; [done|].
    assert (Hm0 : m0 ∈ e :: heap).
    { rewrite <- Hperm1, Hperm2. by left. }
    split; [|split; [done|split]].
    + transitivity ((m0 :: h2) ++ dropped); [by rewrite <- Permutation_middle|].
      rewrite <- Hperm2, Hperm1. simpl. rewrite Hperm.
      apply Permutation_cons_append.
    + intros d h [->|Hd]%elem_of_cons Hh.
      * apply Hmin. rewrite Hperm2. by right.
      * apply elem_of_cons in Hm0 as [->|Hm0].
        -- apply Hdrop; [done|].
           rewrite Hperm1 in Hperm2. apply Permutation_cons_inv in Hperm2.
           by rewrite Hperm2.
        -- eapply (tuple_le_trans E E_ok d m0 h).
           ++ apply HE. right. by apply Hdropped.
           ++ apply HE. right. by apply Hheap.
           ++ assert (Hh' : h ∈ e :: heap)
                by (rewrite <- Hperm1, Hperm2; by right).
              apply HE. apply elem_of_cons in Hh' as [->|Hh']; [by left|].
              right. by apply Hheap.
           ++ by apply Hdrop.
           ++ apply Hmin. rewrite Hperm2. by right.
    + assert (length h1 = S (length h2)) by (by rewrite Hperm2).
      rewrite length_app. simpl. lia.
  - simpl. exists h1, dropped. split; [done|].
    assert (dropped = []) as ->.
    { apply length_zero_iff_nil.
      assert (Hl : length (heap ++ dropped) = length seen) by (by rewrite Hperm).
      rewrite length_app in Hl. lia. }
    split; [|split; [done|split]].
    + rewrite app_nil_r in *. rewrite Hperm1, Hperm. apply Permutation_cons_append.
    + intros d h Hd. by apply elem_of_nil in Hd.
    + rewrite length_app. simpl. lia.
Qed.

Lemma offer_all_inv items : forall seen heap n dropped,
  collector_inv max_length heap seen dropped ->
  (forall e, e ∈ seen ++ entries_from random n items -> e ∈ E) ->
  exists heap' dropped',
    offer_all random max_length items (heap, n) = Ok (heap', (n + length items)%nat) /\
    collector_inv max_length heap' (seen ++ entries_from random n items) dropped'.
Proof.
  induction items as [|item items IH]; intros seen heap n dropped Hinv HE.
  - simpl. rewrite app_nil_r, Nat.add_0_r. eauto.
  - cbn [entries_from length] in *.
    destruct (add_to_heap_inv heap n item seen dropped Hinv) as (h1 & d1 & Hadd & Hinv1).
    { intros e [->|He]%elem_of_cons; apply HE; apply elem_of_app.
      - right. by left.
      - by left. }
    destruct (IH _ _ (S n) _ Hinv1) as (h2 & d2 & Hrun & Hinv2).
    { intros e He. apply HE. by rewrite <- app_assoc in He. }
    unfold offer_all in *. cbn [foldM]. rewrite Hadd, bind_Ok, Hrun.
    rewrite <- app_assoc in Hinv2. simpl in Hinv2.
    replace (n + S (length items))%nat with (S n + length items)%nat by lia.
    eauto.
Qed.

End Collector.

Lemma entries_from_lookup random n items i :
  entries_from random n items !! i =
  (fun m => (score m, random (n + i)%nat, m)) <$> items !! i.
Proof.
  revert n i. induction items as [|m items IH]; intros n [|i]; simpl; try done.
  - by rewrite Nat.add_0_r.
  - rewrite IH. by replace (S n + i)%nat with (n + S i)%nat by lia.
Qed.

Lemma entries_from_payloads random n items :
  map (fun e : entry => e.2) (entries_from random n items) = items.
Proof. revert n. induction items as [|m items IH]; intros n; simpl; by rewrite ?IH. Qed.

Lemma entries_from_elem random items e :
  e ∈ entries_from random 0 items ->
  exists i m, items !! i = Some m /\ e = (score m, random i, m).
Proof.
  intros (i & Hi)%list_elem_of_lookup. rewrite entries_from_lookup in Hi.
  destruct (items !! i) as [m|] eqn:Hm; [|done]. injection Hi as <-. eauto.
Qed.

Lemma entries_from_ok random items e :
  Forall (fun m => F64.notnan (score m)) items ->
  draws_ok random (length items) ->
  e ∈ entries_from random 0 items -> entry_ok e.
Proof.
  intros Hs Hr (i & m & Hm & ->)%entries_from_elem. split; [|split]; simpl.
  - eapply (Forall_lookup_1 _ _ _ _ Hs Hm).
  - apply Hr. by eapply lookup_lt_Some.
  - done.
Qed.

Lemma entries_from_distinct random items a b :
  distinct_draws random (length items) ->
  a ∈ entries_from random 0 items -> b ∈ entries_from random 0 items ->
  PrimFloat.eqb a.1.2 b.1.2 = true -> a = b.
Proof.
  intros Hd (i & m & Hm & ->)%entries_from_elem (j & m' & Hm' & ->)%entries_from_elem.
  simpl. intros Heq. destruct (decide (i = j)) as [->|Hij].
  - rewrite Hm in Hm'. by injection Hm' as <-.
  - rewrite Hd in Heq; [done| | |done]; by eapply lookup_lt_Some.
Qed.

Lemma collector_run random max_length items :
  0 <= max_length ->
  Forall (fun m => F64.notnan (score m)) items ->
  draws_ok random (length items) ->
  distinct_draws random (length items) ->
  exists heap dropped,
    offer_all random max_length items ([], O) = Ok (heap, length items) /\
    collector_inv max_length heap (entries_from random 0 items) dropped.
Proof.
  intros HK Hs Hr Hd.
  destruct (offer_all_inv random max_length HK (entries_from random 0 items)
              (fun e => entries_from_ok random items e Hs Hr)
              (fun a b => entries_from_distinct random items a b Hd)
              items [] [] O []) as (heap & dropped & Hrun & Hinv).
  - split; [done|]. split; [|split; [|simpl; lia]].
    + intros i c x y _ Hx. by rewrite lookup_nil in Hx.
    + intros d h Hd'. by apply elem_of_nil in Hd'.
  - done.
  - eauto.
Qed.

Lemma desc_sorted_payloads (l : list entry) :
  Forall (fun e => e.1.1 = score e.2) l ->
  desc_sorted (fun x : entry => x.1.1) l ->
  desc_sorted score (map (fun e : entry => e.2) l).
Proof.
  intros Hl Hs. induction Hs as [|e l Hs IH He]; simpl; [constructor|].
  inversion_clear Hl as [|? ? Hsc Hl']. constructor; [by apply IH|].
  apply Forall_forall. intros m (e' & <- & He')%list_elem_of_In%in_map_iff.
  apply list_elem_of_In in He'.
  rewrite Forall_forall in He, Hl'. specialize (He e' He').
  unfold key_ge in *. by rewrite <- Hsc, <- (Hl' e' He').
Qed.

Lemma add_to_heap_length random st item max_length st' :
  add_to_heap random st item max_length = Ok st' ->
  (length st.1 <= Z.to_nat max_length)%nat ->
  (length st'.1 <= Z.to_nat max_length)%nat.
Proof.
  destruct st as [heap n]. unfold add_to_heap.
  destruct (heappush _ _ _) as [h1|] eqn:Hpush; simpl; [|done].
  apply heappush_perm in Hpush.
  assert (Hl1 : length h1 = S (length heap)) by (by rewrite Hpush).
  destruct (Z.ltb_spec max_length (Z.of_nat (length h1))).
  - destruct (heappop _ _) as [[m h2]|] eqn:Hpop; simpl; [|done].
    apply heappop_perm in Hpop.
    assert (length h1 = S (length h2)) by (by rewrite Hpop).
    intros [= <-]. simpl. lia.
  - simpl. intros [= <-]. simpl. lia.
Qed.

(** C2: for a capacity [K >= 1] and any sequence of offers, the collector
    never keeps more than [K] entries after an offer, whatever the scores
    and the draws.  For scores that are numbers and for draws of
    [random.random()] that are numbers, different from one another, no
    offer raises, and what is drained in the end is sorted by descending
    score and is a top [K] of the offers: [min(K, n)] of them, none of a
    smaller score than an offer left out. *)
Theorem bounded_collector_top_k (random : nat -> float) (K : Z) (items : list Match) :
  1 <= K ->
  (forall k st,
     offer_all random K (take k items) ([], O) = Ok st ->
     Z.of_nat (length st.1) <= K) /\
  (Forall (fun m => F64.notnan (score m)) items ->
   draws_ok random (length items) ->
   distinct_draws random (length items) ->
   (forall k, exists st,
      offer_all random K (take k items) ([], O) = Ok st /\
      Z.of_nat (length st.1) <= K) /\
   exists heap rest,
     offer_all random K items ([], O) = Ok (heap, length items) /\
     Z.of_nat (length (drain heap)) = Z.min K (Z.of_nat (length items)) /\
     desc_sorted score (drain heap) /\
     drain heap ++ rest ≡ₚ items /\
     forall o r, o ∈ drain heap -> r ∈ rest ->
       PrimFloat.leb (score r) (score o) = true).
Proof.
  intros HK. split.
  { intros k st Hrun.
    assert (Hlen : (length st.1 <= Z.to_nat K)%nat); [|lia].
    unfold offer_all in Hrun.
    apply (foldM_invariant (fun st : collector => (length st.1 <= Z.to_nat K)%nat)
             _ _ _ _ (fun s x s' _ => add_to_heap_length random s x K s') Hrun).
    simpl. lia. }
  intros Hs Hr Hd. split.
  - intros k.
    destruct (collector_run random K (take k items)) as (heap & dropped & Hrun & Hinv).
    + lia.
    + by apply Forall_take.
    + intros i Hi. apply Hr. rewrite length_take in Hi. lia.
    + intros i j Hi Hj. rewrite length_take in Hi, Hj. apply Hd; lia.
    + eexists. split; [exact Hrun|]. simpl.
      destruct Hinv as (_ & _ & _ & ->). lia.
  - destruct (collector_run random K items) as
      (heap & dropped & Hrun & Hperm & Hinv & Hdrop & Hlen); [lia|done..|].
    exists heap, (map (fun e : entry => e.2) dropped).
    assert (Hok : forall e, e ∈ entries_from random 0 items -> entry_ok e).
    { intros e. by apply entries_from_ok. }
    assert (Hheap : forall e, e ∈ heap -> entry_ok e).
    { intros e He. apply Hok. rewrite <- Hperm. apply elem_of_app. by left. }
    assert (Hdropped : forall e, e ∈ dropped -> entry_ok e).
    { intros e He. apply Hok. rewrite <- Hperm. apply elem_of_app. by right. }
    split; [done|]. unfold drain. split; [|split; [|split]].
    + rewrite length_map, sorted_desc_length.
      assert (Hn : length (entries_from random 0 items) = length items).
      { rewrite <- (entries_from_payloads random 0 items) at 2.
        by rewrite length_map. }
      unfold entry in *. rewrite Hlen, Hn. lia.
    + apply desc_sorted_payloads.
      * apply Forall_forall. intros e He. rewrite sorted_desc_perm in He.
        by apply Hheap.
      * apply sorted_desc_sorted. apply Forall_forall. intros e He.
        by apply Hheap.
    + rewrite <- map_app.
      rewrite (Permutation_map _ (Permutation_app_tail dropped
                 (sorted_desc_perm (fun x : entry => x.1.1) heap))).
      rewrite (Permutation_map _ Hperm). by rewrite entries_from_payloads.
    + intros o r (e & <- & He)%list_elem_of_In%in_map_iff
                 (d & <- & Hd')%list_elem_of_In%in_map_iff.
      apply list_elem_of_In in He, Hd'. rewrite sorted_desc_perm in He.
      pose proof (Hdrop d e Hd' He) as Hle.
      apply tuple_le_iff in Hle as [Hle _]; [|by apply Hdropped|by apply Hheap].
      destruct (Hheap e He) as (_ & _ & <-).
      destruct (Hdropped d Hd') as (_ & _ & <-). done.
Qed.

Lemma catalogue_draws_ok : draws_ok Catalogue.random 4.
Proof. intros i Hi. do 4 (destruct i as [|i]; [reflexivity|]). lia. Qed.

Lemma catalogue_distinct_draws : distinct_draws Catalogue.random 4.
Proof.
  intros i j Hi Hj Hij.
  do 4 (destruct i as [|i]; [do 4 (destruct j as [|j]; [done || reflexivity|]); lia|]).
  lia.
Qed.

Lemma bounded_collector_top_k_witness :
  exists heap rest,
    offer_all Catalogue.random 2 Catalogue.offers ([], O) =
      Ok (heap, length Catalogue.offers) /\
    Z.of_nat (length (drain heap)) = Z.min 2 (Z.of_nat (length Catalogue.offers)) /\
    desc_sorted score (drain heap) /\
    drain heap ++ rest ≡ₚ Catalogue.offers /\
    forall o r, o ∈ drain heap -> r ∈ rest ->
      PrimFloat.leb (score r) (score o) = true.
Proof.
  apply (bounded_collector_top_k Catalogue.random 2 Catalogue.offers).
  - lia.
  - repeat constructor.
  - apply catalogue_draws_ok.
  - apply catalogue_distinct_draws.
Defined.

(** C2 fails as stated: a score that is NaN answers False to every
    comparison, and the heap pops the best offer in its place.  With the
    capacity 1 and the offers 1.0, NaN, 0.0 the collector drains the
    offer of score 0.0; [search] does so over a store whose second
    description is a vector of zeros. *)
Lemma nan_offer_loses_the_best :
  (st ← offer_all Catalogue.random 1 Catalogue.nan_offers ([], O);
   Ok (drain st.1)) = Ok [mkMatch 3 "Gamma" "description" 0] /\
  mkMatch 1 "Alpha" "description" 1 ∈ Catalogue.nan_offers /\
  PrimFloat.ltb 0 1 = true /\
  draws_ok Catalogue.random 3 /\
  distinct_draws Catalogue.random 3 /\
  search Catalogue.random Catalogue.conn_nan Catalogue.query "description" 1 =
    Ok [mkMatch 3 "Gamma" "description" 0].
Proof.
  split; [vm_compute; reflexivity|]. split; [by left|]. split; [reflexivity|].
  split; [|split].
  - intros i Hi. do 3 (destruct i as [|i]; [reflexivity|]). lia.
  - intros i j Hi Hj Hij.
    do 3 (destruct i as [|i];
          [do 3 (destruct j as [|j]; [done || reflexivity|]); lia|]).
    lia.
  - vm_compute. reflexivity.
Qed.

Example collector_keeps_the_two_best :
  (st ← offer_all Catalogue.random 2 Catalogue.offers ([], O);
   Ok (map appid (drain st.1))) = Ok [5; 2].
Proof. vm_compute. reflexivity. Qed.

(** * More of app.py *)

(** ** Folds that may raise *)

Lemma foldM_ext {S B} (f g : S -> B -> result S) l s :
  (forall s x, x ∈ l -> f s x = g s x) -> foldM f l s = foldM g l s.
Proof.
  revert s. induction l as [|x l IH]; intros s H; simpl; [done|].
  rewrite H by (by left). destruct (g s x); simpl; [|done].
  apply IH. intros s' y Hy. apply H. by right.
Qed.

Lemma foldM_app {S B} (f : S -> B -> result S) l1 l2 s :
  foldM f (l1 ++ l2) s = (s' ← foldM f l1 s; foldM f l2 s').
Proof.
  revert s. induction l1 as [|x l1 IH]; intros s; simpl; [done|].
  destruct (f s x); simpl; [apply IH|done].
Qed.

Lemma foldM_concat {S B} (f : S -> B -> result S) (ls : list (list B)) s :
  foldM (fun s l => foldM f l s) ls s = foldM f (concat ls) s.
Proof.
  revert s. induction ls as [|l ls IH]; intros s; simpl; [done|].
  rewrite foldM_app. destruct (foldM f l s); simpl; [apply IH|done].
Qed.

(** Scoring the candidates one by one while offering them is scoring
    them all first, when no scoring raises. *)
Lemma foldM_mapM {S B C} (score_of : B -> result C) (add : S -> C -> result S)
    l items s :
  mapM score_of l = Ok items ->
  foldM (fun s x => m ← score_of x; add s m) l s = foldM add items s.
Proof.
  revert items s. induction l as [|x l IH]; intros items s; simpl.
  - by intros [= <-].
  - destruct (score_of x) as [m|]; simpl; [|done].
    destruct (mapM score_of l) as [ms|]; simpl; [|done].
    intros [= <-]. simpl. destruct (add s m); simpl; [by apply IH|done].
Qed.

Lemma foldM_skip {S B} (skip : B -> bool) (f : S -> B -> result S) l s :
  foldM (fun s x => if skip x then Ok s else f s x) l s =
  foldM f (List.filter (fun x => negb (skip x)) l) s.
Proof.
  revert s. induction l as [|x l IH]; intros s; simpl; [done|].
  destruct (skip x); simpl; [apply IH|].
  destruct (f s x); simpl; [apply IH|done].
Qed.

Lemma mapM_Ok_Forall2 {B C} (f : B -> result C) l items :
  mapM f l = Ok items -> Forall2 (fun x m => f x = Ok m) l items.
Proof.
  revert items. induction l as [|x l IH]; intros items; simpl.
  - intros [= <-]. constructor.
  - destruct (f x) as [m|] eqn:E; simpl; [|done].
    destruct (mapM f l) as [ms|]; simpl; [|done].
    intros [= <-]. constructor; [done|by apply IH].
Qed.

(** ** The exhaustive rankers as a collector run *)

Section ExhaustiveShape.

Variable random : nat -> float.
Variable conn : Conn.

Lemma search_stages query_embed query_for_type max_results :
  search random conn query_embed query_for_type max_results =
  (st ← (if requested query_for_type "description" then
           foldM (fun st c => m ← score_description conn query_embed c;
                              add_to_heap random st m max_results)
                 (concat (get_paginated_embeddings_for_descriptions conn)) ([], O)
         else Ok ([], O));
   st ← (if requested query_for_type "review" then
           foldM (fun st a => m ← score_review conn query_embed a;
                              add_to_heap random st m max_results)
                 (get_appids_with_review_embeds conn) st
         else Ok st);
   Ok (drain st.1)).
Proof.
  unfold search, requested.
  assert (H1 : forall st,
    foldM (fun matches current_page =>
             foldM (fun matches '(appid, embeddings) =>
                      score ← compare_all_embeddings_take_max embeddings query_embed;
                      let name := get_name_for_appid conn appid in
                      score ← py_float score;
                      add_to_heap random matches
                        {| appid := appid; name := name;
                           match_type := "description"; score := score |}
                        max_results)
                   current_page matches)
          (get_paginated_embeddings_for_descriptions conn) st =
    foldM (fun st c => m ← score_description conn query_embed c;
                       add_to_heap random st m max_results)
          (concat (get_paginated_embeddings_for_descriptions conn)) st).
  { intros st. rewrite foldM_concat. apply foldM_ext. intros s [a emb] _.
    unfold score_description.
    destruct (compare_all_embeddings_take_max emb query_embed); simpl; [|done].
    by destruct (py_float _). }
  assert (H2 : forall st,
    foldM (fun matches appid =>
             let all_review_embeddings := get_review_embeddings_for_appid conn appid in
             let flat_embeddings := concat (map snd all_review_embeddings) in
             average_embedding ← mean_pooling flat_embeddings;
             score ← cosine_similarity average_embedding query_embed;
             let name := get_name_for_appid conn appid in
             score ← py_float score;
             add_to_heap random matches
               {| appid := appid; name := name;
                  match_type := "review"; score := score |}
               max_results)
          (get_appids_with_review_embeds conn) st =
    foldM (fun st a => m ← score_review conn query_embed a;
                       add_to_heap random st m max_results)
          (get_appids_with_review_embeds conn) st).
  { intros st. apply foldM_ext. intros s a _. unfold score_review.
    destruct (mean_pooling _); simpl; [|done].
    destruct (cosine_similarity _ _); simpl; [|done].
    by destruct (py_float _). }
  rewrite H1.
  destruct (String.eqb query_for_type "all" || String.eqb query_for_type "description");
    [destruct (foldM _ _ _) as [st|]; simpl; [|done]|simpl];
    (destruct (String.eqb query_for_type "all" || String.eqb query_for_type "review");
     [by rewrite H2|done]).
Qed.

Lemma search_similar_stages query_appid query_for_type max_results :
  search_similar random conn query_appid query_for_type max_results =
  (st ← (if requested query_for_type "description" then
           query_embed ← mean_pooling
             (get_description_embeddings_for_appid conn query_appid);
           foldM (fun st c => m ← score_description conn query_embed c;
                              add_to_heap random st m max_results)
                 (List.filter (fun c : Z * list (list float) => negb (c.1 =? query_appid))
                    (concat (get_paginated_embeddings_for_descriptions conn)))
                 ([], O)
         else Ok ([], O));
   st ← (if requested query_for_type "review" then
           query_embed ← mean_pooling
             (concat (map snd (get_review_embeddings_for_appid conn query_appid)));
           foldM (fun st a => m ← score_review conn query_embed a;
                              add_to_heap random st m max_results)
                 (List.filter (fun a => negb (a =? query_appid))
                    (get_appids_with_review_embeds conn))
                 st
         else Ok st);
   Ok (drain st.1)).
Proof.
  unfold search_similar, requested.
  assert (H1 : forall query_embed st,
    foldM (fun matches current_page =>
             foldM (fun matches '(current_appid, embeddings) =>
                      if current_appid =? query_appid then Ok matches
                      else
                        score ← compare_all_embeddings_take_max embeddings query_embed;
                        let name := get_name_for_appid conn current_appid in
                        score ← py_float score;
                        add_to_heap random matches
                          {| appid := current_appid; name := name;
                             match_type := "description"; score := score |}
                          max_results)
                   current_page matches)
          (get_paginated_embeddings_for_descriptions conn) st =
    foldM (fun st c => m ← score_description conn query_embed c;
                       add_to_heap random st m max_results)
          (List.filter (fun c : Z * list (list float) => negb (c.1 =? query_appid))
             (concat (get_paginated_embeddings_for_descriptions conn))) st).
  { intros query_embed st. rewrite foldM_concat.
    rewrite <- (foldM_skip (fun c : Z * list (list float) => c.1 =? query_appid)).
    apply foldM_ext. intros s [a emb] _. simpl.
    destruct (a =? query_appid); [done|]. unfold score_description.
    destruct (compare_all_embeddings_take_max emb query_embed); simpl; [|done].
    by destruct (py_float _). }
  assert (H2 : forall query_embed st,
    foldM (fun matches current_appid =>
             if current_appid =? query_appid then Ok matches
             else
               let all_review_embeddings :=
                 get_review_embeddings_for_appid conn current_appid in
               let flat_embeddings := concat (map snd all_review_embeddings) in
               average_embedding ← mean_pooling flat_embeddings;
               score ← cosine_similarity average_embedding query_embed;
               let name := get_name_for_appid conn current_appid in
               score ← py_float score;
               add_to_heap random matches
                 {| appid := current_appid; name := name;
                    match_type := "review"; score := score |}
                 max_results)
          (get_appids_with_review_embeds conn) st =
    foldM (fun st a => m ← score_review conn query_embed a;
                       add_to_heap random st m max_results)
          (List.filter (fun a => negb (a =? query_appid))
             (get_appids_with_review_embeds conn)) st).
  { intros query_embed st.
    rewrite <- (foldM_skip (fun a => a =? query_appid)).
    apply foldM_ext. intros s a _. simpl.
    destruct (a =? query_appid); [done|]. unfold score_review.
    destruct (mean_pooling _); simpl; [|done].
    destruct (cosine_similarity _ _); simpl; [|done].
    by destruct (py_float _). }
  destruct (String.eqb query_for_type "all" || String.eqb query_for_type "description").
  - destruct (mean_pooling (get_description_embeddings_for_appid conn query_appid))
      as [qd|]; simpl; [|done].
    rewrite H1. destruct (foldM _ _ _) as [st|]; simpl; [|done].
    destruct (String.eqb query_for_type "all" || String.eqb query_for_type "review");
      [|done].
    destruct (mean_pooling _) as [qr|]; simpl; [|done]. by rewrite H2.
  - simpl.
    destruct (String.eqb query_for_type "all" || String.eqb query_for_type "review");
      [|done].
    destruct (mean_pooling _) as [qr|]; simpl; [|done]. by rewrite H2.
Qed.

(** When every candidate can be scored, [search] is the collector run
    over the scored candidates, drained. *)
Lemma search_offer_all query_embed query_for_type max_results items :
  scored_candidates conn query_embed query_for_type = Ok items ->
  search random conn query_embed query_for_type max_results =
  (st ← offer_all random max_results items ([], O); Ok (drain st.1)).
Proof.
  unfold scored_candidates. rewrite search_stages. unfold offer_all.
  destruct (requested query_for_type "description").
  - destruct (mapM (score_description conn query_embed) _) as [ds|] eqn:Ed;
      simpl; [|done].
    rewrite (foldM_mapM _ _ _ ds) by done.
    destruct (requested query_for_type "review").
    + destruct (mapM (score_review conn query_embed) _) as [rs|] eqn:Er;
        simpl; [|done].
      intros [= <-]. rewrite foldM_app.
      destruct (foldM _ ds _) as [st|]; simpl; [|done].
      by rewrite (foldM_mapM _ _ _ rs).
    + simpl. intros [= <-]. rewrite app_nil_r.
      by destruct (foldM _ ds _).
  - simpl. destruct (requested query_for_type "review").
    + destruct (mapM (score_review conn query_embed) _) as [rs|] eqn:Er;
        simpl; [|done].
      intros [= <-]. simpl. by rewrite (foldM_mapM _ _ _ rs).
    + simpl. by intros [= <-].
Qed.

Lemma search_similar_offer_all query_appid query_for_type max_results items :
  scored_similar_candidates conn query_appid query_for_type = Ok items ->
  search_similar random conn query_appid query_for_type max_results =
  (st ← offer_all random max_results items ([], O); Ok (drain st.1)).
Proof.
  unfold scored_similar_candidates. rewrite search_similar_stages. unfold offer_all.
  destruct (requested query_for_type "description").
  - destruct (mean_pooling (get_description_embeddings_for_appid conn query_appid))
      as [qd|]; simpl; [|done].
    destruct (mapM (score_description conn qd) _) as [ds|] eqn:Ed; simpl; [|done].
    rewrite (foldM_mapM _ _ _ ds) by done.
    destruct (requested query_for_type "review").
    + destruct (mean_pooling _) as [qr|]; simpl; [|done].
      destruct (mapM (score_review conn qr) _) as [rs|] eqn:Er; simpl; [|done].
      intros [= <-]. rewrite foldM_app.
      destruct (foldM _ ds _) as [st|]; simpl; [|done].
      by rewrite (foldM_mapM _ _ _ rs).
    + simpl. intros [= <-]. rewrite app_nil_r.
      by destruct (foldM _ ds _).
  - simpl. destruct (requested query_for_type "review").
    + destruct (mean_pooling _) as [qr|]; simpl; [|done].
      destruct (mapM (score_review conn qr) _) as [rs|] eqn:Er; simpl; [|done].
      intros [= <-]. simpl. by rewrite (foldM_mapM _ _ _ rs).
    + simpl. by intros [= <-].
Qed.

End ExhaustiveShape.

(** The drained collector, for scores and draws that are numbers. *)
Lemma offer_all_drained random max_length items :
  0 <= max_length ->
  Forall (fun m => F64.notnan (score m)) items ->
  draws_ok random (length items) ->
  distinct_draws random (length items) ->
  exists st rest,
    offer_all random max_length items ([], O) = Ok st /\
    length (drain st.1) = Nat.min (Z.to_nat max_length) (length items) /\
    desc_sorted score (drain st.1) /\
    drain st.1 ++ rest ≡ₚ items /\
    forall o r, o ∈ drain st.1 -> r ∈ rest ->
      PrimFloat.leb (score r) (score o) = true.
Proof.
  intros HK Hs Hr Hd.
  destruct (collector_run random max_length items HK Hs Hr Hd) as
    (heap & dropped & Hrun & Hperm & Hinv & Hdrop & Hlen).
  exists (heap, length items), (map (fun e : entry => e.2) dropped).
  assert (Hok : forall e, e ∈ entries_from random 0 items -> entry_ok e).
  { intros e. by apply entries_from_ok. }
  assert (Hheap : forall e, e ∈ heap -> entry_ok e).
  { intros e He. apply Hok. rewrite <- Hperm. apply elem_of_app. by left. }
  assert (Hdropped : forall e, e ∈ dropped -> entry_ok e).
  { intros e He. apply Hok. rewrite <- Hperm. apply elem_of_app. by right. }
  split; [done|]. cbn [fst]. unfold drain. split; [|split; [|split]].
  - rewrite length_map, sorted_desc_length.
    assert (Hn : length (entries_from random 0 items) = length items).
    { rewrite <- (entries_from_payloads random 0 items) at 2.
      by rewrite length_map. }
    unfold entry in *. by rewrite Hlen, Hn.
  - apply desc_sorted_payloads.
    + apply Forall_forall. intros e He. rewrite sorted_desc_perm in He.
      by apply Hheap.
    + apply sorted_desc_sorted. apply Forall_forall. intros e He.
      by apply Hheap.
  - rewrite <- map_app.
    rewrite (Permutation_map _ (Permutation_app_tail dropped
               (sorted_desc_perm (fun x : entry => x.1.1) heap))).
    rewrite (Permutation_map _ Hperm). by rewrite entries_from_payloads.
  - intros o r (e & <- & He)%list_elem_of_In%in_map_iff
               (d & <- & Hd')%list_elem_of_In%in_map_iff.
    apply list_elem_of_In in He, Hd'. rewrite sorted_desc_perm in He.
    pose proof (Hdrop d e Hd' He) as Hle.
    apply tuple_le_iff in Hle as [Hle _]; [|by apply Hdropped|by apply Hheap].
    destruct (Hheap e He) as (_ & _ & <-).
    destruct (Hdropped d Hd') as (_ & _ & <-). done.
Qed.

(** X1: [search] returns the [max_results] best of all the candidates of
    the requested types: when every candidate can be scored, with scores
    and draws that are numbers, the result has [min(max_results, n)] of
    the [n] scored candidates, in descending score, and no candidate left
    out has a greater score than a listed one. *)
Theorem search_top_k (random : nat -> float) (conn : Conn) (query_embed : ndarray)
    (query_for_type : string) (max_results : Z) (items : list Match) :
  0 <= max_results ->
  scored_candidates conn query_embed query_for_type = Ok items ->
  Forall (fun m => F64.notnan (score m)) items ->
  draws_ok random (length items) ->
  distinct_draws random (length items) ->
  exists res rest,
    search random conn query_embed query_for_type max_results = Ok res /\
    length res = Nat.min (Z.to_nat max_results) (length items) /\
    desc_sorted score res /\
    res ++ rest ≡ₚ items /\
    forall o r, o ∈ res -> r ∈ rest -> PrimFloat.leb (score r) (score o) = true.
Proof.
  intros HK Hitems Hs Hr Hd.
  destruct (offer_all_drained random max_results items HK Hs Hr Hd)
    as (st & rest & Hrun & H).
  exists (drain st.1), rest. split; [|exact H].
  rewrite (search_offer_all random conn _ _ _ items Hitems). by rewrite Hrun.
Qed.

(** X2: [search_similar] returns the [max_results] best of the candidates
    other than the game itself, scored against the means of the game's
    own embeddings, under the same conditions. *)
Theorem search_similar_top_k (random : nat -> float) (conn : Conn) (query_appid : Z)
    (query_for_type : string) (max_results : Z) (items : list Match) :
  0 <= max_results ->
  scored_similar_candidates conn query_appid query_for_type = Ok items ->
  Forall (fun m => F64.notnan (score m)) items ->
  draws_ok random (length items) ->
  distinct_draws random (length items) ->
  exists res rest,
    search_similar random conn query_appid query_for_type max_results = Ok res /\
    length res = Nat.min (Z.to_nat max_results) (length items) /\
    desc_sorted score res /\
    res ++ rest ≡ₚ items /\
    forall o r, o ∈ res -> r ∈ rest -> PrimFloat.leb (score r) (score o) = true.
Proof.
  intros HK Hitems Hs Hr Hd.
  destruct (offer_all_drained random max_results items HK Hs Hr Hd)
    as (st & rest & Hrun & H).
  exists (drain st.1), rest. split; [|exact H].
  rewrite (search_similar_offer_all random conn _ _ _ items Hitems). by rewrite Hrun.
Qed.

Lemma draws_ok_le random n k : (k <= n)%nat -> draws_ok random n -> draws_ok random k.
Proof. intros Hk H i Hi. apply H. lia. Qed.

Lemma distinct_draws_le random n k :
  (k <= n)%nat -> distinct_draws random n -> distinct_draws random k.
Proof. intros Hk H i j Hi Hj. apply H; lia. Qed.

Lemma catalogue_draws_ok_8 : draws_ok Catalogue.random 8.
Proof. intros i Hi. do 8 (destruct i as [|i]; [reflexivity|]). lia. Qed.

Lemma catalogue_distinct_draws_8 : distinct_draws Catalogue.random 8.
Proof.
  intros i j Hi Hj Hij.
  do 8 (destruct i as [|i]; [do 8 (destruct j as [|j]; [done || reflexivity|]); lia|]).
  lia.
Qed.

Lemma search_top_k_witness :
  exists res rest,
    search Catalogue.random Catalogue.conn Catalogue.query "all" 2 = Ok res /\
    length res = Nat.min (Z.to_nat 2) (length catalogue_scored) /\
    desc_sorted score res /\
    res ++ rest ≡ₚ catalogue_scored /\
    forall o r, o ∈ res -> r ∈ rest -> PrimFloat.leb (score r) (score o) = true.
Proof.
  apply (search_top_k Catalogue.random Catalogue.conn Catalogue.query "all" 2
           catalogue_scored).
  - lia.
  - vm_compute. reflexivity.
  - repeat constructor.
  - apply (draws_ok_le _ 8); [vm_compute; lia|apply catalogue_draws_ok_8].
  - apply (distinct_draws_le _ 8); [vm_compute; lia|apply catalogue_distinct_draws_8].
Defined.

Lemma search_similar_top_k_witness :
  exists res rest,
    search_similar Catalogue.random Catalogue.conn 1 "all" 2 = Ok res /\
    length res = Nat.min (Z.to_nat 2) (length catalogue_scored_similar) /\
    desc_sorted score res /\
    res ++ rest ≡ₚ catalogue_scored_similar /\
    forall o r, o ∈ res -> r ∈ rest -> PrimFloat.leb (score r) (score o) = true.
Proof.
  apply (search_similar_top_k Catalogue.random Catalogue.conn 1 "all" 2
           catalogue_scored_similar).
  - lia.
  - vm_compute. reflexivity.
  - repeat constructor.
  - apply (draws_ok_le _ 8); [vm_compute; lia|apply catalogue_draws_ok_8].
  - apply (distinct_draws_le _ 8); [vm_compute; lia|apply catalogue_distinct_draws_8].
Defined.

Example catalogue_scored_games :
  map appid catalogue_scored = [1; 2; 3; 5; 1; 2; 5] /\
  map appid catalogue_scored_similar = [2; 3; 5; 2; 5].
Proof. split; reflexivity. Qed.

(** ** The exhaustive rankers: size and provenance of the result *)

Lemma foldM_add_length {B} random (score_of : B -> result Match) max_length l st st' :
  foldM (fun st x => m ← score_of x; add_to_heap random st m max_length) l st = Ok st' ->
  (length st.1 <= Z.to_nat max_length)%nat ->
  (length st'.1 <= Z.to_nat max_length)%nat.
Proof.
  apply (foldM_invariant (fun st : collector => (length st.1 <= Z.to_nat max_length)%nat)).
  intros s x s' _. destruct (score_of x) as [m|]; simpl; [|done].
  apply add_to_heap_length.
Qed.

Lemma drain_length heap : length (drain heap) = length heap.
Proof. unfold drain. by rewrite length_map, sorted_desc_length. Qed.

(** X3: whatever the embeddings, the scores and the draws, a list that
    [search] or [search_similar] returns has at most [max_results] items,
    and none when [max_results] is negative. *)
Theorem exhaustive_result_bounded (random : nat -> float) (conn : Conn)
    (query_for_type : string) (max_results : Z) :
  (forall query_embed res,
     search random conn query_embed query_for_type max_results = Ok res ->
     (length res <= Z.to_nat max_results)%nat) /\
  (forall query_appid res,
     search_similar random conn query_appid query_for_type max_results = Ok res ->
     (length res <= Z.to_nat max_results)%nat).
Proof.
  split.
  - intros q res. rewrite search_stages.
    match goal with
    | |- (?stage1 ≫= _) = _ -> _ =>
        assert (H1 : forall st1, stage1 = Ok st1 ->
                       (length st1.1 <= Z.to_nat max_results)%nat);
        [|destruct stage1 as [st1|]; simpl; [specialize (H1 _ eq_refl)|done]]
    end.
    { intros st1. destruct (requested _ _); [|intros [= <-]; simpl; lia].
      intros H. apply (foldM_add_length _ _ _ _ _ _ H). simpl. lia. }
    match goal with
    | |- (?stage2 ≫= _) = _ -> _ =>
        assert (H2 : forall st2, stage2 = Ok st2 ->
                       (length st2.1 <= Z.to_nat max_results)%nat);
        [|destruct stage2 as [st2|]; simpl; [specialize (H2 _ eq_refl)|done]]
    end.
    { intros st2. destruct (requested _ _); [|by intros [= <-]].
      intros H. by apply (foldM_add_length _ _ _ _ _ _ H). }
    intros [= <-]. by rewrite drain_length.
  - intros x res. rewrite search_similar_stages.
    match goal with
    | |- (?stage1 ≫= _) = _ -> _ =>
        assert (H1 : forall st1, stage1 = Ok st1 ->
                       (length st1.1 <= Z.to_nat max_results)%nat);
        [|destruct stage1 as [st1|]; simpl; [specialize (H1 _ eq_refl)|done]]
    end.
    { intros st1. destruct (requested _ _); [|intros [= <-]; simpl; lia].
      destruct (mean_pooling _) as [qd|]; simpl; [|done].
      intros H. apply (foldM_add_length _ _ _ _ _ _ H). simpl. lia. }
    match goal with
    | |- (?stage2 ≫= _) = _ -> _ =>
        assert (H2 : forall st2, stage2 = Ok st2 ->
                       (length st2.1 <= Z.to_nat max_results)%nat);
        [|destruct stage2 as [st2|]; simpl; [specialize (H2 _ eq_refl)|done]]
    end.
    { intros st2. destruct (requested _ _); [|by intros [= <-]].
      destruct (mean_pooling _) as [qr|]; simpl; [|done].
      intros H. by apply (foldM_add_length _ _ _ _ _ _ H). }
    intros [= <-]. by rewrite drain_length.
Qed.

Lemma exhaustive_result_bounded_witness :
  (exists res,
     search Catalogue.random Catalogue.conn Catalogue.query "all" 2 = Ok res /\
     map appid res = [3; 1] /\ (length res <= Z.to_nat 2)%nat) /\
  search Catalogue.random Catalogue.conn Catalogue.query "all" (-3) = Ok [].
Proof.
  split; [|vm_compute; reflexivity].
  eexists. split; [vm_compute; reflexivity|]. split; [reflexivity|].
  eapply (proj1 (exhaustive_result_bounded Catalogue.random Catalogue.conn "all" 2)
            Catalogue.query).
  vm_compute. reflexivity.
Defined.

Lemma foldM_add_items {B} random (score_of : B -> result Match) max_length
    (P : Match -> Prop) l st st' :
  (forall x m, x ∈ l -> score_of x = Ok m -> P m) ->
  foldM (fun st x => m ← score_of x; add_to_heap random st m max_length) l st = Ok st' ->
  (forall e, e ∈ st.1 -> P e.2) -> (forall e, e ∈ st'.1 -> P e.2).
Proof.
  intros HP.
  apply (foldM_invariant (fun st : collector => forall e, e ∈ st.1 -> P e.2)).
  intros s x s' Hx. destruct (score_of x) as [m|] eqn:E; simpl; [|done].
  intros Hadd Hs e He. apply (add_to_heap_items _ _ _ _ _ Hadd) in He.
  apply elem_of_cons in He as [->|He]; [by eapply HP|by apply Hs].
Qed.

(** X4: [search] lists nothing but scored candidates of the requested
    types: each match it returns is what the loop body makes of an item
    of a description page, or of a game with reviews. *)
Theorem search_lists_scored_candidates (random : nat -> float) (conn : Conn)
    (query_embed : ndarray) (query_for_type : string) (max_results : Z)
    (res : list Match) :
  search random conn query_embed query_for_type max_results = Ok res ->
  forall m, m ∈ res -> from_store conn query_embed query_embed query_for_type m.
Proof.
  rewrite search_stages.
  set (P := from_store conn query_embed query_embed query_for_type).
  match goal with
  | |- (?stage1 ≫= _) = _ -> _ =>
      assert (H1 : forall st1, stage1 = Ok st1 -> forall e, e ∈ st1.1 -> P e.2);
      [|destruct stage1 as [st1|]; simpl; [specialize (H1 _ eq_refl)|done]]
  end.
  { intros st1. destruct (requested query_for_type "description") eqn:Hreq.
    - intros H. eapply (foldM_add_items random _ max_results P); [|exact H|].
      + intros c m Hc Hm. left. split; [done|]. eauto.
      + intros e He. by apply elem_of_nil in He.
    - intros [= <-] e He. by apply elem_of_nil in He. }
  match goal with
  | |- (?stage2 ≫= _) = _ -> _ =>
      assert (H2 : forall st2, stage2 = Ok st2 -> forall e, e ∈ st2.1 -> P e.2);
      [|destruct stage2 as [st2|]; simpl; [specialize (H2 _ eq_refl)|done]]
  end.
  { intros st2. destruct (requested query_for_type "review") eqn:Hreq.
    - intros H. eapply (foldM_add_items random _ max_results P); [|exact H|done].
      intros a m Ha Hm. right. split; [done|]. eauto.
    - by intros [= <-]. }
  intros [= <-] m (e & He & ->)%drain_items. by apply H2.
Qed.

Lemma search_lists_scored_candidates_witness :
  exists res,
    search Catalogue.random Catalogue.conn Catalogue.query "description" 2 = Ok res /\
    map appid res = [3; 1] /\
    forall m, m ∈ res ->
      from_store Catalogue.conn Catalogue.query Catalogue.query "description" m.
Proof.
  eexists. split; [vm_compute; reflexivity|]. split; [reflexivity|].
  apply (search_lists_scored_candidates Catalogue.random Catalogue.conn
           Catalogue.query "description" 2).
  vm_compute. reflexivity.
Defined.

(** ** The index rankers: provenance, unknown types, full answers *)

Lemma text_matches_from_index ix conn q k kind ls ds m :
  knn_query ix q k = Ok (ls, ds) ->
  m ∈ text_matches conn kind ls ds -> from_index ix conn q k kind m.
Proof.
  intros Hq (p & <- & Hp)%list_elem_of_In%in_map_iff. destruct p as [a d].
  exists ls, ds, a, d. split; [done|]. split; [by apply list_elem_of_In|done].
Qed.

Lemma similar_matches_from_index ix conn q k x kind ls ds m :
  knn_query ix q k = Ok (ls, ds) ->
  m ∈ similar_matches conn x kind ls ds -> from_index ix conn q k kind m.
Proof.
  intros Hq ([a d] & Hp & Hm)%list_elem_of_In%in_flat_map.
  destruct (a =? x); simpl in Hm; [done|]. destruct Hm as [<-|[]].
  exists ls, ds, a, d. split; [done|]. split; [by apply list_elem_of_In|done].
Qed.

(** X5: [index_search] lists nothing but neighbours that an index of a
    requested type returned for this query and this count, each with the
    stored name of its game, the type of that index and the score
    [1.0 - distance]. *)
Theorem index_search_lists_neighbours (description_index review_index : Index)
    (conn : Conn) (query : ndarray) (query_for_type : string) (max_results : Z)
    (res : list Match) :
  index_search description_index review_index conn query query_for_type max_results
    = Ok res ->
  forall m, m ∈ res ->
    (requested query_for_type "description" = true /\
     from_index description_index conn query max_results "description" m) \/
    (requested query_for_type "review" = true /\
     from_index review_index conn query max_results "review" m).
Proof.
  rewrite index_search_unfold. unfold ranked_by_text.
  destruct (requested query_for_type "description") eqn:Hd;
    [destruct (knn_query description_index query max_results) as [[ls ds]|] eqn:Ed;
     simpl; [|done]|simpl];
    (destruct (requested query_for_type "review") eqn:Hr;
     [destruct (knn_query review_index query max_results) as [[ls' ds']|] eqn:Er;
      simpl; [|done]|simpl]);
    intros [= <-] m Hm; apply slice_to_subseteq in Hm;
    try rewrite sorted_desc_perm in Hm;
    try (by apply elem_of_nil in Hm);
    try (apply elem_of_app in Hm as [Hm|Hm]);
    try (by apply elem_of_nil in Hm);
    first [left; split; [done|]; by eapply text_matches_from_index
          |right; split; [done|]; by eapply text_matches_from_index].
Qed.


Lemma index_search_lists_neighbours_witness :
  exists res,
    index_search Catalogue.description_index Catalogue.review_index Catalogue.conn
      Catalogue.query "review" 2 = Ok res /\
    map appid res = [1; 5] /\
    forall m, m ∈ res ->
      (requested "review" "description" = true /\
       from_index Catalogue.description_index Catalogue.conn Catalogue.query 2
         "description" m) \/
      (requested "review" "review" = true /\
       from_index Catalogue.review_index Catalogue.conn Catalogue.query 2 "review" m).
Proof.
  eexists. split; [vm_compute; reflexivity|]. split; [reflexivity|].
  apply (index_search_lists_neighbours Catalogue.description_index
           Catalogue.review_index Catalogue.conn Catalogue.query "review" 2).
  vm_compute. reflexivity.
Defined.

(** X6: [index_search_similar] lists nothing but neighbours of the means
    of the game's own embeddings, asked of the indexes of the requested
    types with the count [max_results + 1]. *)
Theorem index_search_similar_lists_neighbours (description_index review_index : Index)
    (conn : Conn) (query_appid : Z) (query_for_type : string) (max_results : Z)
    (res : list Match) :
  index_search_similar description_index review_index conn query_appid
    query_for_type max_results = Ok res ->
  forall m, m ∈ res ->
    (requested query_for_type "description" = true /\
     exists q,
       mean_pooling (get_description_embeddings_for_appid conn query_appid) = Ok q /\
       from_index description_index conn q (max_results + 1) "description" m) \/
    (requested query_for_type "review" = true /\
     exists q,
       mean_pooling
         (concat (map snd (get_review_embeddings_for_appid conn query_appid))) = Ok q /\
       from_index review_index conn q (max_results + 1) "review" m).
Proof.
  rewrite index_search_similar_unfold. unfold ranked_by_entity.
  destruct (requested query_for_type "description") eqn:Hd;
    [destruct (mean_pooling (get_description_embeddings_for_appid conn query_appid))
       as [qd|] eqn:Eqd; simpl; [|done];
     destruct (knn_query description_index qd (max_results + 1)) as [[ls ds]|] eqn:Ed;
     simpl; [|done]|simpl];
    (destruct (requested query_for_type "review") eqn:Hr;
     [destruct (mean_pooling (concat _)) as [qr|] eqn:Eqr; simpl; [|done];
      destruct (knn_query review_index qr (max_results + 1)) as [[ls' ds']|] eqn:Er;
      simpl; [|done]|simpl]);
    intros [= <-] m Hm; apply slice_to_subseteq in Hm;
    try rewrite sorted_desc_perm in Hm;
    try (by apply elem_of_nil in Hm);
    try (apply elem_of_app in Hm as [Hm|Hm]);
    try (by apply elem_of_nil in Hm);
    first [left; split; [done|]; eexists; split; [done|];
           by eapply similar_matches_from_index
          |right; split; [done|]; eexists; split; [done|];
           by eapply similar_matches_from_index].
Qed.

Lemma index_search_similar_lists_neighbours_witness :
  exists res,
    index_search_similar Catalogue.description_index Catalogue.review_index
      Catalogue.conn 1 "description" 2 = Ok res /\
    map appid res = [5; 3] /\
    forall m, m ∈ res ->
      (requested "description" "description" = true /\
       exists q,
         mean_pooling (get_description_embeddings_for_appid Catalogue.conn 1) = Ok q /\
         from_index Catalogue.description_index Catalogue.conn q (2 + 1)
           "description" m) \/
      (requested "description" "review" = true /\
       exists q,
         mean_pooling
           (concat (map snd (get_review_embeddings_for_appid Catalogue.conn 1))) = Ok q /\
         from_index Catalogue.review_index Catalogue.conn q (2 + 1) "review" m).
Proof.
  eexists. split; [vm_compute; reflexivity|]. split; [reflexivity|].
  apply (index_search_similar_lists_neighbours Catalogue.description_index
           Catalogue.review_index Catalogue.conn 1 "description" 2).
  vm_compute. reflexivity.
Defined.

(** X7: a [query_for_type] other than "all", "description" and "review"
    makes [index_search] and [search] return the empty list, whatever the
    indexes, the store and the count: neither touches an index or the
    store for such a type. *)
Theorem unknown_type_lists_nothing (query_for_type : string) :
  query_for_type <> "all" -> query_for_type <> "description" ->
  query_for_type <> "review" ->
  (forall di ri conn query max_results,
     index_search di ri conn query query_for_type max_results = Ok []) /\
  (forall random conn query_embed max_results,
     search random conn query_embed query_for_type max_results = Ok []).
Proof.
  intros Ha%String.eqb_neq Hd%String.eqb_neq Hr%String.eqb_neq.
  assert (Hslice : forall n, slice_to (@nil Match) n = []).
  { intros n. destruct (slice_to_take (@nil Match) n) as [k ->]. by destruct k. }
  split; intros.
  - unfold index_search. rewrite Ha, Hd, Hr. simpl. by rewrite Hslice.
  - unfold search. by rewrite Ha, Hd, Hr.
Qed.

Lemma unknown_type_lists_nothing_witness :
  index_search Catalogue.description_index Catalogue.review_index Catalogue.conn
    Catalogue.query "reviews" 5 = Ok [] /\
  search Catalogue.random Catalogue.conn Catalogue.query "reviews" 5 = Ok [].
Proof.
  destruct (unknown_type_lists_nothing "reviews") as (H1 & H2);
    [discriminate..|].
  split; [apply H1|apply H2].
Defined.

Lemma filter_other_length (x : Z) (ls : list Z) :
  NoDup ls ->
  (length ls <= S (length (List.filter (fun a => negb (a =? x)%Z) ls)))%nat.
Proof.
  induction 1 as [|a ls Ha Hls IH]; simpl; [lia|].
  destruct (Z.eqb_spec a x) as [->|Hne]; simpl; [|lia].
  assert (Hall : List.filter (fun a => negb (a =? x)) ls = ls).
  { apply forallb_filter_id. apply forallb_forall. intros b Hb.
    apply negb_true_iff, Z.eqb_neq. intros ->. by apply Ha, list_elem_of_In. }
  rewrite Hall. lia.
Qed.

Lemma similar_matches_length conn x kind ls ds :
  length ls = length ds ->
  length (similar_matches conn x kind ls ds) =
  length (List.filter (fun a => negb (a =? x)) ls).
Proof.
  unfold similar_matches. revert ds.
  induction ls as [|a ls IH]; intros [|d ds] Hlen; simpl in *; try done.
  destruct (a =? x); simpl; rewrite IH by lia; done.
Qed.

Lemma ranked_by_entity_in_full ix conn emb x kind qt n :
  0 <= n -> requested qt kind = true -> answers_in_full ix emb n ->
  exists l, ranked_by_entity ix conn emb x kind qt n = Ok l /\
            (Z.to_nat n <= length l)%nat.
Proof.
  intros Hn Hreq (q & ls & ds & Hq & Hk & Hnd & Hls & Hds).
  unfold ranked_by_entity. rewrite Hreq, Hq, bind_Ok, Hk, bind_Ok.
  eexists. split; [done|].
  rewrite similar_matches_length by lia.
  pose proof (filter_other_length x ls Hnd). lia.
Qed.

(** X8: the neighbour more that [index_search_similar] asks for makes up
    for the game itself: when each index of a requested type returns
    [max_results + 1] neighbours, each label once, the result has exactly
    [max_results] matches, the game being among the neighbours or not. *)
Theorem index_search_similar_full_count (description_index review_index : Index)
    (conn : Conn) (query_appid : Z) (query_for_type : string) (max_results : Z) :
  0 <= max_results ->
  requested query_for_type "description" = true \/
  requested query_for_type "review" = true ->
  (requested query_for_type "description" = true ->
   answers_in_full description_index
     (get_description_embeddings_for_appid conn query_appid) max_results) ->
  (requested query_for_type "review" = true ->
   answers_in_full review_index
     (concat (map snd (get_review_embeddings_for_appid conn query_appid)))
     max_results) ->
  exists res,
    index_search_similar description_index review_index conn query_appid
      query_for_type max_results = Ok res /\
    length res = Z.to_nat max_results.
Proof.
  intros Hn Hsome Hd Hr. rewrite index_search_similar_unfold.
  assert (Hpd : exists pd,
    ranked_by_entity description_index conn
      (get_description_embeddings_for_appid conn query_appid)
      query_appid "description" query_for_type max_results = Ok pd /\
    (requested query_for_type "description" = true ->
     (Z.to_nat max_results <= length pd)%nat)).
  { destruct (requested query_for_type "description") eqn:E.
    - destruct (ranked_by_entity_in_full description_index conn _ query_appid
                  "description" query_for_type max_results Hn E (Hd eq_refl))
        as (l & Hl & Hlen). eauto.
    - exists []. split; [|done]. unfold ranked_by_entity. by rewrite E. }
  assert (Hpr : exists pr,
    ranked_by_entity review_index conn
      (concat (map snd (get_review_embeddings_for_appid conn query_appid)))
      query_appid "review" query_for_type max_results = Ok pr /\
    (requested query_for_type "review" = true ->
     (Z.to_nat max_results <= length pr)%nat)).
  { destruct (requested query_for_type "review") eqn:E.
    - destruct (ranked_by_entity_in_full review_index conn _ query_appid
                  "review" query_for_type max_results Hn E (Hr eq_refl))
        as (l & Hl & Hlen). eauto.
    - exists []. split; [|done]. unfold ranked_by_entity. by rewrite E. }
  destruct Hpd as (pd & -> & Hlpd), Hpr as (pr & -> & Hlpr). rewrite !bind_Ok.
  eexists. split; [done|].
  rewrite slice_to_nonneg, length_take, sorted_desc_length, length_app by done.
  destruct Hsome as [H|H]; [specialize (Hlpd H)|specialize (Hlpr H)]; lia.
Qed.

Lemma catalogue_description_in_full :
  answers_in_full Catalogue.description_index
    (get_description_embeddings_for_appid Catalogue.conn 1) 2.
Proof.
  exists (array1 [1; 0]%float), [1; 5; 3], [0; 0.25; 0.5]%float.
  split; [reflexivity|]. split; [reflexivity|].
  split; [apply (bool_decide_unpack _); by vm_compute|]. split; reflexivity.
Qed.

Lemma index_search_similar_full_count_witness :
  exists res,
    index_search_similar Catalogue.description_index Catalogue.review_index
      Catalogue.conn 1 "description" 2 = Ok res /\
    length res = Z.to_nat 2.
Proof.
  apply (index_search_similar_full_count Catalogue.description_index
           Catalogue.review_index Catalogue.conn 1 "description" 2).
  - lia.
  - left. reflexivity.
  - intros _. apply catalogue_description_in_full.
  - discriminate.
Defined.

(** ** The numeric helpers *)

Lemma cosine_similarity_arrays u v :
  length u = length v ->
  cosine_similarity (array1 u) (array1 v) = Ok (scalar (cosine1 u v)).
Proof.
  intros H. unfold cosine_similarity, np_dot. by rewrite H, Nat.eqb_refl.
Qed.

Lemma mapM_cosine embeddings v :
  Forall (fun e => length e = length v) embeddings ->
  mapM (fun embedding => cosine_similarity (array1 embedding) (array1 v)) embeddings =
  Ok (map (fun e => scalar (cosine1 e v)) embeddings).
Proof.
  induction 1 as [|e es He Hes IH]; simpl; [done|].
  by rewrite cosine_similarity_arrays, IH.
Qed.

Lemma max_from_scalars c xs :
  max_from (scalar c) (map scalar xs) = Ok (scalar (fold_left pick_max xs c)).
Proof.
  revert c. induction xs as [|x xs IH]; intros c; simpl; [done|].
  unfold pick_max at 2. destruct (PrimFloat.ltb c x); apply IH.
Qed.

Lemma fold_pick_max_elem xs c : fold_left pick_max xs c ∈ c :: xs.
Proof.
  revert c. induction xs as [|x xs IH]; intros c; simpl; [by left|].
  specialize (IH (pick_max c x)). apply elem_of_cons in IH as [->|IH].
  - unfold pick_max. destruct (PrimFloat.ltb c x); [right|]; by left.
  - right. by right.
Qed.

Lemma fold_pick_max_ge xs c :
  F64.notnan c -> Forall F64.notnan xs ->
  forall x, x ∈ c :: xs -> PrimFloat.leb x (fold_left pick_max xs c) = true.
Proof.
  intros Hc Hxs. revert c Hc.
  induction Hxs as [|y xs Hy Hxs IH]; intros c Hc x Hx; simpl.
  - apply elem_of_cons in Hx as [->|Hx]; [by apply F64Facts.leb_refl|].
    by apply elem_of_nil in Hx.
  - assert (Hp : F64.notnan (pick_max c y))
      by (unfold pick_max; by destruct (PrimFloat.ltb c y)).
    assert (Hcp : PrimFloat.leb c (pick_max c y) = true).
    { unfold pick_max. destruct (PrimFloat.ltb c y) eqn:E.
      - by apply F64Facts.ltb_leb.
      - by apply F64Facts.leb_refl. }
    assert (Hyp : PrimFloat.leb y (pick_max c y) = true).
    { unfold pick_max. destruct (PrimFloat.ltb c y) eqn:E.
      - by apply F64Facts.leb_refl.
      - rewrite F64Facts.ltb_negb_leb in E by done. by apply negb_false_iff in E. }
    apply elem_of_cons in Hx as [->|Hx].
    + eapply F64Facts.leb_trans; [exact Hcp|]. apply IH; [done|by left].
    + apply elem_of_cons in Hx as [->|Hx].
      * eapply F64Facts.leb_trans; [exact Hyp|]. apply IH; [done|by left].
      * apply IH; [done|by right].
Qed.

(** X9: over embeddings of the dimension of the query, at least one of
    them, [compare_all_embeddings_take_max] returns the cosine of one of
    the embeddings, and no embedding has a greater cosine when the
    cosines are numbers. *)
Theorem take_max_is_greatest_cosine (e0 : list float) (embeddings : list (list float))
    (v : list float) :
  Forall (fun e => length e = length v) (e0 :: embeddings) ->
  exists m,
    compare_all_embeddings_take_max (e0 :: embeddings) (array1 v) = Ok (scalar m) /\
    (exists e, e ∈ e0 :: embeddings /\ m = cosine1 e v) /\
    (Forall (fun e => F64.notnan (cosine1 e v)) (e0 :: embeddings) ->
     forall e, e ∈ e0 :: embeddings -> PrimFloat.leb (cosine1 e v) m = true).
Proof.
  intros Hdim. unfold compare_all_embeddings_take_max.
  rewrite (mapM_cosine _ _ Hdim), bind_Ok. cbn [map py_max].
  rewrite <- (map_map (fun e => cosine1 e v) scalar), max_from_scalars.
  eexists. split; [done|]. split.
  - pose proof (fold_pick_max_elem (map (fun e => cosine1 e v) embeddings)
                  (cosine1 e0 v)) as Hin.
    rewrite <- (map_cons (fun e => cosine1 e v)) in Hin.
    apply list_elem_of_In, in_map_iff in Hin as (e & He & Hin).
    exists e. split; [by apply list_elem_of_In|done].
  - intros Hnum e He. inversion_clear Hnum as [|? ? H0 Hrest].
    apply fold_pick_max_ge; [done| |].
    + apply Forall_forall. intros x (e' & <- & He')%list_elem_of_In%in_map_iff.
      rewrite Forall_forall in Hrest. by apply Hrest, list_elem_of_In.
    + rewrite <- (map_cons (fun e => cosine1 e v)).
      apply list_elem_of_In, (in_map (fun e => cosine1 e v)). by apply list_elem_of_In.
Qed.

Lemma take_max_is_greatest_cosine_witness :
  exists m,
    compare_all_embeddings_take_max [[0; 1]; [1; 0]]%float (array1 [1; 0]%float) =
      Ok (scalar m) /\
    (exists e, e ∈ [[0; 1]; [1; 0]]%float /\ m = cosine1 e [1; 0]%float) /\
    (Forall (fun e => F64.notnan (cosine1 e [1; 0]%float)) [[0; 1]; [1; 0]]%float ->
     forall e, e ∈ [[0; 1]; [1; 0]]%float ->
       PrimFloat.leb (cosine1 e [1; 0]%float) m = true).
Proof.
  apply (take_max_is_greatest_cosine [0; 1]%float [[1; 0]]%float [1; 0]%float).
  repeat constructor.
Defined.

(** X10: over no embedding [compare_all_embeddings_take_max] raises
    [ValueError], and so does [search] as soon as a description page has
    a game without embeddings, whatever comes after it. *)
Theorem search_raises_on_empty_description (random : nat -> float) (conn : Conn)
    (query_embed : ndarray) (query_for_type : string) (max_results : Z)
    (appid : Z) (before after : list (Z * list (list float))) (items : list Match) :
  requested query_for_type "description" = true ->
  concat (get_paginated_embeddings_for_descriptions conn) =
    before ++ (appid, []) :: after ->
  mapM (score_description conn query_embed) before = Ok items ->
  (exists st, offer_all random max_results items ([], O) = Ok st) ->
  compare_all_embeddings_take_max [] query_embed = Raise ValueError /\
  search random conn query_embed query_for_type max_results = Raise ValueError.
Proof.
  intros Hreq Hpages Hbefore [st Hst]. split; [done|].
  rewrite search_stages, Hreq, Hpages, foldM_app.
  rewrite (foldM_mapM _ _ _ items) by done.
  unfold offer_all in Hst. by rewrite Hst.
Qed.

Lemma search_raises_on_empty_description_witness :
  compare_all_embeddings_take_max [] Catalogue.query = Raise ValueError /\
  search Catalogue.random Catalogue.conn_empty Catalogue.query "all" 5 =
    Raise ValueError.
Proof.
  apply (search_raises_on_empty_description Catalogue.random Catalogue.conn_empty
           Catalogue.query "all" 5 7 [(1, [[1; 0]]%float)] [(2, [[0; 1]]%float)]
           [mkMatch 1 "Game" "description" 1]).
  - reflexivity.
  - reflexivity.
  - reflexivity.
  - eexists. vm_compute. reflexivity.
Defined.

(** X11: [mean_pooling] raises nothing but [ValueError], and raises it
    exactly when two of the vectors have different lengths; what it
    returns for vectors of one length, at least one of them, is an array
    of that length. *)
Theorem mean_pooling_errors :
  (forall rows r1 r2, r1 ∈ rows -> r2 ∈ rows -> length r1 <> length r2 ->
     mean_pooling rows = Raise ValueError) /\
  (forall rows e, mean_pooling rows = Raise e ->
     e = ValueError /\
     exists r1 r2, r1 ∈ rows /\ r2 ∈ rows /\ length r1 <> length r2) /\
  (forall v rows q, mean_pooling (v :: rows) = Ok q ->
     exists w, q = array1 w /\ length w = length v).
Proof.
  split; [|split].
  - intros [|r rest] r1 r2 H1 H2 Hne; [by apply elem_of_nil in H1|].
    unfold mean_pooling, np_sum_axis0.
    destruct (forallb _ rest) eqn:Hall; [|done]. exfalso.
    rewrite forallb_forall in Hall.
    assert (Hlen : forall x, x ∈ r :: rest -> length x = length r).
    { intros x [->|Hx]%elem_of_cons; [done|].
      by apply Nat.eqb_eq, Hall, list_elem_of_In. }
    apply Hne. by rewrite (Hlen r1), (Hlen r2).
  - intros [|r rest] e; [done|]. unfold mean_pooling, np_sum_axis0.
    destruct (forallb _ rest) eqn:Hall; [done|]. simpl. intros [= <-].
    split; [done|].
    assert (Hex : existsb (fun r' => negb (length r' =? length r)%nat) rest = true).
    { clear -Hall. induction rest as [|x rest IH]; simpl in *; [done|].
      destruct (length x =? length r)%nat; simpl in *; [by apply IH|done]. }
    apply existsb_exists in Hex as (x & Hx & Hne).
    exists x, r. split; [right; by apply list_elem_of_In|]. split; [by left|].
    by apply negb_true_iff, Nat.eqb_neq in Hne.
  - intros v rows q. unfold mean_pooling, np_sum_axis0.
    destruct (forallb _ rows) eqn:Hall; [|done].
    destruct (Nat.eqb_spec (length v) 1) as [Hone|Hmore]; simpl; intros [= <-].
    + eexists. split; [done|]. simpl. lia.
    + eexists. split; [done|]. rewrite length_map.
      change (length (fold_left (zip_with PrimFloat.add) (v :: rows)
                        (replicate (length v) 0%float)) = length v).
      rewrite sum_rows_from_zeros.
      * by rewrite length_map, length_seq.
      * constructor; [done|]. apply Forall_forall. intros x Hx.
        rewrite forallb_forall in Hall.
        by apply Nat.eqb_eq, Hall, list_elem_of_In.
Qed.

Lemma mean_pooling_errors_witness :
  mean_pooling [[1; 2]; [3]]%float = Raise ValueError /\
  exists w, Ok (array1 [2; 3.5]%float) = Ok (array1 w) /\ length w = 2%nat.
Proof.
  destruct mean_pooling_errors as (Hragged & _ & Hdim). split.
  - apply (Hragged _ [1; 2]%float [3]%float); [by left|right; by left|discriminate].
  - destruct (Hdim [1; 2]%float [[3; 5]]%float (array1 [2; 3.5]%float) eq_refl)
      as (w & Hw & Hlen).
    exists w. split; [by rewrite Hw|exact Hlen].
Defined.

(** ** Cosine similarity is symmetric *)

Module MulFacts.

Lemma SFmul_comm x y : SF64mul x y = SF64mul y x.
Proof.
  unfold SF64mul, SFmul.
  destruct x as [sx|sx| |sx mx ex], y as [sy|sy| |sy my ey];
    rewrite ?(xorb_comm sx sy); try reflexivity.
  by rewrite (Pos.mul_comm mx my), (Z.add_comm ex ey).
Qed.

Lemma mul_comm x y : (x * y)%float = (y * x)%float.
Proof. apply Prim2SF_inj. rewrite !mul_spec. apply SFmul_comm. Qed.

Lemma dot1_comm u v : dot1 u v = dot1 v u.
Proof.
  unfold dot1. generalize 0%float. revert v.
  induction u as [|x u IH]; intros [|y v] acc; simpl; try done.
  rewrite (mul_comm x y). apply IH.
Qed.

End MulFacts.

(** X12: [cosine_similarity] does not depend on the order of its
    arguments: the two calls return the same value, NaN included, or
    raise the same error.  On arrays it raises exactly when their lengths
    differ, and then [ValueError]. *)
Theorem cosine_similarity_symmetric :
  (forall a b, cosine_similarity a b = cosine_similarity b a) /\
  (forall u v, length u <> length v ->
     cosine_similarity (array1 u) (array1 v) = Raise ValueError) /\
  (forall a b e, cosine_similarity a b = Raise e ->
     e = ValueError /\
     exists u v, a = array1 u /\ b = array1 v /\ length u <> length v).
Proof.
  split; [|split].
  - intros a b. unfold cosine_similarity.
    rewrite (MulFacts.mul_comm (np_linalg_norm a) (np_linalg_norm b)).
    assert (Hdot : np_dot a b = np_dot b a).
    { destruct a as [x|u], b as [y|v]; simpl.
      - by rewrite MulFacts.mul_comm.
      - f_equal. f_equal. apply map_ext. intros z. apply MulFacts.mul_comm.
      - f_equal. f_equal. apply map_ext. intros z. apply MulFacts.mul_comm.
      - rewrite (Nat.eqb_sym (length u) (length v)), MulFacts.dot1_comm. done. }
    by rewrite Hdot.
  - intros u v Hne. unfold cosine_similarity, np_dot.
    by rewrite (proj2 (Nat.eqb_neq _ _) Hne).
  - intros a b e. unfold cosine_similarity.
    destruct a as [x|u], b as [y|v]; simpl; try done.
    destruct (Nat.eqb_spec (length u) (length v)); simpl; [done|].
    intros [= <-]. split; [done|]. eauto.
Qed.

Lemma cosine_similarity_symmetric_witness :
  cosine_similarity (array1 [1; 2]%float) (array1 [3]%float) = Raise ValueError /\
  cosine_similarity (array1 [0.75; 0.5]%float) (array1 [1; 0]%float) =
  cosine_similarity (array1 [1; 0]%float) (array1 [0.75; 0.5]%float).
Proof.
  destruct cosine_similarity_symmetric as (Hsym & Hraise & _). split.
  - apply Hraise. discriminate.
  - apply Hsym.
Defined.

(** X13: [index_search] raises only what an index raises: the error of
    the description index when that type is requested and its query
    fails, else the error of the review index; it returns a list exactly
    when every requested index answers. *)
Theorem index_search_errors (description_index review_index : Index) (conn : Conn)
    (query : ndarray) (query_for_type : string) (max_results : Z) :
  (forall e, requested query_for_type "description" = true ->
     knn_query description_index query max_results = Raise e ->
     index_search description_index review_index conn query query_for_type
       max_results = Raise e) /\
  (forall e, requested query_for_type "review" = true ->
     (requested query_for_type "description" = true ->
      exists a, knn_query description_index query max_results = Ok a) ->
     knn_query review_index query max_results = Raise e ->
     index_search description_index review_index conn query query_for_type
       max_results = Raise e) /\
  (forall e,
     index_search description_index review_index conn query query_for_type
       max_results = Raise e ->
     (requested query_for_type "description" = true /\
      knn_query description_index query max_results = Raise e) \/
     (requested query_for_type "review" = true /\
      knn_query review_index query max_results = Raise e)).
Proof.
  rewrite index_search_unfold. unfold ranked_by_text.
  split; [|split].
  - intros e -> ->. done.
  - intros e -> Hd ->.
    destruct (requested query_for_type "description"); [|done].
    destruct (Hd eq_refl) as [[ls ds] ->]. done.
  - intros e.
    destruct (requested query_for_type "description");
      [destruct (knn_query description_index query max_results) as [[ls ds]|e1];
       simpl; [|intros [= <-]; by left]|simpl];
      (destruct (requested query_for_type "review");
       [destruct (knn_query review_index query max_results) as [[ls' ds']|e2];
        simpl; [done|intros [= <-]; by right]|done]).
Qed.

Lemma index_search_errors_witness :
  index_search Catalogue.description_index Catalogue.review_index Catalogue.conn
    Catalogue.query "all" 4 = Raise RuntimeError.
Proof.
  destruct (index_search_errors Catalogue.description_index Catalogue.review_index
              Catalogue.conn Catalogue.query "all" 4) as (_ & Hreview & _).
  apply Hreview; [reflexivity| |reflexivity].
  intros _. eexists. reflexivity.
Defined.

(** ** The routes *)

Lemma num_results_of_range py_int arg n :
  num_results_of py_int arg = Ok n -> 0 <= n <= 100.
Proof.
  unfold num_results_of.
  destruct arg as [s|]; [destruct (py_int s)|]; simpl; [|done|];
    intros [= <-]; lia.
Qed.

Lemma index_search_length di ri conn q qt n res :
  0 <= n -> index_search di ri conn q qt n = Ok res ->
  (length res <= Z.to_nat n)%nat.
Proof.
  intros Hn. rewrite index_search_unfold.
  destruct (ranked_by_text di _ _ _ _ _) as [pd|]; simpl; [|done].
  destruct (ranked_by_text ri _ _ _ _ _) as [pr|]; simpl; [|done].
  intros [= <-]. rewrite slice_to_nonneg, length_take by done. lia.
Qed.

Lemma index_search_similar_length di ri conn x qt n res :
  0 <= n -> index_search_similar di ri conn x qt n = Ok res ->
  (length res <= Z.to_nat n)%nat /\ forall m, m ∈ res -> appid m <> x.
Proof.
  intros Hn. rewrite index_search_similar_unfold.
  destruct (ranked_by_entity di _ _ _ _ _ _) as [pd|] eqn:Ed; simpl; [|done].
  destruct (ranked_by_entity ri _ _ _ _ _ _) as [pr|] eqn:Er; simpl; [|done].
  intros [= <-]. split.
  - rewrite slice_to_nonneg, length_take by done. lia.
  - intros m Hm. apply slice_to_subseteq in Hm.
    rewrite sorted_desc_perm in Hm. apply elem_of_app in Hm as [Hm|Hm].
    + eapply ranked_by_entity_exclude; [exact Ed|exact Hm].
    + eapply ranked_by_entity_exclude; [exact Er|exact Hm].
Qed.

Section HandlerFacts.

Variable py_int : string -> result Z.
Variable json_dumps : list Match -> string.
Variable instructor_model : Instructor.
Variables description_index review_index : Index.

Local Abbreviation text_route :=
  (get_query_results py_int json_dumps instructor_model description_index review_index).
Local Abbreviation similar_route :=
  (get_similar_games py_int json_dumps description_index review_index).
Local Abbreviation any_route :=
  (get_results py_int json_dumps instructor_model description_index review_index).

Lemma get_query_results_cases args conn instr instr' r :
  text_route args conn instr = (instr', Ok r) ->
  let type := match args !! "type" with None => "all" | Some t => t end in
  let instruction :=
    match args !! "instruction" with None => default_instruction | Some i => i end in
  (existsb (String.eqb type) known_types = false /\ instr' = instr /\
   r = bad_request "Invalid type, must be one of: all, description, review") \/
  (existsb (String.eqb type) known_types = true /\ instr' = instruction /\
   (r = bad_request "Query too long, shorten query or instruction" \/
    exists n q results,
      num_results_of py_int (args !! "num_results") = Ok n /\
      generate_embedding_for_query instructor_model instruction (args !! "query") = Ok q /\
      index_search description_index review_index conn q type n = Ok results /\
      (length results <= 100)%nat /\
      r = json_response json_dumps results)).
Proof.
  intros H type instruction. unfold get_query_results in H.
  fold type instruction in H.
  destruct (existsb (String.eqb type) known_types) eqn:Hknown; simpl in H.
  2: { injection H as <- <-. left. done. }
  right. split; [done|].
  destruct (num_results_of py_int (args !! "num_results")) as [n|] eqn:Hn; [|done].
  destruct (tokenize instructor_model instr (args !! "query")) as [toks|]; [|done].
  destruct (_ <? _).
  { injection H as <- <-. split; [done|]. by left. }
  destruct (generate_embedding_for_query _ _ _) as [q|] eqn:Hq; [|done].
  destruct (index_search _ _ _ _ _ _) as [results|] eqn:Hres; [|done].
  injection H as <- <-. split; [done|]. right.
  exists n, q, results. repeat split; try done.
  pose proof (num_results_of_range _ _ _ Hn).
  pose proof (index_search_length _ _ _ _ _ _ _ (proj1 H) Hres). lia.
Qed.

End HandlerFacts.

(** X14: every answer of [get_query_results] is one of three: for a type
    that is not known, the 400 response that names the types, given
    before [num_results] is converted and with the model's instruction as
    it was; else, with the instruction of the request set, the 400
    response for a query of too many tokens, or the JSON of what
    [index_search] returns for the embedding of the query, the type and
    the clamped count, at most 100 matches. *)
Theorem get_query_results_answers (py_int : string -> result Z)
    (json_dumps : list Match -> string) (instructor_model : Instructor)
    (description_index review_index : Index)
    (args : gmap string string) (conn : Conn) (instr : string) :
  let type := match args !! "type" with None => "all" | Some t => t end in
  let instruction :=
    match args !! "instruction" with None => default_instruction | Some i => i end in
  (existsb (String.eqb type) known_types = false ->
   get_query_results py_int json_dumps instructor_model description_index review_index
     args conn instr =
   (instr, Ok (bad_request "Invalid type, must be one of: all, description, review"))) /\
  (forall instr' r,
     get_query_results py_int json_dumps instructor_model description_index review_index
       args conn instr = (instr', Ok r) ->
     (existsb (String.eqb type) known_types = false /\ instr' = instr /\
      r = bad_request "Invalid type, must be one of: all, description, review") \/
     (existsb (String.eqb type) known_types = true /\ instr' = instruction /\
      (r = bad_request "Query too long, shorten query or instruction" \/
       exists n q results,
         num_results_of py_int (args !! "num_results") = Ok n /\
         generate_embedding_for_query instructor_model instruction (args !! "query")
           = Ok q /\
         index_search description_index review_index conn q type n = Ok results /\
         (length results <= 100)%nat /\
         r = json_response json_dumps results))).
Proof.
  intros type instruction. split.
  - intros Hbad. unfold get_query_results. fold type. by rewrite Hbad.
  - intros instr' r H. by apply get_query_results_cases in H.
Qed.

Lemma get_query_results_answers_witness :
  get_query_results Catalogue.py_int catalogue_json catalogue_instructor
    Catalogue.description_index Catalogue.review_index bad_type_args Catalogue.conn
    "old" =
  ("old", Ok (bad_request "Invalid type, must be one of: all, description, review")) /\
  get_query_results Catalogue.py_int catalogue_json catalogue_instructor
    Catalogue.description_index Catalogue.review_index text_args Catalogue.conn
    "old" =
  (default_instruction, Raise RuntimeError).
Proof.
  split; [|vm_compute; reflexivity].
  apply (get_query_results_answers Catalogue.py_int catalogue_json catalogue_instructor
           Catalogue.description_index Catalogue.review_index bad_type_args
           Catalogue.conn "old").
  vm_compute. reflexivity.
Defined.

(** X15: every answer of [get_similar_games] is the JSON of at most 100
    matches, none of them the game of the request, which
    [index_search_similar] returns for the converted query, the type
    "all" and the clamped count; the parameters other than [query] and
    [num_results] play no part. *)
Theorem get_similar_games_answers (py_int : string -> result Z)
    (json_dumps : list Match -> string) (description_index review_index : Index)
    (conn : Conn) :
  (forall args r,
     get_similar_games py_int json_dumps description_index review_index args conn = Ok r ->
     exists q query_appid n results,
       args !! "query" = Some q /\ py_int q = Ok query_appid /\
       num_results_of py_int (args !! "num_results") = Ok n /\
       index_search_similar description_index review_index conn query_appid "all" n
         = Ok results /\
       (length results <= 100)%nat /\
       (forall m, m ∈ results -> appid m <> query_appid) /\
       r = json_response json_dumps results) /\
  (forall args args',
     args !! "query" = args' !! "query" ->
     args !! "num_results" = args' !! "num_results" ->
     get_similar_games py_int json_dumps description_index review_index args conn =
     get_similar_games py_int json_dumps description_index review_index args' conn).
Proof.
  split.
  - intros args r. unfold get_similar_games.
    destruct (args !! "query") as [q|]; [|done].
    destruct (py_int q) as [a|] eqn:Hq; simpl; [|done].
    destruct (num_results_of py_int (args !! "num_results")) as [n|] eqn:Hn;
      simpl; [|done].
    destruct (index_search_similar _ _ _ _ _ _) as [results|] eqn:Hres;
      simpl; [|done].
    intros [= <-]. exists q, a, n, results.
    pose proof (num_results_of_range _ _ _ Hn) as Hrange.
    destruct (index_search_similar_length _ _ _ _ _ _ _ (proj1 Hrange) Hres)
      as [Hlen Hne].
    repeat split; try done. lia.
  - intros args args' Hq Hn. unfold get_similar_games. by rewrite Hq, Hn.
Qed.

Lemma get_similar_games_answers_witness :
  get_similar_games Catalogue.py_int catalogue_json Catalogue.description_index
    Catalogue.review_index similar_args Catalogue.conn =
  Ok (json_response catalogue_json
        [mkMatch 5 "Epsilon" "description" 0.75; mkMatch 5 "Epsilon" "review" 0.75]) /\
  exists q query_appid n results,
    similar_args !! "query" = Some q /\ Catalogue.py_int q = Ok query_appid /\
    num_results_of Catalogue.py_int (similar_args !! "num_results") = Ok n /\
    index_search_similar Catalogue.description_index Catalogue.review_index
      Catalogue.conn query_appid "all" n = Ok results /\
    (length results <= 100)%nat /\
    (forall m, m ∈ results -> appid m <> query_appid) /\
    Ok (json_response catalogue_json
          [mkMatch 5 "Epsilon" "description" 0.75; mkMatch 5 "Epsilon" "review" 0.75]) =
    Ok (json_response catalogue_json results).
Proof.
  assert (H : get_similar_games Catalogue.py_int catalogue_json
                Catalogue.description_index Catalogue.review_index similar_args
                Catalogue.conn =
              Ok (json_response catalogue_json
                    [mkMatch 5 "Epsilon" "description" 0.75;
                     mkMatch 5 "Epsilon" "review" 0.75]))
    by (vm_compute; reflexivity).
  split; [exact H|].
  destruct (proj1 (get_similar_games_answers Catalogue.py_int catalogue_json
                     Catalogue.description_index Catalogue.review_index Catalogue.conn)
              _ _ H) as (q & a & n & results & H1 & H2 & H3 & H4 & H5 & H6 & H7).
  exists q, a, n, results. rewrite H7. done.
Defined.

(** X16: [get_results] answers 400 when there is no query and hands the
    request to [get_query_results] when the query is not an integer.  A
    [ValueError] raised inside [get_similar_games] is caught as well: an
    integer query with a [num_results] that is not an integer is answered
    by [get_query_results].  Any other outcome of [get_similar_games] is
    the outcome of [get_results], the model's instruction left as it
    was. *)
Theorem get_results_dispatch (py_int : string -> result Z)
    (json_dumps : list Match -> string) (instructor_model : Instructor)
    (description_index review_index : Index)
    (args : gmap string string) (conn : Conn) (instr : string) :
  (args !! "query" = None ->
   get_results py_int json_dumps instructor_model description_index review_index
     args conn instr = (instr, Ok (bad_request "No query specified"))) /\
  (forall q, args !! "query" = Some q -> py_int q = Raise ValueError ->
   get_results py_int json_dumps instructor_model description_index review_index
     args conn instr =
   get_query_results py_int json_dumps instructor_model description_index review_index
     args conn instr) /\
  (forall q a s, args !! "query" = Some q -> py_int q = Ok a ->
   args !! "num_results" = Some s -> py_int s = Raise ValueError ->
   get_results py_int json_dumps instructor_model description_index review_index
     args conn instr =
   get_query_results py_int json_dumps instructor_model description_index review_index
     args conn instr) /\
  (forall q a outcome, args !! "query" = Some q -> py_int q = Ok a ->
   get_similar_games py_int json_dumps description_index review_index args conn
     = outcome ->
   outcome <> Raise ValueError ->
   get_results py_int json_dumps instructor_model description_index review_index
     args conn instr = (instr, outcome)).
Proof.
  unfold get_results. repeat split.
  - by intros ->.
  - by intros q -> ->.
  - intros q a s Hq Ha Hn Hs. rewrite Hq, Ha.
    unfold get_similar_games, num_results_of. by rewrite Hq, Ha, Hn, Hs.
  - intros q a outcome -> -> -> Hne.
    destruct outcome as [r|[]]; done.
Qed.

Lemma get_results_dispatch_witness :
  get_results Catalogue.py_int catalogue_json catalogue_instructor
    Catalogue.description_index Catalogue.review_index similar_args Catalogue.conn
    "old" =
  ("old",
   get_similar_games Catalogue.py_int catalogue_json Catalogue.description_index
     Catalogue.review_index similar_args Catalogue.conn) /\
  get_results Catalogue.py_int catalogue_json catalogue_instructor
    Catalogue.description_index Catalogue.review_index bad_type_args Catalogue.conn
    "old" =
  get_query_results Catalogue.py_int catalogue_json catalogue_instructor
    Catalogue.description_index Catalogue.review_index bad_type_args Catalogue.conn
    "old" /\
  get_results Catalogue.py_int catalogue_json catalogue_instructor
    Catalogue.description_index Catalogue.review_index bad_count_args Catalogue.conn
    "old" =
  get_query_results Catalogue.py_int catalogue_json catalogue_instructor
    Catalogue.description_index Catalogue.review_index bad_count_args Catalogue.conn
    "old".
Proof.
  destruct (get_results_dispatch Catalogue.py_int catalogue_json catalogue_instructor
              Catalogue.description_index Catalogue.review_index similar_args
              Catalogue.conn "old") as (_ & _ & _ & Hsim).
  destruct (get_results_dispatch Catalogue.py_int catalogue_json catalogue_instructor
              Catalogue.description_index Catalogue.review_index bad_type_args
              Catalogue.conn "old") as (_ & Htext & _).
  destruct (get_results_dispatch Catalogue.py_int catalogue_json catalogue_instructor
              Catalogue.description_index Catalogue.review_index bad_count_args
              Catalogue.conn "old") as (_ & _ & Hcount & _).
  split; [|split].
  - apply (Hsim "1"%string 1); [vm_compute; reflexivity|reflexivity|reflexivity|].
    vm_compute. discriminate.
  - apply (Htext "space"%string); vm_compute; reflexivity.
  - apply (Hcount "1"%string 1 "many"%string); vm_compute; reflexivity.
Defined.

(** X17: whatever the request, an answer of [get_results] is a 400
    response or the JSON of at most 100 matches. *)
Theorem get_results_answers (py_int : string -> result Z)
    (json_dumps : list Match -> string) (instructor_model : Instructor)
    (description_index review_index : Index)
    (args : gmap string string) (conn : Conn) (instr instr' : string) (r : response) :
  get_results py_int json_dumps instructor_model description_index review_index
    args conn instr = (instr', Ok r) ->
  (status r = 400 /\ access_control_allow_origin r = None) \/
  (exists results, r = json_response json_dumps results /\
                   (length results <= 100)%nat).
Proof.
  assert (Htext : forall instr' r,
    get_query_results py_int json_dumps instructor_model description_index
      review_index args conn instr = (instr', Ok r) ->
    (status r = 400 /\ access_control_allow_origin r = None) \/
    (exists results, r = json_response json_dumps results /\
                     (length results <= 100)%nat)).
  { intros i r0 H. apply get_query_results_cases in H.
    destruct H as [(_ & _ & ->)|(_ & _ & [->|(n & q & results & _ & _ & _ & Hlen & ->)])];
      [by left|by left|right; eauto]. }
  assert (Hsim : forall r,
    get_similar_games py_int json_dumps description_index review_index args conn
      = Ok r ->
    exists results, r = json_response json_dumps results /\
                    (length results <= 100)%nat).
  { intros r0. unfold get_similar_games.
    destruct (match args !! "query" with None => _ | Some q => _ end) as [a|];
      simpl; [|done].
    destruct (num_results_of py_int (args !! "num_results")) as [n|] eqn:Hn;
      simpl; [|done].
    destruct (index_search_similar _ _ _ _ _ _) as [results|] eqn:Hres;
      simpl; [|done].
    intros [= <-]. exists results. split; [done|].
    pose proof (num_results_of_range _ _ _ Hn) as Hrange.
    destruct (index_search_similar_length _ _ _ _ _ _ _ (proj1 Hrange) Hres)
      as [Hlen _]. lia. }
  unfold get_results. destruct (args !! "query") as [q|] eqn:Hq.
  2: { intros [= <- <-]. by left. }
  destruct (py_int q) as [a|[]]; try done; try (by apply Htext).
  destruct (get_similar_games _ _ _ _ _ _) as [r0|[]] eqn:Hs;
    try done; try (by apply Htext).
  intros [= <- <-]. right. by apply Hsim.
Qed.

Lemma get_results_answers_witness :
  get_results Catalogue.py_int catalogue_json catalogue_instructor
    Catalogue.description_index Catalogue.review_index similar_args Catalogue.conn
    "old" =
  ("old", Ok (json_response catalogue_json
                [mkMatch 5 "Epsilon" "description" 0.75;
                 mkMatch 5 "Epsilon" "review" 0.75])) /\
  ((status (json_response catalogue_json
              [mkMatch 5 "Epsilon" "description" 0.75;
               mkMatch 5 "Epsilon" "review" 0.75]) = 400 /\
    access_control_allow_origin
      (json_response catalogue_json
         [mkMatch 5 "Epsilon" "description" 0.75;
          mkMatch 5 "Epsilon" "review" 0.75]) = None) \/
   (exists results,
      json_response catalogue_json
        [mkMatch 5 "Epsilon" "description" 0.75; mkMatch 5 "Epsilon" "review" 0.75] =
      json_response catalogue_json results /\ (length results <= 100)%nat)).
Proof.
  split; [vm_compute; reflexivity|].
  apply (get_results_answers Catalogue.py_int catalogue_json catalogue_instructor
           Catalogue.description_index Catalogue.review_index similar_args
           Catalogue.conn "old" "old").
  vm_compute. reflexivity.
Defined.
